(** * PySpike piece-wise functions: a shallow embedding

    This development embeds the three function classes of PySpike
    ([PieceWiseConstFunc], [PieceWiseLinFunc], [DiscreteFunction]) and
    [average_profile] and states their integral, average, smoothing and
    copying behaviour.

    Modelling conventions.
    - Array entries are floating point numbers in the source.  They are
      idealised here as exact rationals ([Q]); statements about values are
      up to [Qeq].  A quotient whose divisor is zero is a non-finite numpy
      value (inf or nan, no exception is raised for numpy scalars); it is
      represented by [None] in the type [num].
    - Python exceptions are values of [error]; a call returns a [result].
    - Indices are [Z], with Python's reading of negative indices and of
      slices; element-wise numpy operations follow the broadcasting rule
      for one-dimensional arrays.
    - [np.searchsorted] is a numpy primitive; it is modelled on sorted input
      (its contract) by a left-to-right scan. *)

From Stdlib Require Import List ZArith QArith Qabs Qpower Lia Lqa Bool Arith.
Import ListNotations.

Set Implicit Arguments.

(** ** Exceptions and results *)

Inductive assertion : Type :=
| InvalidAveragingInterval   (* "Invalid averaging interval" *)
| InvalidIntervalValue       (* "Invalid value for `interval`..." *)
| DifferentIntervals         (* "The functions have different intervals" *)
| TooFewProfiles.            (* assert len(profiles) > 1 *)

Inductive error : Type :=
| AssertionError (m : assertion)
| IndexError
| ValueError
| AttributeError
| InvalidReference.  (* not a Python exception: a reference that the store
                        does not hold, which no Python program can build *)

Inductive result (A : Type) : Type :=
| Ok (a : A)
| Err (e : error).

Arguments Ok {A} a.
Arguments Err {A} e.

Definition bind {A B : Type} (r : result A) (k : A -> result B) : result B :=
  match r with
  | Ok a => k a
  | Err e => Err e
  end.

Declare Scope result_scope.
Delimit Scope result_scope with result.
Notation "x <- r ;; k" := (bind r (fun x => k))
  (at level 61, r at next level, right associativity) : result_scope.
Notation "'assert' c 'orelse' m ;; k" :=
  (if c then k else Err (AssertionError m))
  (at level 61, c at next level, m at next level, right associativity)
  : result_scope.

Local Open Scope Z_scope.
Local Open Scope Q_scope.
Local Open Scope result_scope.

(** ** Numbers *)

Definition Qlt_bool (a b : Q) : bool := negb (Qle_bool b a).

(** A value that may be non-finite: the outcome of a numpy division. *)
Definition num : Type := option Q.

Definition fdiv (a b : Q) : num :=
  if Qeq_bool b 0 then None else Some (a / b).

Definition nadd (a b : num) : num :=
  match a, b with
  | Some u, Some v => Some (u + v)
  | _, _ => None
  end.

Definition nmul (a b : num) : num :=
  match a, b with
  | Some u, Some v => Some (u * v)
  | _, _ => None
  end.

Definition ndiv (a : num) (b : Q) : num :=
  match a with
  | Some u => fdiv u b
  | None => None
  end.

Definition num_eq (a b : num) : Prop :=
  match a, b with
  | Some u, Some v => u == v
  | None, None => True
  | _, _ => False
  end.

(** ** Python sequences and numpy arrays *)

Definition len {A : Type} (l : list A) : Z := Z.of_nat (length l).

(** [l[i]] *)
Definition getitem {A : Type} (l : list A) (i : Z) : result A :=
  let j := if (i <? 0)%Z then (i + len l)%Z else i in
  if (j <? 0)%Z then Err IndexError
  else match nth_error l (Z.to_nat j) with
       | Some v => Ok v
       | None => Err IndexError
       end.

(** A slice bound, normalised as Python does for step 1. *)
Definition slice_bound (n i : Z) : nat :=
  let j := if (i <? 0)%Z then (i + n)%Z else i in
  Z.to_nat (Z.max 0 (Z.min n j)).

(** [l[start:stop]], either bound possibly omitted. *)
Definition slice {A : Type} (l : list A) (start stop : option Z) : list A :=
  let n := len l in
  let s := match start with Some i => slice_bound n i | None => 0%nat end in
  let e := match stop with Some i => slice_bound n i | None => length l end in
  firstn (e - s) (skipn s l).

Fixpoint map2 {A B C : Type} (f : A -> B -> C) (a : list A) (b : list B)
  : list C :=
  match a, b with
  | u :: a', v :: b' => f u v :: map2 f a' b'
  | _, _ => []
  end.

(** Element-wise binary operation on two one-dimensional arrays. *)
Definition broadcast2 {C : Type} (f : Q -> Q -> C) (a b : list Q)
  : result (list C) :=
  if Nat.eqb (length a) (length b) then Ok (map2 f a b)
  else match a, b with
       | [u], _ => Ok (map (f u) b)
       | _, [v] => Ok (map (fun u => f u v) a)
       | _, _ => Err ValueError
       end.

(** [np.sum] *)
Definition np_sum (l : list Q) : Q := fold_left Qplus l 0.

(** [np.searchsorted(x, v, side='right')]: the first index whose entry is
    greater than [v]. *)
Fixpoint searchsorted_right (x : list Q) (v : Q) : nat :=
  match x with
  | [] => 0%nat
  | h :: t => if Qle_bool h v then S (searchsorted_right t v) else 0%nat
  end.

(** [np.searchsorted(x, v, side='left')]: the first index whose entry is
    not less than [v]. *)
Fixpoint searchsorted_left (x : list Q) (v : Q) : nat :=
  match x with
  | [] => 0%nat
  | h :: t => if Qlt_bool h v then S (searchsorted_left t v) else 0%nat
  end.

(** An entry of an array made by [np.empty]: its content is unspecified
    until it is assigned. *)
Inductive cell : Type :=
| Uninit
| Val (v : Q).

(** [np.empty(n)]; a negative size is refused. *)
Definition np_empty (n : Z) : result (list cell) :=
  if (n <? 0)%Z then Err ValueError else Ok (repeat Uninit (Z.to_nat n)).

(** [l[i] = v] *)
Definition assign_item {A : Type} (l : list A) (i : Z) (v : A)
  : result (list A) :=
  let j := if (i <? 0)%Z then (i + len l)%Z else i in
  if (j <? 0)%Z || (len l <=? j)%Z then Err IndexError
  else Ok (firstn (Z.to_nat j) l ++ v :: skipn (S (Z.to_nat j)) l).

(** The number of positions [skip, skip+step, ...] of an array. *)
Fixpoint stride_count {A : Type} (l : list A) (skip step : nat) : nat :=
  match l with
  | [] => 0%nat
  | _ :: t =>
      match skip with
      | O => S (stride_count t (step - 1) step)
      | S k => stride_count t k step
      end
  end.

(** The values [v] written at the positions [skip, skip+step, ...]. *)
Fixpoint put_stride (l : list cell) (skip step : nat) (v : list Q)
  : list cell :=
  match l with
  | [] => []
  | c :: t =>
      match skip with
      | O =>
          match v with
          | u :: v' => Val u :: put_stride t (step - 1) step v'
          | [] => c :: t
          end
      | S k => c :: put_stride t k step v
      end
  end.

(** [l[start::step] = v]: the values must be as many as the positions, or
    a single value, which is then written everywhere. *)
Definition assign_stride (l : list cell) (start step : nat) (v : list Q)
  : result (list cell) :=
  let c := stride_count l start step in
  if Nat.eqb (length v) c then Ok (put_stride l start step v)
  else match v with
       | [u] => Ok (put_stride l start step (repeat u c))
       | _ => Err ValueError
       end.

(** The argument [interval] of [avrg] and of [DiscreteFunction.integral]. *)
Inductive interval_arg : Type :=
| INone
| IPair (a b : Q)
| ISeq (ivals : list (Q * Q)).

(** ** PieceWiseConstFunc *)

Module PieceWiseConstFunc.

Record t : Type := mk { x : list Q; y : list Q }.

Definition integral (self : t) (interval : option (Q * Q)) : result Q :=
  match interval with
  | None =>
      d <- broadcast2 Qminus (slice (x self) (Some 1%Z) None)
                             (slice (x self) None (Some (-1)%Z)) ;;
      p <- broadcast2 Qmult d (y self) ;;
      Ok (np_sum p)
  | Some (lo, hi) =>
      let start_ind := Z.of_nat (searchsorted_right (x self) lo) in
      let end_ind := (Z.of_nat (searchsorted_left (x self) hi) - 1)%Z in
      assert ((0 <? start_ind)%Z && (end_ind <? len (x self))%Z)
        orelse InvalidAveragingInterval ;;
      d <- broadcast2 Qminus
             (slice (x self) (Some (start_ind + 1)%Z) (Some (end_ind + 1)%Z))
             (slice (x self) (Some start_ind) (Some end_ind)) ;;
      p <- broadcast2 Qmult d
             (slice (y self) (Some start_ind) (Some end_ind)) ;;
      let a := np_sum p in
      xs <- getitem (x self) start_ind ;;
      ys <- getitem (y self) (start_ind - 1)%Z ;;
      let a := a + (xs - lo) * ys in
      xe <- getitem (x self) end_ind ;;
      ye <- getitem (y self) end_ind ;;
      Ok (a + (hi - xe) * ye)
  end.

(** The loop of [avrg] over several intervals: [a] and [int_length] are
    the two running sums. *)
Fixpoint avrg_loop (self : t) (ivals : list (Q * Q)) (a int_length : Q)
  : result (Q * Q) :=
  match ivals with
  | [] => Ok (a, int_length)
  | ival :: rest =>
      v <- integral self (Some ival) ;;
      avrg_loop self rest (a + v) (int_length + (snd ival - fst ival))
  end.

Definition avrg (self : t) (interval : interval_arg) : result num :=
  match interval with
  | INone =>
      i <- integral self None ;;
      xl <- getitem (x self) (-1)%Z ;;
      x0 <- getitem (x self) 0%Z ;;
      Ok (fdiv i (xl - x0))
  | IPair lo hi =>
      i <- integral self (Some (lo, hi)) ;;
      Ok (fdiv i (hi - lo))
  | ISeq [] => Err IndexError
  | ISeq ivals =>
      r <- avrg_loop self ivals 0 0 ;;
      Ok (fdiv (fst r) (snd r))
  end.

(** Returns two arrays containing x- and y-coordinates for immeditate
    plotting of the piece-wise function. *)
Definition get_plottable_data (self : t) : result (list cell * list cell) :=
  x_plot <- np_empty (2 * len (x self) - 2)%Z ;;
  x0 <- getitem (x self) 0%Z ;;
  x_plot <- assign_item x_plot 0%Z (Val x0) ;;
  x_plot <- assign_stride x_plot 1 2 (slice (x self) (Some 1%Z) None) ;;
  x_plot <- assign_stride x_plot 2 2
              (slice (x self) (Some 1%Z) (Some (-1)%Z)) ;;
  y_plot <- np_empty (2 * len (y self))%Z ;;
  y_plot <- assign_stride y_plot 0 2 (y self) ;;
  y_plot <- assign_stride y_plot 1 2 (y self) ;;
  Ok (x_plot, y_plot).

End PieceWiseConstFunc.

Module PWC := PieceWiseConstFunc.

(** ** PieceWiseLinFunc *)

Module PieceWiseLinFunc.

Record t : Type := mk { x : list Q; y1 : list Q; y2 : list Q }.

(** computes the intermediate value of a linear function *)
Definition intermediate_value (x0 x1 y0 y1 x : Q) : num :=
  nadd (Some y0) (fdiv ((y1 - y0) * (x - x0)) (x1 - x0)).

Definition integral (self : t) (interval : option (Q * Q)) : result num :=
  match interval with
  | None =>
      d <- broadcast2 Qminus (slice (x self) (Some 1%Z) None)
                             (slice (x self) None (Some (-1)%Z)) ;;
      let h := map (fun v => v * (1 # 2)) d in
      s <- broadcast2 Qplus (y1 self) (y2 self) ;;
      p <- broadcast2 Qmult h s ;;
      Ok (Some (np_sum p))
  | Some (lo, hi) =>
      let start_ind := Z.of_nat (searchsorted_right (x self) lo) in
      let end_ind := (Z.of_nat (searchsorted_left (x self) hi) - 1)%Z in
      assert ((0 <? start_ind)%Z && (end_ind <? len (x self))%Z)
        orelse InvalidAveragingInterval ;;
      d <- broadcast2 Qminus
             (slice (x self) (Some (start_ind + 1)%Z) (Some (end_ind + 1)%Z))
             (slice (x self) (Some start_ind) (Some end_ind)) ;;
      let h := map (fun v => v * (1 # 2)) d in
      s <- broadcast2 Qplus
             (slice (y1 self) (Some start_ind) (Some end_ind))
             (slice (y2 self) (Some start_ind) (Some end_ind)) ;;
      p <- broadcast2 Qmult h s ;;
      let integral := Some (np_sum p) in
      (* correction from start to first index *)
      xs <- getitem (x self) start_ind ;;
      y2p <- getitem (y2 self) (start_ind - 1)%Z ;;
      xp <- getitem (x self) (start_ind - 1)%Z ;;
      xs' <- getitem (x self) start_ind ;;
      y1p <- getitem (y1 self) (start_ind - 1)%Z ;;
      y2p' <- getitem (y2 self) (start_ind - 1)%Z ;;
      let integral :=
        nadd integral
          (nmul (Some ((xs - lo) * (1 # 2)))
                (nadd (Some y2p) (intermediate_value xp xs' y1p y2p' lo))) in
      (* correction from last index to end *)
      xe <- getitem (x self) end_ind ;;
      y1e <- getitem (y1 self) end_ind ;;
      xe' <- getitem (x self) end_ind ;;
      xn <- getitem (x self) (end_ind + 1)%Z ;;
      y1e' <- getitem (y1 self) end_ind ;;
      y2e <- getitem (y2 self) end_ind ;;
      Ok (nadd integral
            (nmul (Some ((hi - xe) * (1 # 2)))
                  (nadd (Some y1e) (intermediate_value xe' xn y1e' y2e hi))))
  end.

Fixpoint avrg_loop (self : t) (ivals : list (Q * Q)) (a : num)
  (int_length : Q) : result (num * Q) :=
  match ivals with
  | [] => Ok (a, int_length)
  | ival :: rest =>
      v <- integral self (Some ival) ;;
      avrg_loop self rest (nadd a v) (int_length + (snd ival - fst ival))
  end.

Definition avrg (self : t) (interval : interval_arg) : result num :=
  match interval with
  | INone =>
      i <- integral self None ;;
      xl <- getitem (x self) (-1)%Z ;;
      x0 <- getitem (x self) 0%Z ;;
      Ok (ndiv i (xl - x0))
  | IPair lo hi =>
      i <- integral self (Some (lo, hi)) ;;
      Ok (ndiv i (hi - lo))
  | ISeq [] => Err IndexError
  | ISeq ivals =>
      r <- avrg_loop self ivals (Some 0) 0 ;;
      Ok (ndiv (fst r) (snd r))
  end.

(** Returns two arrays containing x- and y-coordinates for immeditate
    plotting of the piece-wise function. *)
Definition get_plottable_data (self : t) : result (list cell * list cell) :=
  x_plot <- np_empty (2 * len (x self) - 2)%Z ;;
  x0 <- getitem (x self) 0%Z ;;
  x_plot <- assign_item x_plot 0%Z (Val x0) ;;
  x_plot <- assign_stride x_plot 1 2 (slice (x self) (Some 1%Z) None) ;;
  x_plot <- assign_stride x_plot 2 2
              (slice (x self) (Some 1%Z) (Some (-1)%Z)) ;;
  let y_plot := repeat Uninit (length x_plot) in
  y_plot <- assign_stride y_plot 0 2 (y1 self) ;;
  y_plot <- assign_stride y_plot 1 2 (y2 self) ;;
  Ok (x_plot, y_plot).

End PieceWiseLinFunc.

Module PWL := PieceWiseLinFunc.

(** ** DiscreteFunction *)

(** Python's [int(v)] on a float: truncation towards zero. *)
Definition py_int (v : Q) : Z := Z.quot (Qnum v) (Zpos (Qden v)).

(** [l[i] = v] on an array of known length. *)
Fixpoint setitem {A : Type} (l : list A) (i : nat) (v : A) : list A :=
  match l, i with
  | [], _ => []
  | _ :: t, O => v :: t
  | h :: t, S i' => h :: setitem t i' v
  end.

Module DiscreteFunction.

Record t : Type := mk { x : list Q; y : list Q; mp : list Q }.

(** One of the two [while] loops of the averaging window.  [js] lists the
    values taken by the loop variable [j] in order ([i+1, i+2, ...] up to
    the last index for the right side, [i-1, i-2, ...] down to 0 for the
    left side); [yv] is the running value and [m] the running
    multiplicity of that side. *)
Fixpoint window_loop (self : t) (expected_mp : Z) (js : list nat)
  (yv : num) (m : Q) : result (num * Q) :=
  match js with
  | [] => Ok (yv, m)
  | j :: rest =>
      mpj <- getitem (mp self) (Z.of_nat j) ;;
      if Qlt_bool (m + mpj) (inject_Z expected_mp) then
        (* if we still dont reach the required multiplicity
           we take the whole value *)
        yj <- getitem (y self) (Z.of_nat j) ;;
        mpj' <- getitem (mp self) (Z.of_nat j) ;;
        window_loop self expected_mp rest (nadd yv (Some yj)) (m + mpj')
      else
        (* otherwise, just some fraction *)
        yj <- getitem (y self) (Z.of_nat j) ;;
        mpj' <- getitem (mp self) (Z.of_nat j) ;;
        Ok (nadd yv (fdiv (yj * (inject_Z expected_mp - m)) mpj'),
            m + (inject_Z expected_mp - m))
  end.

(** The body of the loop over [i]: the value stored in [y_plot[i]]. *)
Definition window_point (self : t) (expected_mp : Z) (n i : nat)
  : result num :=
  mpi <- getitem (mp self) (Z.of_nat i) ;;
  if Qle_bool (inject_Z expected_mp) mpi then
    yi <- getitem (y self) (Z.of_nat i) ;;
    mpi' <- getitem (mp self) (Z.of_nat i) ;;
    Ok (fdiv yi mpi')
  else
    (* first look to the right *)
    yi <- getitem (y self) (Z.of_nat i) ;;
    mp_r <- getitem (mp self) (Z.of_nat i) ;;
    r <- window_loop self expected_mp (seq (S i) (n - S i)) (Some yi) mp_r ;;
    (* same story to the left *)
    mp_l <- getitem (mp self) (Z.of_nat i) ;;
    l <- window_loop self expected_mp (rev (seq 0 i)) (fst r) mp_l ;;
    mpi'' <- getitem (mp self) (Z.of_nat i) ;;
    Ok (ndiv (fst l) (snd l + snd r - mpi'')).

Fixpoint plot_loop (self : t) (expected_mp : Z) (n : nat) (idx : list nat)
  (y_plot : list num) : result (list num) :=
  match idx with
  | [] => Ok y_plot
  | i :: rest =>
      v <- window_point self expected_mp n i ;;
      plot_loop self expected_mp n rest (setitem y_plot i v)
  end.

Definition get_plottable_data (self : t) (averaging_window_size : Z)
  : result (list Q * list num) :=
  if (0 <? averaging_window_size)%Z then
    mp0 <- getitem (mp self) 0%Z ;;
    let expected_mp := ((averaging_window_size + 1) * py_int mp0)%Z in
    let y_plot := map (fun _ => Some 0) (y self) in
    let n := length y_plot in
    y_plot' <- plot_loop self expected_mp n (seq 0 n) y_plot ;;
    Ok (map (Qmult 1) (x self), y_plot')
  else
    q <- broadcast2 fdiv (map (Qmult 1) (y self)) (mp self) ;;
    Ok (map (Qmult 1) (x self), q).

(** Retuns the indeces surrounding the given interval *)
Definition get_indices (self : t) (ival : Q * Q) : result (Z * Z) :=
  let start_ind := Z.of_nat (searchsorted_right (x self) (fst ival)) in
  let end_ind := Z.of_nat (searchsorted_left (x self) (snd ival)) in
  assert ((0 <? start_ind)%Z && (end_ind <? len (x self))%Z)
    orelse InvalidAveragingInterval ;;
  Ok (start_ind, end_ind).

Fixpoint integral_loop (self : t) (ivals : list (Q * Q))
  (value multiplicity : Q) : result (Q * Q) :=
  match ivals with
  | [] => Ok (value, multiplicity)
  | ival :: rest =>
      ie <- get_indices self ival ;;
      integral_loop self rest
        (value + np_sum (slice (y self) (Some (fst ie)) (Some (snd ie))))
        (multiplicity
         + np_sum (slice (mp self) (Some (fst ie)) (Some (snd ie))))
  end.

Definition integral (self : t) (interval : interval_arg) : result num :=
  match interval with
  | INone =>
      Ok (fdiv (1 * np_sum (slice (y self) (Some 1%Z) (Some (-1)%Z)))
               (np_sum (slice (mp self) (Some 1%Z) (Some (-1)%Z))))
  | IPair lo hi =>
      ie <- get_indices self (lo, hi) ;;
      Ok (fdiv (np_sum (slice (y self) (Some (fst ie)) (Some (snd ie))))
               (np_sum (slice (mp self) (Some (fst ie)) (Some (snd ie)))))
  | ISeq [] => Err IndexError
  | ISeq ivals =>
      r <- integral_loop self ivals 0 0 ;;
      Ok (fdiv (fst r) (snd r))
  end.

Definition avrg (self : t) (interval : interval_arg) : result num :=
  integral self interval.

End DiscreteFunction.

Module DF := DiscreteFunction.

(** ** Objects, arrays and the store

    Instances are objects whose attributes refer to numpy arrays; both have
    an identity.  [np.array(a)] allocates a new array, [self.y *= fac]
    updates an array in place, and [add] rebinds the attributes of [self]
    to the arrays returned by the merge backend. *)

Definition aref : Type := nat.
Definition oref : Type := nat.

Inductive object : Type :=
| PwcObj (x y : aref)
| PwlObj (x y1 y2 : aref)
| DiscObj (x y mp : aref).

Record store : Type := mkStore {
  arrays : list (list Q);
  objects : list object
}.

(** The merge routines imported by [add] ([cython_add] or
    [python_backend]) are not part of the modelled sources; they are taken
    as parameters: functions from array contents to the contents of newly
    allocated arrays. *)
Record backend : Type := mkBackend {
  add_piece_wise_const_impl :
    list Q -> list Q -> list Q -> list Q -> result (list Q * list Q);
  add_piece_wise_lin_impl :
    list Q -> list Q -> list Q -> list Q -> list Q -> list Q ->
    result (list Q * list Q * list Q);
  add_discrete_function_impl :
    list Q -> list Q -> list Q -> list Q -> list Q -> list Q ->
    result (list Q * list Q * list Q)
}.

(** [np.allclose(a, b, atol=eps, rtol=0.0)] *)
Definition allclose (a b : list Q) (eps : Q) : result bool :=
  c <- broadcast2 (fun u v => Qle_bool (Qabs (u - v)) eps) a b ;;
  Ok (forallb (fun t => t) c).

(** The two assertions at the head of every [add]. *)
Definition same_interval (sx fx : list Q) : result unit :=
  s0 <- getitem sx 0%Z ;;
  f0 <- getitem fx 0%Z ;;
  assert (Qeq_bool s0 f0) orelse DifferentIntervals ;;
  sl <- getitem sx (-1)%Z ;;
  fl <- getitem fx (-1)%Z ;;
  assert (Qeq_bool sl fl) orelse DifferentIntervals ;;
  Ok tt.

Module Store.

Definition M (A : Type) : Type := store -> result (A * store).

Definition ret {A : Type} (a : A) : M A := fun h => Ok (a, h).

Definition bindM {A B : Type} (m : M A) (k : A -> M B) : M B :=
  fun h => match m h with
           | Ok (a, h') => k a h'
           | Err e => Err e
           end.

Definition lift {A : Type} (r : result A) : M A :=
  fun h => match r with
           | Ok a => Ok (a, h)
           | Err e => Err e
           end.

Declare Scope store_scope.
Delimit Scope store_scope with store.
Notation "x <- m ;; k" := (bindM m (fun x => k))
  (at level 61, m at next level, right associativity) : store_scope.
Notation "m ;;; k" := (bindM m (fun _ => k))
  (at level 61, right associativity) : store_scope.
Local Open Scope store_scope.

Definition load_array (r : aref) : M (list Q) :=
  fun h => match nth_error (arrays h) r with
           | Some a => Ok (a, h)
           | None => Err InvalidReference
           end.

Definition alloc_array (a : list Q) : M aref :=
  fun h => Ok (length (arrays h), mkStore (arrays h ++ [a]) (objects h)).

Definition modify_array (r : aref) (g : list Q -> list Q) : M unit :=
  fun h => match nth_error (arrays h) r with
           | Some a => Ok (tt, mkStore (setitem (arrays h) r (g a)) (objects h))
           | None => Err InvalidReference
           end.

Definition load_object (r : oref) : M object :=
  fun h => match nth_error (objects h) r with
           | Some o => Ok (o, h)
           | None => Err InvalidReference
           end.

Definition alloc_object (o : object) : M oref :=
  fun h => Ok (length (objects h), mkStore (arrays h) (objects h ++ [o])).

Definition store_object (r : oref) (o : object) : M unit :=
  fun h => match nth_error (objects h) r with
           | Some _ => Ok (tt, mkStore (arrays h) (setitem (objects h) r o))
           | None => Err InvalidReference
           end.

(** Attribute access; every class has [x]. *)
Definition attr_x (o : object) : aref :=
  match o with
  | PwcObj x _ => x
  | PwlObj x _ _ => x
  | DiscObj x _ _ => x
  end.

Definition attr_y (o : object) : result aref :=
  match o with
  | PwcObj _ y => Ok y
  | DiscObj _ y _ => Ok y
  | PwlObj _ _ _ => Err AttributeError
  end.

Definition attr_y1 (o : object) : result aref :=
  match o with
  | PwlObj _ y1 _ => Ok y1
  | _ => Err AttributeError
  end.

Definition attr_y2 (o : object) : result aref :=
  match o with
  | PwlObj _ _ y2 => Ok y2
  | _ => Err AttributeError
  end.

Definition attr_mp (o : object) : result aref :=
  match o with
  | DiscObj _ _ mp => Ok mp
  | _ => Err AttributeError
  end.

(** [np.array(a)]: the contents of [a] in a new array. *)
Definition np_array (a : aref) : M aref :=
  c <- load_array a ;; alloc_array c.

(** The three [__init__] methods. *)
Definition PieceWiseConstFunc_init (x y : aref) : M oref :=
  x' <- np_array x ;;
  y' <- np_array y ;;
  alloc_object (PwcObj x' y').

Definition PieceWiseLinFunc_init (x y1 y2 : aref) : M oref :=
  x' <- np_array x ;;
  y1' <- np_array y1 ;;
  y2' <- np_array y2 ;;
  alloc_object (PwlObj x' y1' y2').

Definition DiscreteFunction_init (x y multiplicity : aref) : M oref :=
  x' <- np_array x ;;
  y' <- np_array y ;;
  mp' <- np_array multiplicity ;;
  alloc_object (DiscObj x' y' mp').

Definition copy (self : oref) : M oref :=
  o <- load_object self ;;
  match o with
  | PwcObj x y => PieceWiseConstFunc_init x y
  | PwlObj x y1 y2 => PieceWiseLinFunc_init x y1 y2
  | DiscObj x y mp => DiscreteFunction_init x y mp
  end.

Definition mul_scalar (self : oref) (fac : Q) : M unit :=
  o <- load_object self ;;
  match o with
  | PwcObj _ y => modify_array y (map (fun v => v * fac))
  | PwlObj _ y1 y2 =>
      modify_array y1 (map (fun v => v * fac)) ;;;
      modify_array y2 (map (fun v => v * fac))
  | DiscObj _ y _ => modify_array y (map (fun v => v * fac))
  end.

Definition almost_equal (self other : oref) (decimal : Z) : M bool :=
  let eps := Qpower 10 (- decimal) in
  o <- load_object self ;;
  f <- load_object other ;;
  match o with
  | PwcObj x y =>
      sx <- load_array x ;;
      fx <- load_array (attr_x f) ;;
      cx <- lift (allclose sx fx eps) ;;
      if cx then
        sy <- load_array y ;;
        fyr <- lift (attr_y f) ;;
        fy <- load_array fyr ;;
        lift (allclose sy fy eps)
      else ret false
  | PwlObj x y1 y2 =>
      sx <- load_array x ;;
      fx <- load_array (attr_x f) ;;
      cx <- lift (allclose sx fx eps) ;;
      if cx then
        s1 <- load_array y1 ;;
        f1r <- lift (attr_y1 f) ;;
        f1 <- load_array f1r ;;
        c1 <- lift (allclose s1 f1 eps) ;;
        if c1 then
          s2 <- load_array y2 ;;
          f2r <- lift (attr_y2 f) ;;
          f2 <- load_array f2r ;;
          lift (allclose s2 f2 eps)
        else ret false
      else ret false
  | DiscObj x y mp =>
      sx <- load_array x ;;
      fx <- load_array (attr_x f) ;;
      cx <- lift (allclose sx fx eps) ;;
      if cx then
        sy <- load_array y ;;
        fyr <- lift (attr_y f) ;;
        fy <- load_array fyr ;;
        cy <- lift (allclose sy fy eps) ;;
        if cy then
          sm <- load_array mp ;;
          fmr <- lift (attr_mp f) ;;
          fm <- load_array fmr ;;
          lift (allclose sm fm eps)
        else ret false
      else ret false
  end.

Section WithBackend.

Variable B : backend.

Definition add (self f : oref) : M unit :=
  o <- load_object self ;;
  fo <- load_object f ;;
  match o with
  | PwcObj x y =>
      sx <- load_array x ;;
      fx <- load_array (attr_x fo) ;;
      _ <- lift (same_interval sx fx) ;;
      sy <- load_array y ;;
      fyr <- lift (attr_y fo) ;;
      fy <- load_array fyr ;;
      r <- lift (add_piece_wise_const_impl B sx sy fx fy) ;;
      x' <- alloc_array (fst r) ;;
      y' <- alloc_array (snd r) ;;
      store_object self (PwcObj x' y')
  | PwlObj x y1 y2 =>
      sx <- load_array x ;;
      fx <- load_array (attr_x fo) ;;
      _ <- lift (same_interval sx fx) ;;
      s1 <- load_array y1 ;;
      s2 <- load_array y2 ;;
      f1r <- lift (attr_y1 fo) ;;
      f1 <- load_array f1r ;;
      f2r <- lift (attr_y2 fo) ;;
      f2 <- load_array f2r ;;
      r <- lift (add_piece_wise_lin_impl B sx s1 s2 fx f1 f2) ;;
      x' <- alloc_array (fst (fst r)) ;;
      y1' <- alloc_array (snd (fst r)) ;;
      y2' <- alloc_array (snd r) ;;
      store_object self (PwlObj x' y1' y2')
  | DiscObj x y mp =>
      sx <- load_array x ;;
      fx <- load_array (attr_x fo) ;;
      _ <- lift (same_interval sx fx) ;;
      sy <- load_array y ;;
      sm <- load_array mp ;;
      fyr <- lift (attr_y fo) ;;
      fy <- load_array fyr ;;
      fmr <- lift (attr_mp fo) ;;
      fm <- load_array fmr ;;
      r <- lift (add_discrete_function_impl B sx sy sm fx fy fm) ;;
      x' <- alloc_array (fst (fst r)) ;;
      y' <- alloc_array (snd (fst r)) ;;
      mp' <- alloc_array (snd r) ;;
      store_object self (DiscObj x' y' mp')
  end.

(** [for i in xrange(1, len(profiles)): avrg_profile.add(profiles[i])] *)
Fixpoint add_loop (avrg_profile : oref) (profiles : list oref)
  (idx : list nat) : M unit :=
  match idx with
  | [] => ret tt
  | i :: rest =>
      p <- lift (getitem profiles (Z.of_nat i)) ;;
      add avrg_profile p ;;;
      add_loop avrg_profile profiles rest
  end.

Definition average_profile (profiles : list oref) : M oref :=
  if (1 <? len profiles)%Z then
    p0 <- lift (getitem profiles 0%Z) ;;
    avrg_profile <- copy p0 ;;
    add_loop avrg_profile profiles (seq 1 (length profiles - 1)) ;;;
    mul_scalar avrg_profile (1 / inject_Z (len profiles)) ;;;
    ret avrg_profile
  else
    fun _ => Err (AssertionError TooFewProfiles).

End WithBackend.

End Store.

(** ** Merge backends

    The merge routines behind [add] ([cython_add], [python_backend]) are
    not among the modelled sources.  The results below hold for every
    [backend]; the model of this section gives a concrete one for the
    scenarios.  Two cursors sweep the two breakpoint sequences; the sweep
    position moves to the next breakpoint of either operand and ties
    collapse into one output breakpoint. *)

(** The interpolation formula [y0 + (y1-y0)*(x-x0)/(x1-x0)]: the value at
    [p] of the line through [(xl, yl)] and [(xr, yr)]. *)
Definition interpolate (xl xr yl yr p : Q) : Q :=
  yl + (yr - yl) * (p - xl) / (xr - xl).

Module MergeModel.

(** Modelled from the spec: the sweep of [add_piece_wise_const_impl], which
    is missing from the sources.  [x1r], [x2r] are the breakpoints still
    ahead of the sweep position, [v1], [v2] the step values from the
    current interval of each operand on; the merged value is the sum of
    the two current step values. *)
Fixpoint sweep_const (fuel : nat) (x1r v1 x2r v2 : list Q)
  : list Q * list Q :=
  match fuel with
  | O => ([], [])
  | S fuel' =>
      match x1r, x2r with
      | a :: x1r', b :: x2r' =>
          let v := nth 0 v1 0 + nth 0 v2 0 in
          let r :=
            if Qlt_bool a b then sweep_const fuel' x1r' (tl v1) x2r v2
            else if Qlt_bool b a then sweep_const fuel' x1r v1 x2r' (tl v2)
            else sweep_const fuel' x1r' (tl v1) x2r' (tl v2) in
          ((if Qlt_bool a b then a else b) :: fst r, v :: snd r)
      | _, _ => ([], [])
      end
  end.

(** Modelled from the spec: [add_piece_wise_const_impl], missing from the
    sources; the output breakpoints are the union of the input ones. *)
Definition add_piece_wise_const (x1 y1 x2 y2 : list Q)
  : result (list Q * list Q) :=
  match x1 with
  | [] => Err IndexError
  | x0 :: x1r =>
      let r := sweep_const (length x1 + length x2) x1r y1 (tl x2) y2 in
      Ok (x0 :: fst r, snd r)
  end.

(** Modelled from the spec: the sweep of [add_piece_wise_lin_impl], which
    is missing from the sources.  [p] is the sweep position; [s1], [s2]
    list the intervals of each operand from the current one on, each as
    [(xl, xr, yl, yr)]; where an interval is split its endpoint value is
    interpolated within the original interval. *)
Fixpoint sweep_lin (fuel : nat) (p : Q) (s1 s2 : list (Q * Q * Q * Q))
  : list Q * list Q * list Q :=
  match fuel with
  | O => ([], [], [])
  | S fuel' =>
      match s1, s2 with
      | (xl1, xr1, yl1, yr1) :: s1', (xl2, xr2, yl2, yr2) :: s2' =>
          let q := if Qlt_bool xr1 xr2 then xr1 else xr2 in
          let lo := interpolate xl1 xr1 yl1 yr1 p
                    + interpolate xl2 xr2 yl2 yr2 p in
          let hi := interpolate xl1 xr1 yl1 yr1 q
                    + interpolate xl2 xr2 yl2 yr2 q in
          let r :=
            if Qlt_bool xr1 xr2 then sweep_lin fuel' q s1' s2
            else if Qlt_bool xr2 xr1 then sweep_lin fuel' q s1 s2'
            else sweep_lin fuel' q s1' s2' in
          (q :: fst (fst r), lo :: snd (fst r), hi :: snd r)
      | _, _ => ([], [], [])
      end
  end.

Fixpoint segments (x y1 y2 : list Q) : list (Q * Q * Q * Q) :=
  match x, y1, y2 with
  | xl :: ((xr :: _) as x'), yl :: y1', yr :: y2' =>
      (xl, xr, yl, yr) :: segments x' y1' y2'
  | _, _, _ => []
  end.

(** Modelled from the spec: [add_piece_wise_lin_impl], missing from the
    sources. *)
Definition add_piece_wise_lin (x1 y11 y12 x2 y21 y22 : list Q)
  : result (list Q * list Q * list Q) :=
  match x1 with
  | [] => Err IndexError
  | x0 :: _ =>
      let r := sweep_lin (length x1 + length x2) x0
                 (segments x1 y11 y12) (segments x2 y21 y22) in
      Ok (x0 :: fst (fst r), snd (fst r), snd r)
  end.

(** Modelled from the spec: the sweep of [add_discrete_function_impl],
    which is missing from the sources.  Points are merged by coordinate; a
    point of both operands carries the sums of values and of
    multiplicities. *)
Fixpoint sweep_discrete (fuel : nat) (p1 p2 : list (Q * Q * Q))
  : list (Q * Q * Q) :=
  match fuel with
  | O => []
  | S fuel' =>
      match p1, p2 with
      | [], _ => p2
      | _, [] => p1
      | (a, ya, ma) :: p1', (b, yb, mb) :: p2' =>
          if Qlt_bool a b then (a, ya, ma) :: sweep_discrete fuel' p1' p2
          else if Qlt_bool b a then (b, yb, mb) :: sweep_discrete fuel' p1 p2'
          else (a, ya + yb, ma + mb) :: sweep_discrete fuel' p1' p2'
      end
  end.

Fixpoint points (x y mp : list Q) : list (Q * Q * Q) :=
  match x, y, mp with
  | a :: x', v :: y', m :: mp' => (a, v, m) :: points x' y' mp'
  | _, _, _ => []
  end.

(** Modelled from the spec: [add_discrete_function_impl], missing from the
    sources. *)
Definition add_discrete_function (x1 y1 mp1 x2 y2 mp2 : list Q)
  : result (list Q * list Q * list Q) :=
  let r := sweep_discrete (S (length x1 + length x2))
             (points x1 y1 mp1) (points x2 y2 mp2) in
  Ok (map (fun t => fst (fst t)) r, map (fun t => snd (fst t)) r,
      map (fun t => snd t) r).

Definition impl : backend :=
  mkBackend add_piece_wise_const add_piece_wise_lin add_discrete_function.

End MergeModel.

(** ** Profiles as values

    The contents of an instance, read through its attributes; the
    value-level counterparts of [copy], [add] and [mul_scalar] state what
    the store-level methods compute. *)

Inductive profile : Type :=
| Pwc (f : PWC.t)
| Pwl (f : PWL.t)
| Disc (f : DF.t).

Definition view (h : store) (r : oref) : option profile :=
  match nth_error (objects h) r with
  | Some (PwcObj x y) =>
      match nth_error (arrays h) x, nth_error (arrays h) y with
      | Some vx, Some vy => Some (Pwc (PWC.mk vx vy))
      | _, _ => None
      end
  | Some (PwlObj x y1 y2) =>
      match nth_error (arrays h) x, nth_error (arrays h) y1,
            nth_error (arrays h) y2 with
      | Some vx, Some v1, Some v2 => Some (Pwl (PWL.mk vx v1 v2))
      | _, _, _ => None
      end
  | Some (DiscObj x y mp) =>
      match nth_error (arrays h) x, nth_error (arrays h) y,
            nth_error (arrays h) mp with
      | Some vx, Some vy, Some vm => Some (Disc (DF.mk vx vy vm))
      | _, _, _ => None
      end
  | None => None
  end.

Definition profile_x (p : profile) : list Q :=
  match p with
  | Pwc f => PWC.x f
  | Pwl f => PWL.x f
  | Disc f => DF.x f
  end.

Definition profile_y (p : profile) : result (list Q) :=
  match p with
  | Pwc f => Ok (PWC.y f)
  | Disc f => Ok (DF.y f)
  | Pwl _ => Err AttributeError
  end.

Definition profile_y1 (p : profile) : result (list Q) :=
  match p with
  | Pwl f => Ok (PWL.y1 f)
  | _ => Err AttributeError
  end.

Definition profile_y2 (p : profile) : result (list Q) :=
  match p with
  | Pwl f => Ok (PWL.y2 f)
  | _ => Err AttributeError
  end.

Definition profile_mp (p : profile) : result (list Q) :=
  match p with
  | Disc f => Ok (DF.mp f)
  | _ => Err AttributeError
  end.

(** The sum of two profiles, as [self.add(f)] leaves it in [self]. *)
Definition add_profile (B : backend) (self f : profile) : result profile :=
  _ <- same_interval (profile_x self) (profile_x f) ;;
  match self with
  | Pwc s =>
      fy <- profile_y f ;;
      r <- add_piece_wise_const_impl B (PWC.x s) (PWC.y s) (profile_x f) fy ;;
      Ok (Pwc (PWC.mk (fst r) (snd r)))
  | Pwl s =>
      f1 <- profile_y1 f ;;
      f2 <- profile_y2 f ;;
      r <- add_piece_wise_lin_impl B (PWL.x s) (PWL.y1 s) (PWL.y2 s)
             (profile_x f) f1 f2 ;;
      Ok (Pwl (PWL.mk (fst (fst r)) (snd (fst r)) (snd r)))
  | Disc s =>
      fy <- profile_y f ;;
      fm <- profile_mp f ;;
      r <- add_discrete_function_impl B (DF.x s) (DF.y s) (DF.mp s)
             (profile_x f) fy fm ;;
      Ok (Disc (DF.mk (fst (fst r)) (snd (fst r)) (snd r)))
  end.

Definition scale (fac : Q) (l : list Q) : list Q := map (fun v => v * fac) l.

Definition mul_scalar_profile (fac : Q) (p : profile) : profile :=
  match p with
  | Pwc f => Pwc (PWC.mk (PWC.x f) (scale fac (PWC.y f)))
  | Pwl f => Pwl (PWL.mk (PWL.x f) (scale fac (PWL.y1 f)) (scale fac (PWL.y2 f)))
  | Disc f => Disc (DF.mk (DF.x f) (scale fac (DF.y f)) (DF.mp f))
  end.

(** Folding profiles into an accumulator, left to right. *)
Fixpoint fold_add (B : backend) (acc : profile) (rest : list profile)
  : result profile :=
  match rest with
  | [] => Ok acc
  | q :: rest' => acc' <- add_profile B acc q ;; fold_add B acc' rest'
  end.

(** The arrays an object refers to. *)
Definition object_refs (o : object) : list aref :=
  match o with
  | PwcObj x y => [x; y]
  | PwlObj x y1 y2 => [x; y1; y2]
  | DiscObj x y mp => [x; y; mp]
  end.

(** The arrays that [mul_scalar] writes to. *)
Definition value_refs (o : object) : list aref :=
  match o with
  | PwcObj _ y => [y]
  | PwlObj _ y1 y2 => [y1; y2]
  | DiscObj _ y _ => [y]
  end.

(** The attributes of [o] refer to arrays allocated one after the other
    from [b] on. *)
Definition consecutive (o : object) (b : aref) : Prop :=
  match o with
  | PwcObj x y => x = b /\ y = S b
  | PwlObj x y1 y2 => x = b /\ y1 = S b /\ y2 = S (S b)
  | DiscObj x y mp => x = b /\ y = S b /\ mp = S (S b)
  end.

(** Every array and object of [h] is in [h'], at the same place and with
    the same contents. *)
Definition extends (h h' : store) : Prop :=
  (forall r a, nth_error (arrays h) r = Some a ->
               nth_error (arrays h') r = Some a) /\
  (forall r o, nth_error (objects h) r = Some o ->
               nth_error (objects h') r = Some o).

(** [c] is an object made after [h0]: the store [h] holds everything of
    [h0] unchanged, then [c], whose arrays were all allocated after [h0]
    and which denotes [p]. *)
Definition owned (h0 h : store) (c : oref) (p : profile) : Prop :=
  c = length (objects h0) /\
  (forall r a, nth_error (arrays h0) r = Some a ->
               nth_error (arrays h) r = Some a) /\
  (exists o b, objects h = objects h0 ++ [o] /\ consecutive o b /\
               (length (arrays h0) <= b)%nat) /\
  view h c = Some p.

(** Two stored constant functions, A and B of the merge scenario. *)
Definition store_AB : store :=
  mkStore [[0; 1; 2; 3]; [1; 2; 3]; [0; 1; 2; 3]; [5; 0; 1]]
          [PwcObj 0%nat 1%nat; PwcObj 2%nat 3%nat].

(** ** Specification-side notions *)

(** Breakpoints are strictly increasing. *)
Fixpoint strictly_increasing (x : list Q) : bool :=
  match x with
  | [] => true
  | h :: t =>
      match t with
      | [] => true
      | h' :: _ => Qlt_bool h h' && strictly_increasing t
      end
  end.

(** [sum_range g lo n] is the sum of [g i] for [lo <= i < lo + n]. *)
Fixpoint sum_range (g : nat -> Q) (lo n : nat) : Q :=
  match n with
  | O => 0
  | S n' => g lo + sum_range g (S lo) n'
  end.

(** Sum of a list, from the right. *)
Fixpoint Qsum (l : list Q) : Q :=
  match l with
  | [] => 0
  | h :: t => h + Qsum t
  end.

(** Sum of values that may be non-finite. *)
Fixpoint nsum (l : list num) : num :=
  match l with
  | [] => Some 0
  | h :: t => nadd h (nsum t)
  end.

(** The length [b - a] of an interval pair [(a, b)]. *)
Definition ival_length (iv : Q * Q) : Q := snd iv - fst iv.

(** The sum of the entries of [l] selected by a pair of located indices. *)
Definition selected_sum (l : list Q) (ie : Z * Z) : Q :=
  Qsum (slice l (Some (fst ie)) (Some (snd ie))).

(** Expansion of one side of the averaging window.  [nbrs] lists the
    neighbours of the point as pairs [(y, mp)], nearest first; [acc] is
    the multiplicity gathered on this side so far, the multiplicity of the
    point itself included.  A neighbour is taken whole while the gathered
    multiplicity stays below [expected_mp]; the neighbour that reaches it
    is taken by the fraction still missing and ends the side, and so does
    the end of the array.  The result is the value gathered from the
    neighbours and the multiplicity reached. *)
Fixpoint expand (expected_mp : Q) (nbrs : list (Q * Q)) (acc : Q)
  : num * Q :=
  match nbrs with
  | [] => (Some 0, acc)
  | (yj, mj) :: rest =>
      if Qlt_bool (acc + mj) expected_mp then
        let r := expand expected_mp rest (acc + mj) in
        (nadd (Some yj) (fst r), snd r)
      else (fdiv (yj * (expected_mp - acc)) mj, expected_mp)
  end.

(** The value and the multiplicity at index [j]. *)
Definition point_at (f : DF.t) (j : nat) : Q * Q :=
  (nth j (DF.y f) 0, nth j (DF.mp f) 0).

(** The smoothed value at point [i] for a target multiplicity. *)
Definition smoothed (expected_mp : Q) (f : DF.t) (i : nat) : num :=
  let pts := combine (DF.y f) (DF.mp f) in
  let yi := nth i (DF.y f) 0 in
  let mi := nth i (DF.mp f) 0 in
  if Qle_bool expected_mp mi then fdiv yi mi
  else
    let r := expand expected_mp (skipn (S i) pts) mi in
    let l := expand expected_mp (rev (firstn i pts)) mi in
    ndiv (nadd (nadd (Some yi) (fst r)) (fst l)) (snd l + snd r - mi).

(** A discrete function whose first multiplicity is not a whole number. *)
Definition disc_H : DF.t :=
  DF.mk [0; 1; 2] [3 # 2; 3; 6] [3 # 2; 3 # 2; 3 # 2].

(** [l] without its first and its last entry. *)
Definition interior {A : Type} (l : list A) : list A := removelast (tl l).

(** The constant function of the concrete scenarios: [x=[0,1,2,3]],
    [y=[1,2,3]]. *)
Definition pwc_A : PWC.t := PWC.mk [0; 1; 2; 3] [1; 2; 3].

(** The constant function B of the merge scenario: [y=[5,0,1]]. *)
Definition pwc_B : PWC.t := PWC.mk [0; 1; 2; 3] [5; 0; 1].

(** A linear function on the same breakpoints: the identity, [f(t) = t]. *)
Definition pwl_L : PWL.t := PWL.mk [0; 1; 2; 3] [0; 1; 2] [1; 2; 3].

(** The discrete function of the smoothing scenario. *)
Definition disc_D : DF.t :=
  DF.mk [0; 1; 2; 3; 4] [0; 1; 1; 1; 0] [1; 1; 1; 1; 1].

(** ** Notions for the further results *)

(** The length of the part of the interval [[xl, xr]] inside [[a, b]]. *)
Definition overlap (xl xr a b : Q) : Q :=
  let l := if Qle_bool xl a then a else xl in
  let r := if Qle_bool b xr then b else xr in
  if Qle_bool l r then r - l else 0.

(** The integral over [[a, b]] of the step function that takes the value
    [y[i]] on the interval from [x[i]] to [x[i+1]]. *)
Definition step_integral (f : PWC.t) (a b : Q) : Q :=
  sum_range
    (fun i => nth i (PWC.y f) 0
              * overlap (nth i (PWC.x f) 0) (nth (S i) (PWC.x f) 0) a b)
    0 (length (PWC.y f)).



(** The point [p = (x, v)] has its coordinate strictly between [a] and
    [b]. *)
Definition strictly_inside (a b : Q) (p : Q * Q) : bool :=
  Qlt_bool a (fst p) && Qlt_bool (fst p) b.

(** The entries of [v] at the points of [x] strictly between [a] and
    [b]. *)
Definition inside_values (x v : list Q) (a b : Q) : list Q :=
  map snd (filter (strictly_inside a b) (combine x v)).

(** [integral(None)], whatever the kind. *)
Definition profile_integral (p : profile) : result num :=
  match p with
  | Pwc f => v <- PWC.integral f None ;; Ok (Some v)
  | Pwl f => PWL.integral f None
  | Disc f => DF.integral f INone
  end.

(** The arrays of a profile have the lengths its kind asks for. *)
Definition well_shaped (p : profile) : Prop :=
  match p with
  | Pwc f => length (PWC.x f) = S (length (PWC.y f))
  | Pwl f => length (PWL.x f) = S (length (PWL.y1 f)) /\
             length (PWL.y2 f) = length (PWL.y1 f)
  | Disc f => True
  end.

(** The two sequences taken in turn: [a0, b0, a1, b1, ...]. *)
Fixpoint interleave {A : Type} (a b : list A) : list A :=
  match a, b with
  | u :: a', v :: b' => u :: v :: interleave a' b'
  | _, _ => []
  end.

(** [q] has the value attributes that [add] on [p] reads from its
    argument: [y] for a constant function, [y1] and [y2] for a linear
    one, [y] and [mp] for a discrete one. *)
Definition has_attributes (p q : profile) : bool :=
  match p, q with
  | Pwc _, Pwc _ | Pwc _, Disc _ | Pwl _, Pwl _ | Disc _, Disc _ => true
  | _, _ => false
  end.

(** The two profiles are of the same class. *)
Definition same_kind (p q : profile) : bool :=
  match p, q with
  | Pwc _, Pwc _ | Pwl _, Pwl _ | Disc _, Disc _ => true
  | _, _ => false
  end.

(** What [self.almost_equal(other)] computes from the contents of the two
    objects, for the tolerance [eps]. *)
Definition almost_equal_profile (p q : profile) (eps : Q) : result bool :=
  match p with
  | Pwc s =>
      cx <- allclose (PWC.x s) (profile_x q) eps ;;
      if cx then fy <- profile_y q ;; allclose (PWC.y s) fy eps
      else Ok false
  | Pwl s =>
      cx <- allclose (PWL.x s) (profile_x q) eps ;;
      if cx then
        f1 <- profile_y1 q ;;
        c1 <- allclose (PWL.y1 s) f1 eps ;;
        if c1 then f2 <- profile_y2 q ;; allclose (PWL.y2 s) f2 eps
        else Ok false
      else Ok false
  | Disc s =>
      cx <- allclose (DF.x s) (profile_x q) eps ;;
      if cx then
        fy <- profile_y q ;;
        cy <- allclose (DF.y s) fy eps ;;
        if cy then fm <- profile_mp q ;; allclose (DF.mp s) fm eps
        else Ok false
      else Ok false
  end.

(** ** Results about the array primitives *)

Lemma Qlt_bool_iff (a b : Q) : Qlt_bool a b = true <-> a < b.
Proof.
  unfold Qlt_bool. rewrite negb_true_iff.
  split; intro H.
  - apply Qnot_le_lt. intro Hle. apply Qle_bool_iff in Hle. congruence.
  - destruct (Qle_bool b a) eqn:E; [|reflexivity].
    apply Qle_bool_iff in E. exfalso. apply (Qlt_not_le _ _ H E).
Qed.

Lemma Qlt_bool_false (a b : Q) : Qlt_bool a b = false <-> b <= a.
Proof.
  unfold Qlt_bool. rewrite negb_false_iff. apply Qle_bool_iff.
Qed.

Lemma fold_left_Qplus (l : list Q) (a : Q) :
  fold_left Qplus l a == a + Qsum l.
Proof.
  revert a. induction l as [|h t IH]; intro a; simpl.
  - ring.
  - rewrite IH. ring.
Qed.

Lemma np_sum_Qsum (l : list Q) : np_sum l == Qsum l.
Proof. unfold np_sum. rewrite fold_left_Qplus. ring. Qed.

Lemma slice_bound_nat (n k : nat) :
  slice_bound (Z.of_nat n) (Z.of_nat k) = Nat.min n k.
Proof.
  unfold slice_bound.
  destruct (Z.ltb_spec (Z.of_nat k) 0); lia.
Qed.

Lemma slice_nat {A : Type} (l : list A) (s e : nat) :
  (e <= length l)%nat ->
  slice l (Some (Z.of_nat s)) (Some (Z.of_nat e)) = firstn (e - s) (skipn s l).
Proof.
  intro He. unfold slice, len. rewrite !slice_bound_nat.
  destruct (Nat.le_gt_cases s (length l)) as [Hs|Hs].
  - rewrite (Nat.min_r _ s) by lia. rewrite (Nat.min_r _ e) by lia. reflexivity.
  - rewrite (Nat.min_l _ s) by lia. rewrite (Nat.min_r _ e) by lia.
    replace (e - length l)%nat with 0%nat by lia.
    replace (e - s)%nat with 0%nat by lia. reflexivity.
Qed.

Lemma firstn_skipn_S {A : Type} (d : A) (l : list A) (s n : nat) :
  (s < length l)%nat ->
  firstn (S n) (skipn s l) = nth s l d :: firstn n (skipn (S s) l).
Proof.
  revert s. induction l as [|h t IH]; intros s Hs; simpl in Hs; [lia|].
  destruct s as [|s].
  - reflexivity.
  - change (skipn (S s) (h :: t)) with (skipn s t).
    change (skipn (S (S s)) (h :: t)) with (skipn (S s) t).
    change (nth (S s) (h :: t) d) with (nth s t d).
    apply IH. lia.
Qed.

Lemma length_firstn_skipn {A : Type} (l : list A) (s n : nat) :
  (s + n <= length l)%nat -> length (firstn n (skipn s l)) = n.
Proof.
  intro H. rewrite length_firstn, length_skipn. lia.
Qed.

Lemma broadcast2_same {C : Type} (f : Q -> Q -> C) (a b : list Q) :
  length a = length b -> broadcast2 f a b = Ok (map2 f a b).
Proof.
  intro H. unfold broadcast2. rewrite H, Nat.eqb_refl. reflexivity.
Qed.

Lemma length_map2 {A B C : Type} (f : A -> B -> C) (a : list A) (b : list B) :
  length (map2 f a b) = Nat.min (length a) (length b).
Proof.
  revert b. induction a as [|u a IH]; intros [|v b]; simpl; auto.
Qed.

Lemma getitem_nat {A : Type} (d : A) (l : list A) (i : nat) :
  (i < length l)%nat -> getitem l (Z.of_nat i) = Ok (nth i l d).
Proof.
  intro H. unfold getitem.
  assert ((Z.of_nat i <? 0)%Z = false) as -> by (apply Z.ltb_ge; lia).
  assert ((Z.of_nat i <? 0)%Z = false) as -> by (apply Z.ltb_ge; lia).
  rewrite Nat2Z.id.
  destruct (nth_error l i) eqn:E.
  - rewrite (nth_error_nth _ _ d E). reflexivity.
  - apply nth_error_None in E. lia.
Qed.

Lemma getitem_out {A : Type} (l : list A) (i : nat) :
  (length l <= i)%nat -> getitem l (Z.of_nat i) = Err IndexError.
Proof.
  intro H. unfold getitem.
  assert ((Z.of_nat i <? 0)%Z = false) as -> by (apply Z.ltb_ge; lia).
  assert ((Z.of_nat i <? 0)%Z = false) as -> by (apply Z.ltb_ge; lia).
  rewrite Nat2Z.id.
  destruct (nth_error l i) eqn:E; [|reflexivity].
  assert (nth_error l i <> None) as Hn by congruence.
  apply nth_error_Some in Hn. lia.
Qed.

(** The located indices bracket the query bounds. *)

Lemma searchsorted_right_le (x : list Q) (v : Q) :
  (searchsorted_right x v <= length x)%nat.
Proof. induction x as [|h t IH]; simpl; [lia|]. destruct (Qle_bool h v); lia. Qed.

Lemma searchsorted_left_le (x : list Q) (v : Q) :
  (searchsorted_left x v <= length x)%nat.
Proof. induction x as [|h t IH]; simpl; [lia|]. destruct (Qlt_bool h v); lia. Qed.

Lemma searchsorted_right_stop (x : list Q) (v : Q) (k : nat) :
  (k < length x)%nat -> v < nth k x 0 -> (searchsorted_right x v <= k)%nat.
Proof.
  revert k. induction x as [|h t IH]; intros k Hk Hv; simpl in *; [lia|].
  destruct (Qle_bool h v) eqn:E; [|lia].
  destruct k as [|k].
  - apply Qle_bool_iff in E. exfalso. apply (Qlt_not_le _ _ Hv E).
  - apply le_n_S. apply IH; [lia|assumption].
Qed.

Lemma searchsorted_left_stop (x : list Q) (v : Q) (k : nat) :
  (k < length x)%nat -> v <= nth k x 0 -> (searchsorted_left x v <= k)%nat.
Proof.
  revert k. induction x as [|h t IH]; intros k Hk Hv; simpl in *; [lia|].
  destruct (Qlt_bool h v) eqn:E; [|lia].
  destruct k as [|k].
  - apply Qlt_bool_iff in E. exfalso. apply (Qlt_not_le _ _ E Hv).
  - apply le_n_S. apply IH; [lia|assumption].
Qed.

Lemma searchsorted_right_pos (x : list Q) (v : Q) :
  (0 < length x)%nat -> nth 0 x 0 <= v -> (0 < searchsorted_right x v)%nat.
Proof.
  destruct x as [|h t]; simpl; intros Hl Hv; [lia|].
  apply Qle_bool_iff in Hv. rewrite Hv. lia.
Qed.

Lemma searchsorted_left_pos (x : list Q) (v : Q) :
  (0 < length x)%nat -> nth 0 x 0 < v -> (0 < searchsorted_left x v)%nat.
Proof.
  destruct x as [|h t]; simpl; intros Hl Hv; [lia|].
  apply Qlt_bool_iff in Hv. rewrite Hv. lia.
Qed.

Lemma searchsorted_right_zero (x : list Q) (v : Q) :
  (0 < length x)%nat -> v < nth 0 x 0 -> searchsorted_right x v = 0%nat.
Proof.
  intros Hl Hv. pose proof (@searchsorted_right_stop x v 0%nat Hl Hv). lia.
Qed.

Lemma strictly_increasing_step (x : list Q) (i : nat) :
  strictly_increasing x = true -> (S i < length x)%nat ->
  nth i x 0 < nth (S i) x 0.
Proof.
  revert i. induction x as [|h t IH]; intros i Hs Hi; simpl in Hi; [lia|].
  destruct t as [|h' t]; simpl in Hi; [lia|].
  cbn [strictly_increasing] in Hs. apply andb_true_iff in Hs as [Hlt Ht].
  destruct i as [|i].
  - apply Qlt_bool_iff in Hlt. exact Hlt.
  - change (nth i (h' :: t) 0 < nth (S i) (h' :: t) 0).
    apply IH; [exact Ht|simpl; lia].
Qed.

Lemma fdiv_some (a b : Q) : ~ b == 0 -> fdiv a b = Some (a / b).
Proof.
  intro H. unfold fdiv. destruct (Qeq_bool b 0) eqn:E; [|reflexivity].
  apply Qeq_bool_iff in E. contradiction.
Qed.

Lemma fdiv_none (a b : Q) : b == 0 -> fdiv a b = None.
Proof.
  intro H. unfold fdiv. apply Qeq_bool_iff in H. rewrite H. reflexivity.
Qed.

(** Located indices of a query inside the domain. *)
Lemma located_indices (x : list Q) (a b : Q) (N : nat) :
  length x = S N ->
  nth 0 x 0 <= a -> a < nth N x 0 -> nth 0 x 0 < b -> b <= nth N x 0 ->
  (1 <= searchsorted_right x a <= N)%nat /\
  (1 <= searchsorted_left x b <= N)%nat.
Proof.
  intros Hl Ha0 HaN Hb0 HbN.
  pose proof (@searchsorted_right_pos x a ltac:(lia) Ha0).
  pose proof (@searchsorted_left_pos x b ltac:(lia) Hb0).
  pose proof (@searchsorted_right_stop x a N ltac:(lia) HaN).
  pose proof (@searchsorted_left_stop x b N ltac:(lia) HbN).
  lia.
Qed.

(** ** Integrals over a sub-interval *)

Lemma Qsum_const_steps (xs ys : list Q) (s n : nat) :
  (s + n < length xs)%nat -> (s + n <= length ys)%nat ->
  Qsum (map2 Qmult
          (map2 Qminus (firstn n (skipn (S s) xs)) (firstn n (skipn s xs)))
          (firstn n (skipn s ys)))
  == sum_range (fun i => (nth (S i) xs 0 - nth i xs 0) * nth i ys 0) s n.
Proof.
  revert s. induction n as [|n IH]; intros s Hx Hy.
  - reflexivity.
  - rewrite (firstn_skipn_S 0 xs (s:=S s) n) by lia.
    rewrite (firstn_skipn_S 0 xs (s:=s) n) by lia.
    rewrite (firstn_skipn_S 0 ys (s:=s) n) by lia.
    simpl map2. simpl Qsum. simpl sum_range.
    specialize (IH (S s) ltac:(lia) ltac:(lia)). rewrite IH. reflexivity.
Qed.

Lemma Qsum_trapezoids (xs u w : list Q) (s n : nat) :
  (s + n < length xs)%nat -> (s + n <= length u)%nat ->
  (s + n <= length w)%nat ->
  Qsum (map2 Qmult
          (map (fun v => v * (1 # 2))
             (map2 Qminus (firstn n (skipn (S s) xs)) (firstn n (skipn s xs))))
          (map2 Qplus (firstn n (skipn s u)) (firstn n (skipn s w))))
  == sum_range
       (fun i => (nth (S i) xs 0 - nth i xs 0) * (1 # 2)
                 * (nth i u 0 + nth i w 0)) s n.
Proof.
  revert s. induction n as [|n IH]; intros s Hx Hu Hw.
  - reflexivity.
  - rewrite (firstn_skipn_S 0 xs (s:=S s) n) by lia.
    rewrite (firstn_skipn_S 0 xs (s:=s) n) by lia.
    rewrite (firstn_skipn_S 0 u (s:=s) n) by lia.
    rewrite (firstn_skipn_S 0 w (s:=s) n) by lia.
    simpl map2. simpl map. simpl map2. simpl Qsum. simpl sum_range.
    specialize (IH (S s) ltac:(lia) ltac:(lia) ltac:(lia)).
    rewrite IH. reflexivity.
Qed.

(** C1 (amended): for a piece-wise constant function with strictly
    increasing breakpoints [x] (length N+1) and values [y] (length N), and
    a query [a <= b] with [x[0] <= a < x[N]] and [x[0] < b <= x[N]],
    [integral([a,b])] returns the sum over the fully covered intervals
    [start_ind <= i < end_ind] of [(x[i+1]-x[i])*y[i]], plus
    [(x[start_ind]-a)*y[start_ind-1]] and [(b-x[end_ind])*y[end_ind]]. *)
Theorem pwc_integral_interval (f : PWC.t) (a b : Q) (N : nat) :
  strictly_increasing (PWC.x f) = true ->
  length (PWC.x f) = S N -> length (PWC.y f) = N ->
  nth 0 (PWC.x f) 0 <= a -> a < nth N (PWC.x f) 0 ->
  nth 0 (PWC.x f) 0 < b -> b <= nth N (PWC.x f) 0 ->
  a <= b ->
  let start_ind := searchsorted_right (PWC.x f) a in
  let end_ind := (searchsorted_left (PWC.x f) b - 1)%nat in
  exists v,
    PWC.integral f (Some (a, b)) = Ok v /\
    v == sum_range
           (fun i => (nth (S i) (PWC.x f) 0 - nth i (PWC.x f) 0)
                     * nth i (PWC.y f) 0)
           start_ind (end_ind - start_ind)
         + (nth start_ind (PWC.x f) 0 - a) * nth (start_ind - 1) (PWC.y f) 0
         + (b - nth end_ind (PWC.x f) 0) * nth end_ind (PWC.y f) 0.
Proof.
  intros _ Hlx Hly Ha0 HaN Hb0 HbN _ start_ind end_ind.
  destruct f as [x y]; simpl in *.
  destruct (located_indices x Hlx Ha0 HaN Hb0 HbN) as [Hs He].
  fold start_ind in Hs.
  assert (Z.of_nat (searchsorted_left x b) - 1 = Z.of_nat end_ind)%Z as Hend
    by (unfold end_ind; lia).
  assert (end_ind < N)%nat as He' by (unfold end_ind; lia).
  unfold PWC.integral; simpl. fold start_ind. rewrite Hend.
  assert ((0 <? Z.of_nat start_ind)%Z = true) as -> by (apply Z.ltb_lt; lia).
  assert ((Z.of_nat end_ind <? len x)%Z = true) as ->
    by (apply Z.ltb_lt; unfold len; lia).
  simpl. clearbody start_ind end_ind.
  replace (Z.of_nat start_ind + 1)%Z with (Z.of_nat (S start_ind)) by lia.
  replace (Z.of_nat end_ind + 1)%Z with (Z.of_nat (S end_ind)) by lia.
  replace (Z.of_nat start_ind - 1)%Z with (Z.of_nat (start_ind - 1)) by lia.
  rewrite !slice_nat by lia. simpl Nat.sub.
  remember (end_ind - start_ind)%nat as n eqn:Hn.
  rewrite (getitem_nat 0 x (i:=start_ind)) by lia.
  rewrite (getitem_nat 0 y (i:=(start_ind - 1)%nat)) by lia.
  rewrite (getitem_nat 0 x (i:=end_ind)) by lia.
  rewrite (getitem_nat 0 y (i:=end_ind)) by lia.
  destruct (Nat.le_gt_cases start_ind end_ind) as [Hle|Hgt].
  - rewrite broadcast2_same
      by (rewrite !length_firstn_skipn by lia; reflexivity).
    cbn [bind]. rewrite broadcast2_same
      by (rewrite length_map2, !length_firstn_skipn by lia; lia).
    cbn [bind]. eexists; split; [reflexivity|].
    rewrite np_sum_Qsum.
    pose proof (@Qsum_const_steps x y start_ind n ltac:(lia) ltac:(lia)) as Hsum.
    rewrite Hsum. reflexivity.
  - replace n with 0%nat by lia.
    cbn [firstn broadcast2 length Nat.eqb map2 bind].
    eexists; split; [reflexivity|]. reflexivity.
Qed.

(** The sub-interval scenario: the integral over [[0.5, 2.5]] is 4. *)
Lemma pwc_integral_interval_witness :
  exists v, PWC.integral pwc_A (Some (1 # 2, 5 # 2)) = Ok v /\ v == 4.
Proof.
  destruct (@pwc_integral_interval pwc_A (1 # 2) (5 # 2) 3%nat)
    as [v [Hv Heq]]; try reflexivity; try (vm_compute; congruence).
  exists v. split; [exact Hv|]. rewrite Heq. vm_compute. reflexivity.
Defined.

(** C1 (as stated) fails: on [x=[0,1,2,3]], [y=[1,2,3]] the integral over
    [[0.5, 2.5]] is 4, not 3.5; and the query [[3, 3]], which lies inside
    the domain, raises an index error instead of returning a value. *)
Lemma pwc_integral_counterexample :
  ~ (exists v, PWC.integral pwc_A (Some (1 # 2, 5 # 2)) = Ok v /\ v == 7 # 2)
  /\ PWC.integral pwc_A (Some (3, 3)) = Err IndexError.
Proof.
  split.
  - intros [v [Hv Heq]]. vm_compute in Hv. injection Hv as <-.
    vm_compute in Heq. discriminate.
  - vm_compute. reflexivity.
Qed.
(** The sub-interval integral of a piece-wise linear function, away from
    the zero-width queries at the two ends of the domain: for strictly
    increasing breakpoints and a query [a <= b] with [x[0] <= a < x[N]]
    and [x[0] < b <= x[N]], [integral([a,b])] sums the fully covered
    intervals
    by the trapezoid formula [(x[i+1]-x[i])*0.5*(y1[i]+y2[i])]; at the left
    edge it adds, over the width [x[start_ind]-a], the mean of the right
    endpoint value of the containing interval and of its value
    interpolated at [a]; at the right edge, over the width
    [b-x[end_ind]], the mean of the left endpoint value of the containing
    interval and of its value interpolated at [b]. *)
Theorem pwl_integral_interval (f : PWL.t) (a b : Q) (N : nat) :
  strictly_increasing (PWL.x f) = true ->
  length (PWL.x f) = S N -> length (PWL.y1 f) = N -> length (PWL.y2 f) = N ->
  nth 0 (PWL.x f) 0 <= a -> a < nth N (PWL.x f) 0 ->
  nth 0 (PWL.x f) 0 < b -> b <= nth N (PWL.x f) 0 ->
  a <= b ->
  let x := PWL.x f in
  let y1 := PWL.y1 f in
  let y2 := PWL.y2 f in
  let start_ind := searchsorted_right x a in
  let end_ind := (searchsorted_left x b - 1)%nat in
  exists v,
    PWL.integral f (Some (a, b)) = Ok (Some v) /\
    v == sum_range
           (fun i => (nth (S i) x 0 - nth i x 0) * (1 # 2)
                     * (nth i y1 0 + nth i y2 0))
           start_ind (end_ind - start_ind)
         + (nth start_ind x 0 - a) * (1 # 2)
           * (nth (start_ind - 1) y2 0
              + interpolate (nth (start_ind - 1) x 0) (nth start_ind x 0)
                  (nth (start_ind - 1) y1 0) (nth (start_ind - 1) y2 0) a)
         + (b - nth end_ind x 0) * (1 # 2)
           * (nth end_ind y1 0
              + interpolate (nth end_ind x 0) (nth (S end_ind) x 0)
                  (nth end_ind y1 0) (nth end_ind y2 0) b).
Proof.
  intros Hinc Hlx Hl1 Hl2 Ha0 HaN Hb0 HbN _ x0 y10 y20 start_ind end_ind.
  subst x0 y10 y20. destruct f as [x y1 y2]; cbn [PWL.x PWL.y1 PWL.y2] in *.
  destruct (located_indices x Hlx Ha0 HaN Hb0 HbN) as [Hs He].
  fold start_ind in Hs.
  assert (Z.of_nat (searchsorted_left x b) - 1 = Z.of_nat end_ind)%Z as Hend
    by (unfold end_ind; lia).
  assert (end_ind < N)%nat as He' by (unfold end_ind; lia).
  unfold PWL.integral; cbn [PWL.x PWL.y1 PWL.y2]. fold start_ind. rewrite Hend.
  assert ((0 <? Z.of_nat start_ind)%Z = true) as -> by (apply Z.ltb_lt; lia).
  assert ((Z.of_nat end_ind <? len x)%Z = true) as ->
    by (apply Z.ltb_lt; unfold len; lia).
  cbn [andb]. clearbody start_ind end_ind.
  replace (Z.of_nat start_ind + 1)%Z with (Z.of_nat (S start_ind)) by lia.
  replace (Z.of_nat end_ind + 1)%Z with (Z.of_nat (S end_ind)) by lia.
  replace (Z.of_nat start_ind - 1)%Z with (Z.of_nat (start_ind - 1)) by lia.
  rewrite !slice_nat by lia. simpl Nat.sub.
  remember (end_ind - start_ind)%nat as n eqn:Hn.
  rewrite !(getitem_nat 0 x (i:=start_ind)) by lia.
  rewrite !(getitem_nat 0 x (i:=(start_ind - 1)%nat)) by lia.
  rewrite !(getitem_nat 0 y1 (i:=(start_ind - 1)%nat)) by lia.
  rewrite !(getitem_nat 0 y2 (i:=(start_ind - 1)%nat)) by lia.
  rewrite !(getitem_nat 0 x (i:=end_ind)) by lia.
  rewrite !(getitem_nat 0 x (i:=S end_ind)) by lia.
  rewrite !(getitem_nat 0 y1 (i:=end_ind)) by lia.
  rewrite !(getitem_nat 0 y2 (i:=end_ind)) by lia.
  assert (~ nth start_ind x 0 - nth (start_ind - 1) x 0 == 0) as Hd1.
  { pose proof (@strictly_increasing_step x (start_ind - 1) Hinc ltac:(lia)) as H.
    replace (S (start_ind - 1)) with start_ind in H by lia. lra. }
  assert (~ nth (S end_ind) x 0 - nth end_ind x 0 == 0) as Hd2.
  { pose proof (@strictly_increasing_step x end_ind Hinc ltac:(lia)) as H. lra. }
  unfold PWL.intermediate_value.
  destruct (Nat.le_gt_cases start_ind end_ind) as [Hle|Hgt].
  - rewrite broadcast2_same
      by (rewrite !length_firstn_skipn by lia; reflexivity).
    cbn [bind]. rewrite (broadcast2_same Qplus)
      by (rewrite !length_firstn_skipn by lia; reflexivity).
    cbn [bind]. rewrite broadcast2_same
      by (rewrite length_map, !length_map2, !length_firstn_skipn by lia; lia).
    cbn [bind]. rewrite (fdiv_some _ Hd1), (fdiv_some _ Hd2). cbn [nadd nmul].
    eexists; split; [reflexivity|].
    rewrite np_sum_Qsum.
    pose proof (@Qsum_trapezoids x y1 y2 start_ind n
                  ltac:(lia) ltac:(lia) ltac:(lia)) as Hsum.
    rewrite Hsum. reflexivity.
  - replace n with 0%nat by lia.
    cbn [firstn broadcast2 length Nat.eqb map2 map bind].
    rewrite (fdiv_some _ Hd1), (fdiv_some _ Hd2). cbn [nadd nmul].
    eexists; split; [reflexivity|]. reflexivity.
Qed.

(** The identity integrated over [[0.5, 2.5]] gives 3. *)
Lemma pwl_integral_interval_witness :
  exists v, PWL.integral pwl_L (Some (1 # 2, 5 # 2)) = Ok (Some v) /\ v == 3.
Proof.
  destruct (@pwl_integral_interval pwl_L (1 # 2) (5 # 2) 3%nat)
    as [v [Hv Heq]]; try reflexivity; try (vm_compute; congruence).
  exists v. split; [exact Hv|]. rewrite Heq. vm_compute. reflexivity.
Defined.

(** C4 (the code departs from it at the end of the domain): on the
    breakpoints [[0,1,2,3]] the query [[3, 3]] lies inside the domain, yet
    [start_ind] is [len(x)] and the call raises an index error at
    [x[start_ind]] instead of returning the integral. *)
Theorem pwl_integral_domain_end :
  PWL.integral pwl_L (Some (3, 3)) = Err IndexError.
Proof. vm_compute. reflexivity. Qed.
Lemma strictly_increasing_lt (x : list Q) (i j : nat) :
  strictly_increasing x = true -> (i < j)%nat -> (j < length x)%nat ->
  nth i x 0 < nth j x 0.
Proof.
  intros Hs Hij Hj. induction j as [|j IH]; [lia|].
  destruct (Nat.eq_dec i j) as [->|Hne].
  - apply strictly_increasing_step; assumption.
  - apply Qlt_trans with (nth j x 0).
    + apply IH; lia.
    + apply strictly_increasing_step; assumption.
Qed.

Lemma searchsorted_left_all (x : list Q) (v : Q) :
  (forall k, (k < length x)%nat -> nth k x 0 < v) ->
  searchsorted_left x v = length x.
Proof.
  induction x as [|h t IH]; intro H; simpl; [reflexivity|].
  assert (Qlt_bool h v = true) as ->
    by (apply Qlt_bool_iff; apply (H 0%nat); simpl; lia).
  f_equal. apply IH. intros k Hk. apply (H (S k)). simpl. lia.
Qed.

Lemma searchsorted_left_beyond (x : list Q) (v : Q) (N : nat) :
  strictly_increasing x = true -> length x = S N -> nth N x 0 < v ->
  searchsorted_left x v = S N.
Proof.
  intros Hs Hl Hv. rewrite <- Hl. apply searchsorted_left_all.
  intros k Hk. destruct (Nat.eq_dec k N) as [->|Hne]; [exact Hv|].
  apply Qlt_trans with (nth N x 0); [|exact Hv].
  apply strictly_increasing_lt; [exact Hs|lia|lia].
Qed.

Lemma slice_past_end {A : Type} (l : list A) (s e : nat) :
  (length l < s)%nat -> (e <= length l)%nat ->
  slice l (Some (Z.of_nat s)) (Some (Z.of_nat e)) = [].
Proof.
  intros Hs He. rewrite slice_nat by exact He.
  replace (e - s)%nat with 0%nat by lia. reflexivity.
Qed.

(** ** Queries reaching beyond the domain *)

(** A left bound before the first breakpoint trips the assertion. *)
Lemma pwc_integral_left_outside (f : PWC.t) (a b : Q) :
  (0 < length (PWC.x f))%nat -> a < nth 0 (PWC.x f) 0 ->
  PWC.integral f (Some (a, b)) = Err (AssertionError InvalidAveragingInterval).
Proof.
  intros Hl Ha. unfold PWC.integral.
  rewrite (searchsorted_right_zero (PWC.x f) Hl Ha). reflexivity.
Qed.

(** The three kinds on a right bound beyond the last breakpoint: only the
    discrete function answers with the assertion. *)
Lemma integral_beyond_right_bound_kinds :
  PWC.integral pwc_A (Some (1 # 2, 7 # 2)) = Err IndexError /\
  PWL.integral pwl_L (Some (1 # 2, 7 # 2)) = Err IndexError /\
  (DF.integral disc_D (IPair (1 # 2) (9 # 2))
   = Err (AssertionError InvalidAveragingInterval)).
Proof. repeat split; vm_compute; reflexivity. Qed.

(** C2 (the code departs from it): for a piece-wise constant function, a
    query whose left bound is inside the domain and whose right bound [b]
    is greater than the last breakpoint passes the assertion
    [end_ind < len(x)] and fails with an index error at [y[end_ind]], not
    with the out-of-domain assertion. *)
Theorem pwc_integral_right_overrun (f : PWC.t) (a b : Q) (N : nat) :
  strictly_increasing (PWC.x f) = true ->
  length (PWC.x f) = S N -> length (PWC.y f) = N ->
  nth 0 (PWC.x f) 0 <= a -> nth N (PWC.x f) 0 < b ->
  PWC.integral f (Some (a, b)) = Err IndexError.
Proof.
  intros Hinc Hlx Hly Ha Hb. destruct f as [x y]; cbn [PWC.x PWC.y] in *.
  unfold PWC.integral; cbn [PWC.x PWC.y].
  rewrite (searchsorted_left_beyond x Hinc Hlx Hb).
  pose proof (@searchsorted_right_pos x a ltac:(lia) Ha) as Hs.
  pose proof (searchsorted_right_le x a) as Hs'.
  remember (searchsorted_right x a) as s eqn:Es. clear Es.
  replace (Z.of_nat (S N) - 1)%Z with (Z.of_nat N) by lia.
  assert ((0 <? Z.of_nat s)%Z = true) as -> by (apply Z.ltb_lt; lia).
  assert ((Z.of_nat N <? len x)%Z = true) as ->
    by (apply Z.ltb_lt; unfold len; lia).
  cbn [andb].
  replace (Z.of_nat s + 1)%Z with (Z.of_nat (S s)) by lia.
  replace (Z.of_nat N + 1)%Z with (Z.of_nat (S N)) by lia.
  replace (Z.of_nat s - 1)%Z with (Z.of_nat (s - 1)) by lia.
  rewrite !slice_nat by lia. simpl Nat.sub.
  rewrite (getitem_out y (i:=N)) by lia.
  destruct (Nat.eq_dec s (S N)) as [->|Hne].
  - replace (N - S N)%nat with 0%nat by lia.
    cbn [firstn broadcast2 length Nat.eqb map2 bind].
    rewrite (getitem_out x (i:=S N)) by lia. reflexivity.
  - rewrite broadcast2_same
      by (rewrite !length_firstn_skipn by lia; reflexivity).
    cbn [bind]. rewrite broadcast2_same
      by (rewrite length_map2, !length_firstn_skipn by lia; lia).
    cbn [bind].
    rewrite (getitem_nat 0 x (i:=s)) by lia.
    rewrite (getitem_nat 0 y (i:=(s - 1)%nat)) by lia.
    rewrite (getitem_nat 0 x (i:=N)) by lia.
    reflexivity.
Qed.

(** The query [[0.5, 3.5]] on the breakpoints [[0,1,2,3]]. *)
Lemma pwc_integral_right_overrun_witness :
  PWC.integral pwc_A (Some (1 # 2, 7 # 2)) = Err IndexError.
Proof.
  apply (@pwc_integral_right_overrun pwc_A (1 # 2) (7 # 2) 3%nat);
    try reflexivity; vm_compute; congruence.
Defined.

(** ** Whole-domain integral and average *)

Lemma length_slice_tail {A : Type} (l : list A) :
  length (slice l (Some 1%Z) None) = (length l - 1)%nat.
Proof.
  unfold slice, len. change 1%Z with (Z.of_nat 1). rewrite slice_bound_nat.
  rewrite length_firstn, length_skipn. lia.
Qed.

Lemma length_slice_init {A : Type} (l : list A) :
  length (slice l None (Some (-1)%Z)) = (length l - 1)%nat.
Proof.
  unfold slice, len, slice_bound. cbn [Z.ltb Z.compare].
  rewrite length_firstn. cbn [skipn]. lia.
Qed.

Lemma getitem_last (l : list Q) (N : nat) :
  length l = S N -> getitem l (-1)%Z = Ok (nth N l 0).
Proof.
  intro H. unfold getitem, len. cbn [Z.ltb Z.compare]. rewrite H.
  assert ((-1 + Z.of_nat (S N) <? 0)%Z = false) as -> by (apply Z.ltb_ge; lia).
  replace (Z.to_nat (-1 + Z.of_nat (S N))) with N by lia.
  destruct (nth_error l N) eqn:E.
  - rewrite (nth_error_nth _ _ 0 E). reflexivity.
  - apply nth_error_None in E. lia.
Qed.

Lemma domain_length_nonzero (x : list Q) (N : nat) :
  strictly_increasing x = true -> length x = S (S N) ->
  ~ nth (S N) x 0 - nth 0 x 0 == 0.
Proof.
  intros Hs Hl.
  pose proof (@strictly_increasing_lt x 0 (S N) Hs ltac:(lia) ltac:(lia)).
  lra.
Qed.

(** C3 (amended): for every piece-wise constant and piece-wise linear
    function with strictly increasing breakpoints (at least two),
    [integral(None)] equals [avrg(None)] times the domain length
    [x[-1]-x[0]]; for a discrete function [avrg(None)] is [integral(None)]
    itself, with no factor. *)
Theorem integral_avrg_whole_domain :
  (forall (f : PWC.t) (N : nat),
      strictly_increasing (PWC.x f) = true ->
      length (PWC.x f) = S (S N) -> length (PWC.y f) = S N ->
      exists i q,
        PWC.integral f None = Ok i /\ PWC.avrg f INone = Ok (Some q) /\
        i == q * (nth (S N) (PWC.x f) 0 - nth 0 (PWC.x f) 0)) /\
  (forall (f : PWL.t) (N : nat),
      strictly_increasing (PWL.x f) = true ->
      length (PWL.x f) = S (S N) ->
      length (PWL.y1 f) = S N -> length (PWL.y2 f) = S N ->
      exists i q,
        PWL.integral f None = Ok (Some i) /\ PWL.avrg f INone = Ok (Some q) /\
        i == q * (nth (S N) (PWL.x f) 0 - nth 0 (PWL.x f) 0)) /\
  (forall f : DF.t, DF.avrg f INone = DF.integral f INone).
Proof.
  split; [|split].
  - intros [x y] N Hs Hlx Hly; cbn [PWC.x PWC.y] in *.
    pose proof (domain_length_nonzero x Hs Hlx) as Hd.
    unfold PWC.avrg, PWC.integral; cbn [PWC.x PWC.y].
    rewrite broadcast2_same
      by (rewrite length_slice_tail, length_slice_init; reflexivity).
    cbn [bind]. rewrite broadcast2_same
      by (rewrite length_map2, length_slice_tail, length_slice_init; lia).
    cbn [bind]. rewrite (getitem_last x Hlx).
    change 0%Z with (Z.of_nat 0). rewrite (getitem_nat 0 x (i:=0%nat)) by lia.
    cbn [bind]. rewrite (fdiv_some _ Hd).
    eexists; eexists; split; [reflexivity|split; [reflexivity|]].
    symmetry. rewrite Qmult_comm. apply Qmult_div_r. exact Hd.
  - intros [x y1 y2] N Hs Hlx Hl1 Hl2; cbn [PWL.x PWL.y1 PWL.y2] in *.
    pose proof (domain_length_nonzero x Hs Hlx) as Hd.
    unfold PWL.avrg, PWL.integral; cbn [PWL.x PWL.y1 PWL.y2].
    rewrite broadcast2_same
      by (rewrite length_slice_tail, length_slice_init; reflexivity).
    cbn [bind]. rewrite (broadcast2_same Qplus) by congruence.
    cbn [bind]. rewrite broadcast2_same
      by (rewrite length_map, !length_map2, length_slice_tail,
            length_slice_init; lia).
    cbn [bind]. rewrite (getitem_last x Hlx).
    change 0%Z with (Z.of_nat 0). rewrite (getitem_nat 0 x (i:=0%nat)) by lia.
    cbn [bind ndiv]. rewrite (fdiv_some _ Hd).
    eexists; eexists; split; [reflexivity|split; [reflexivity|]].
    symmetry. rewrite Qmult_comm. apply Qmult_div_r. exact Hd.
  - reflexivity.
Qed.

(** Both scenario functions have domain length 3. *)
Lemma integral_avrg_whole_domain_witness :
  (exists i q,
      PWC.integral pwc_A None = Ok i /\ PWC.avrg pwc_A INone = Ok (Some q) /\
      i == q * (3 - 0)) /\
  (exists i q,
      PWL.integral pwl_L None = Ok (Some i) /\
      PWL.avrg pwl_L INone = Ok (Some q) /\ i == q * (3 - 0)).
Proof.
  split.
  - apply (proj1 integral_avrg_whole_domain pwc_A 2%nat); reflexivity.
  - apply (proj1 (proj2 integral_avrg_whole_domain) pwl_L 2%nat); reflexivity.
Defined.

(** C3 (as stated) fails for discrete functions: on the smoothing scenario
    the integral and the average are both 1 and the domain length is 4. *)
Lemma integral_avrg_discrete_counterexample :
  ~ (exists i q,
        DF.integral disc_D INone = Ok (Some i) /\
        DF.avrg disc_D INone = Ok (Some q) /\
        i == q * (4 - 0)).
Proof.
  intros [i [q [Hi [Hq Heq]]]].
  vm_compute in Hi. vm_compute in Hq.
  injection Hi as <-. injection Hq as <-.
  vm_compute in Heq. discriminate.
Qed.

(** ** The discrete weighted mean *)

Lemma slice_interior {A : Type} (l : list A) :
  slice l (Some 1%Z) (Some (-1)%Z) = interior l.
Proof.
  unfold interior. destruct l as [|h t].
  - reflexivity.
  - unfold slice, len, slice_bound. cbn [Z.ltb Z.compare length tl].
    replace (Z.to_nat (Z.max 0 (Z.min (Z.of_nat (S (length t))) 1))) with 1%nat
      by lia.
    replace (Z.to_nat (Z.max 0 (Z.min (Z.of_nat (S (length t)))
                                  (-1 + Z.of_nat (S (length t))))))
      with (length t) by lia.
    cbn [skipn]. rewrite removelast_firstn_len.
    f_equal. lia.
Qed.

Lemma fdiv_compat (a a' b b' : Q) :
  a == a' -> b == b' -> num_eq (fdiv a b) (fdiv a' b').
Proof.
  intros Ha Hb. unfold fdiv.
  destruct (Qeq_bool b 0) eqn:E; destruct (Qeq_bool b' 0) eqn:E'; simpl.
  - exact I.
  - apply Qeq_bool_iff in E. apply Qeq_bool_neq in E'. apply E'.
    rewrite <- Hb. exact E.
  - apply Qeq_bool_iff in E'. apply Qeq_bool_neq in E. apply E.
    rewrite Hb. exact E'.
  - rewrite Ha, Hb. reflexivity.
Qed.

(** C7: for a discrete function, [integral(None)] is the sum of [y] over
    the interior points (first and last entry left out) divided by the sum
    of [mp] over the same points: a mean weighted by multiplicity. *)
Theorem discrete_integral_whole (f : DF.t) :
  exists r,
    DF.integral f INone = Ok r /\
    num_eq r (fdiv (Qsum (interior (DF.y f))) (Qsum (interior (DF.mp f)))).
Proof.
  unfold DF.integral. eexists; split; [reflexivity|].
  rewrite !slice_interior. apply fdiv_compat.
  - rewrite np_sum_Qsum. ring.
  - apply np_sum_Qsum.
Qed.

(** The values [6, 2] with multiplicities [3, 1] average to 2, not to 4. *)
Lemma discrete_integral_not_plain_mean :
  DF.integral (DF.mk [0; 1; 2; 3] [0; 6; 2; 0] [1; 3; 1; 1]) INone
  = Ok (Some (8 # 4)).
Proof. vm_compute. reflexivity. Qed.


(** ** Values that may be non-finite *)

Lemma num_eq_refl (a : num) : num_eq a a.
Proof. destruct a; simpl; [reflexivity|exact I]. Qed.

Lemma num_eq_sym (a b : num) : num_eq a b -> num_eq b a.
Proof. destruct a, b; simpl; auto. intro H. symmetry. exact H. Qed.

Lemma num_eq_trans (a b c : num) : num_eq a b -> num_eq b c -> num_eq a c.
Proof.
  destruct a, b, c; simpl; auto; try contradiction.
  intros H1 H2. rewrite H1. exact H2.
Qed.

Lemma nadd_compat (a a' b b' : num) :
  num_eq a a' -> num_eq b b' -> num_eq (nadd a b) (nadd a' b').
Proof.
  destruct a, a', b, b'; simpl; auto; try contradiction.
  intros H1 H2. rewrite H1, H2. reflexivity.
Qed.

Lemma nadd_assoc (a b c : num) :
  num_eq (nadd (nadd a b) c) (nadd a (nadd b c)).
Proof. destruct a, b, c; simpl; auto. ring. Qed.

Lemma nadd_zero_r (a : num) : num_eq (nadd a (Some 0)) a.
Proof. destruct a; simpl; auto. ring. Qed.

Lemma ndiv_compat (a a' : num) (b b' : Q) :
  num_eq a a' -> b == b' -> num_eq (ndiv a b) (ndiv a' b').
Proof.
  destruct a, a'; simpl; auto; try contradiction.
  intros. apply fdiv_compat; assumption.
Qed.

(** ** Averages over several intervals *)

Lemma pwc_avrg_loop_sums (f : PWC.t) (ivals : list (Q * Q)) (vs : list Q) :
  Forall2 (fun iv v => PWC.integral f (Some iv) = Ok v) ivals vs ->
  forall a l, exists r,
    PWC.avrg_loop f ivals a l = Ok r /\
    fst r == a + Qsum vs /\
    snd r == l + Qsum (map ival_length ivals).
Proof.
  induction 1 as [|iv v ivals vs Hv _ IH]; intros a l.
  - exists (a, l). simpl. repeat split; ring.
  - cbn [PWC.avrg_loop]. rewrite Hv. cbn [bind].
    destruct (IH (a + v) (l + (snd iv - fst iv))) as [r [Hr [H1 H2]]].
    exists r. split; [exact Hr|]. split.
    + rewrite H1. simpl. ring.
    + rewrite H2. simpl. unfold ival_length. ring.
Qed.

Lemma pwl_avrg_loop_sums (f : PWL.t) (ivals : list (Q * Q)) (vs : list num) :
  Forall2 (fun iv v => PWL.integral f (Some iv) = Ok v) ivals vs ->
  forall a l, exists r,
    PWL.avrg_loop f ivals a l = Ok r /\
    num_eq (fst r) (nadd a (nsum vs)) /\
    snd r == l + Qsum (map ival_length ivals).
Proof.
  induction 1 as [|iv v ivals vs Hv _ IH]; intros a l.
  - exists (a, l). simpl. split; [reflexivity|]. split.
    + apply num_eq_sym, nadd_zero_r.
    + ring.
  - cbn [PWL.avrg_loop]. rewrite Hv. cbn [bind].
    destruct (IH (nadd a v) (l + (snd iv - fst iv))) as [r [Hr [H1 H2]]].
    exists r. split; [exact Hr|]. split.
    + eapply num_eq_trans; [exact H1|]. apply nadd_assoc.
    + rewrite H2. simpl. unfold ival_length. ring.
Qed.

(** C6: for a piece-wise constant or piece-wise linear function and a
    non-empty sequence of interval pairs whose integrals are returned,
    [avrg(sequence)] is the sum of the integrals of the pairs divided by
    the sum of their lengths: one division over all intervals. *)
Theorem avrg_sequence_single_division :
  (forall (f : PWC.t) (ivals : list (Q * Q)) (vs : list Q),
      ivals <> [] ->
      Forall2 (fun iv v => PWC.integral f (Some iv) = Ok v) ivals vs ->
      exists r,
        PWC.avrg f (ISeq ivals) = Ok r /\
        num_eq r (fdiv (Qsum vs) (Qsum (map ival_length ivals)))) /\
  (forall (f : PWL.t) (ivals : list (Q * Q)) (vs : list num),
      ivals <> [] ->
      Forall2 (fun iv v => PWL.integral f (Some iv) = Ok v) ivals vs ->
      exists r,
        PWL.avrg f (ISeq ivals) = Ok r /\
        num_eq r (ndiv (nsum vs) (Qsum (map ival_length ivals)))).
Proof.
  split.
  - intros f ivals vs Hne H.
    destruct (@pwc_avrg_loop_sums f ivals vs H 0 0) as [r [Hr [H1 H2]]].
    destruct ivals as [|iv ivals]; [congruence|].
    unfold PWC.avrg. rewrite Hr. cbn [bind].
    eexists; split; [reflexivity|].
    apply fdiv_compat; [rewrite H1|rewrite H2]; ring.
  - intros f ivals vs Hne H.
    destruct (@pwl_avrg_loop_sums f ivals vs H (Some 0) 0) as [r [Hr [H1 H2]]].
    destruct ivals as [|iv ivals]; [congruence|].
    unfold PWL.avrg. rewrite Hr. cbn [bind].
    eexists; split; [reflexivity|].
    apply ndiv_compat.
    + eapply num_eq_trans; [exact H1|].
      destruct (nsum vs); simpl; auto. ring.
    + rewrite H2. ring.
Qed.

(** The intervals [[0,2]] and [[1,3]] on both scenario functions. *)
Lemma avrg_sequence_single_division_witness :
  (exists r,
      PWC.avrg pwc_A (ISeq [(0, 2); (1, 3)]) = Ok r /\
      num_eq r (Some 2)) /\
  (exists r,
      PWL.avrg pwl_L (ISeq [(0, 2); (1, 3)]) = Ok r /\
      num_eq r (Some (3 # 2))).
Proof.
  split.
  - edestruct (proj1 avrg_sequence_single_division pwc_A
                 [(0, 2); (1, 3)]) as [r [Hr He]].
    + discriminate.
    + constructor; [vm_compute; reflexivity|].
      constructor; [vm_compute; reflexivity|]. constructor.
    + exists r. split; [exact Hr|].
      eapply num_eq_trans; [exact He|]. vm_compute. reflexivity.
  - edestruct (proj2 avrg_sequence_single_division pwl_L
                 [(0, 2); (1, 3)]) as [r [Hr He]].
    + discriminate.
    + constructor; [vm_compute; reflexivity|].
      constructor; [vm_compute; reflexivity|]. constructor.
    + exists r. split; [exact Hr|].
      eapply num_eq_trans; [exact He|]. vm_compute. reflexivity.
Defined.

(** One division over the summed integrals and lengths: on the intervals
    [[0,2]] and [[1.5,3]] the integrals are 3 and 4 and the lengths 2 and
    1.5, so the average is 7/3.5 = 2, while the mean of the two
    per-interval averages 3/2 and 8/3 would be 25/12. *)
Lemma avrg_sequence_not_mean_of_averages :
  exists r, PWC.avrg pwc_A (ISeq [(0, 2); (3 # 2, 3)]) = Ok (Some r)
            /\ r == 2.
Proof. eexists. split; [vm_compute; reflexivity|]. vm_compute. reflexivity. Qed.

(** ** The discrete average *)

Lemma discrete_integral_loop_sums (f : DF.t) (ivals : list (Q * Q))
  (ies : list (Z * Z)) :
  Forall2 (fun iv ie => DF.get_indices f iv = Ok ie) ivals ies ->
  forall v m, exists r,
    DF.integral_loop f ivals v m = Ok r /\
    fst r == v + Qsum (map (selected_sum (DF.y f)) ies) /\
    snd r == m + Qsum (map (selected_sum (DF.mp f)) ies).
Proof.
  induction 1 as [|iv ie ivals ies Hi _ IH]; intros v m.
  - exists (v, m). simpl. split; [reflexivity|split; ring].
  - cbn [DF.integral_loop]. rewrite Hi. cbn [bind].
    destruct (IH (v + np_sum (slice (DF.y f) (Some (fst ie)) (Some (snd ie))))
                 (m + np_sum (slice (DF.mp f) (Some (fst ie)) (Some (snd ie)))))
      as [r [Hr [H1 H2]]].
    exists r. split; [exact Hr|]. split.
    + rewrite H1. cbn [map Qsum]. unfold selected_sum at 2.
      rewrite np_sum_Qsum. ring.
    + rewrite H2. cbn [map Qsum]. unfold selected_sum at 2.
      rewrite np_sum_Qsum. ring.
Qed.

(** C10: for a discrete function and every interval argument,
    [avrg(interval)] is [integral(interval)]; for a pair and for a sequence
    of pairs whose indices are located it is the sum of the selected [y]
    divided by the sum of the selected [mp], with no further division by a
    length or by the number of intervals. *)
Theorem discrete_avrg_is_integral :
  (forall (f : DF.t) (interval : interval_arg),
      DF.avrg f interval = DF.integral f interval) /\
  (forall (f : DF.t) (a b : Q) (ie : Z * Z),
      DF.get_indices f (a, b) = Ok ie ->
      exists r,
        DF.avrg f (IPair a b) = Ok r /\
        num_eq r (fdiv (selected_sum (DF.y f) ie)
                       (selected_sum (DF.mp f) ie))) /\
  (forall (f : DF.t) (ivals : list (Q * Q)) (ies : list (Z * Z)),
      ivals <> [] ->
      Forall2 (fun iv ie => DF.get_indices f iv = Ok ie) ivals ies ->
      exists r,
        DF.avrg f (ISeq ivals) = Ok r /\
        num_eq r (fdiv (Qsum (map (selected_sum (DF.y f)) ies))
                       (Qsum (map (selected_sum (DF.mp f)) ies)))).
Proof.
  split; [reflexivity|]. split.
  - intros f a b ie Hi. unfold DF.avrg, DF.integral. rewrite Hi. cbn [bind].
    eexists; split; [reflexivity|].
    unfold selected_sum. apply fdiv_compat; apply np_sum_Qsum.
  - intros f ivals ies Hne H.
    destruct (@discrete_integral_loop_sums f ivals ies H 0 0)
      as [r [Hr [H1 H2]]].
    destruct ivals as [|iv ivals]; [congruence|].
    unfold DF.avrg, DF.integral. rewrite Hr. cbn [bind].
    eexists; split; [reflexivity|].
    apply fdiv_compat; [rewrite H1|rewrite H2]; ring.
Qed.

(** A pair and a sequence of two pairs on the smoothing scenario. *)
Lemma discrete_avrg_is_integral_witness :
  (exists r, DF.avrg disc_D (IPair (1 # 2) (7 # 2)) = Ok r /\ num_eq r (Some 1))
  /\ (exists r,
         DF.avrg disc_D (ISeq [(0, 2); (2, 4)]) = Ok r /\ num_eq r (Some 1)).
Proof.
  split.
  - edestruct (proj1 (proj2 discrete_avrg_is_integral) disc_D (1 # 2) (7 # 2))
      as [r [Hr He]].
    + vm_compute. reflexivity.
    + exists r. split; [exact Hr|].
      eapply num_eq_trans; [exact He|]. vm_compute. reflexivity.
  - edestruct (proj2 (proj2 discrete_avrg_is_integral) disc_D [(0, 2); (2, 4)])
      as [r [Hr He]].
    + discriminate.
    + constructor; [vm_compute; reflexivity|].
      constructor; [vm_compute; reflexivity|]. constructor.
    + exists r. split; [exact Hr|].
      eapply num_eq_trans; [exact He|]. vm_compute. reflexivity.
Defined.

(** ** The averaging window *)

Lemma length_setitem {A : Type} (l : list A) (i : nat) (v : A) :
  length (setitem l i v) = length l.
Proof.
  revert i. induction l as [|h t IH]; intros [|i]; simpl; auto.
Qed.

Lemma nth_setitem_same {A : Type} (d : A) (l : list A) (i : nat) (v : A) :
  (i < length l)%nat -> nth i (setitem l i v) d = v.
Proof.
  revert i. induction l as [|h t IH]; intros [|i] H; simpl in *;
    try lia; auto. apply IH. lia.
Qed.

Lemma nth_setitem_other {A : Type} (d : A) (l : list A) (i j : nat) (v : A) :
  i <> j -> nth j (setitem l i v) d = nth j l d.
Proof.
  revert i j. induction l as [|h t IH]; intros [|i] [|j] H; simpl;
    try congruence; auto.
Qed.

Lemma map_nth_seq {A : Type} (d : A) (l : list A) (a k : nat) :
  (a + k <= length l)%nat ->
  map (fun j => nth j l d) (seq a k) = firstn k (skipn a l).
Proof.
  revert a. induction k as [|k IH]; intros a H.
  - reflexivity.
  - rewrite (firstn_skipn_S d l (s:=a) k) by lia.
    cbn [seq map]. f_equal. apply IH. lia.
Qed.

Section Window.

Variable f : DF.t.
Variable n : nat.
Variable E : Z.
Hypothesis Hy : length (DF.y f) = n.
Hypothesis Hmp : length (DF.mp f) = n.

Lemma point_nth (j : nat) :
  point_at f j = nth j (combine (DF.y f) (DF.mp f)) (0, 0).
Proof.
  unfold point_at. rewrite combine_nth by congruence. reflexivity.
Qed.

Lemma window_loop_expand (js : list nat) :
  (forall j, In j js -> (j < n)%nat) ->
  forall (yv : num) (m : Q), exists r,
    DF.window_loop f E js yv m = Ok r /\
    num_eq (fst r)
      (nadd yv (fst (expand (inject_Z E) (map (point_at f) js) m))) /\
    snd r == snd (expand (inject_Z E) (map (point_at f) js) m).
Proof.
  induction js as [|j js IH]; intros Hjs yv m.
  - exists (yv, m). cbn [DF.window_loop map expand fst snd].
    split; [reflexivity|]. split; [|reflexivity].
    apply num_eq_sym, nadd_zero_r.
  - assert (j < n)%nat as Hj by (apply Hjs; left; reflexivity).
    cbn [DF.window_loop map expand].
    change (point_at f j) with (nth j (DF.y f) 0, nth j (DF.mp f) 0).
    cbv iota.
    rewrite !(getitem_nat 0 (DF.mp f) (i:=j)) by lia.
    rewrite !(getitem_nat 0 (DF.y f) (i:=j)) by lia.
    cbn [bind].
    destruct (Qlt_bool (m + nth j (DF.mp f) 0) (inject_Z E)) eqn:Hlt.
    + cbn [bind].
      destruct (IH (fun k Hk => Hjs k (or_intror Hk))
                  (nadd yv (Some (nth j (DF.y f) 0)))
                  (m + nth j (DF.mp f) 0)) as [r [Hr [H1 H2]]].
      exists r. split; [exact Hr|]. cbn [fst snd]. split; [|exact H2].
      eapply num_eq_trans; [exact H1|]. apply nadd_assoc.
    + cbn [bind]. eexists. split; [reflexivity|]. cbn [fst snd].
      split; [apply num_eq_refl|ring].
Qed.

Lemma right_neighbours (i : nat) :
  (i < n)%nat ->
  map (point_at f) (seq (S i) (n - S i))
  = skipn (S i) (combine (DF.y f) (DF.mp f)).
Proof.
  intro Hi.
  rewrite (map_ext (point_at f) _ point_nth).
  rewrite map_nth_seq by (rewrite length_combine; lia).
  apply firstn_all2. rewrite length_skipn, length_combine. lia.
Qed.

Lemma left_neighbours (i : nat) :
  (i < n)%nat ->
  map (point_at f) (rev (seq 0 i)) = rev (firstn i (combine (DF.y f) (DF.mp f))).
Proof.
  intro Hi. rewrite map_rev. f_equal.
  rewrite (map_ext (point_at f) _ point_nth).
  rewrite map_nth_seq by (rewrite length_combine; lia).
  reflexivity.
Qed.

Lemma window_point_smoothed (i : nat) :
  (i < n)%nat ->
  exists v, DF.window_point f E n i = Ok v /\
            num_eq v (smoothed (inject_Z E) f i).
Proof.
  intro Hi. unfold DF.window_point, smoothed.
  rewrite !(getitem_nat 0 (DF.mp f) (i:=i)) by lia.
  rewrite !(getitem_nat 0 (DF.y f) (i:=i)) by lia.
  cbn [bind].
  destruct (Qle_bool (inject_Z E) (nth i (DF.mp f) 0)) eqn:Hle.
  - cbn [bind]. eexists. split; [reflexivity|apply num_eq_refl].
  - cbn [bind].
    destruct (@window_loop_expand (seq (S i) (n - S i))
                ltac:(intros j Hj; apply in_seq in Hj; lia)
                (Some (nth i (DF.y f) 0)) (nth i (DF.mp f) 0))
      as [r [Hr [Hr1 Hr2]]].
    rewrite Hr. cbn [bind].
    destruct (@window_loop_expand (rev (seq 0 i))
                ltac:(intros j Hj; apply in_rev, in_seq in Hj; lia)
                (fst r) (nth i (DF.mp f) 0))
      as [l [Hl [Hl1 Hl2]]].
    rewrite Hl. cbn [bind].
    rewrite (right_neighbours Hi) in Hr1, Hr2.
    rewrite (left_neighbours Hi) in Hl1, Hl2.
    eexists. split; [reflexivity|].
    apply ndiv_compat.
    + eapply num_eq_trans; [exact Hl1|].
      apply nadd_compat; [exact Hr1|apply num_eq_refl].
    + rewrite Hl2, Hr2. reflexivity.
Qed.

Lemma plot_loop_seq (k : nat) :
  forall (a : nat) (y_plot : list num),
    (a + k <= n)%nat -> length y_plot = n ->
    exists y_plot',
      DF.plot_loop f E n (seq a k) y_plot = Ok y_plot' /\
      length y_plot' = n /\
      (forall i, (i < a)%nat -> nth i y_plot' None = nth i y_plot None) /\
      (forall i, (a <= i < a + k)%nat ->
                 DF.window_point f E n i = Ok (nth i y_plot' None)).
Proof.
  induction k as [|k IH]; intros a y_plot Ha Hl.
  - exists y_plot. cbn [seq DF.plot_loop].
    split; [reflexivity|]. split; [exact Hl|]. split; [reflexivity|].
    intros i Hi. lia.
  - cbn [seq DF.plot_loop].
    destruct (@window_point_smoothed a ltac:(lia)) as [v [Hv _]].
    rewrite Hv. cbn [bind].
    destruct (IH (S a) (setitem y_plot a v) ltac:(lia)
                ltac:(rewrite length_setitem; exact Hl))
      as [y' [Hy' [Hl' [Hlow Hhigh]]]].
    exists y'. split; [exact Hy'|]. split; [exact Hl'|]. split.
    + intros i Hi. rewrite Hlow by lia.
      apply nth_setitem_other. lia.
    + intros i Hi. destruct (Nat.eq_dec i a) as [->|Hne].
      * rewrite Hlow by lia. rewrite nth_setitem_same by lia. exact Hv.
      * apply Hhigh. lia.
Qed.

End Window.

(** For a whole first multiplicity the target is [(k+1)*mp[0]]. *)
Lemma expected_mp_whole (k z : Z) :
  inject_Z ((k + 1) * py_int (inject_Z z)) == inject_Z (k + 1) * inject_Z z.
Proof.
  assert (py_int (inject_Z z) = z) as ->
    by (unfold py_int, inject_Z; cbn [Qnum Qden]; apply Z.quot_1_r).
  rewrite inject_Z_mult. reflexivity.
Qed.

(** C5 (amended): for a discrete function with at least one point and a
    window size [k > 0], [get_plottable_data] smooths with the target
    multiplicity [expected_mp = (k+1)*int(mp[0])], the first multiplicity
    truncated to an integer.  At each index [i]: if [mp[i] >= expected_mp]
    the output is [y[i]/mp[i]]; otherwise the window expands to the right
    and to the left independently, taking whole neighbours while the
    multiplicity gathered on the side stays below [expected_mp], the
    fraction [y[j]*(expected_mp - acc)/mp[j]] of the neighbour that
    reaches it, and nothing more past the end of the array; the output is
    the gathered value divided by the gathered multiplicity, the
    multiplicity of the point counted once. *)
Theorem smoothing_window (f : DF.t) (k : Z) (n : nat) :
  (0 < k)%Z -> (0 < n)%nat ->
  length (DF.x f) = n -> length (DF.y f) = n -> length (DF.mp f) = n ->
  let expected_mp := inject_Z ((k + 1) * py_int (nth 0 (DF.mp f) 0)) in
  exists y_plot,
    DF.get_plottable_data f k = Ok (map (Qmult 1) (DF.x f), y_plot) /\
    length y_plot = n /\
    forall i, (i < n)%nat ->
              num_eq (nth i y_plot None) (smoothed expected_mp f i).
Proof.
  intros Hk Hn Hx Hy Hmp expected_mp. unfold DF.get_plottable_data.
  assert ((0 <? k)%Z = true) as -> by (apply Z.ltb_lt; exact Hk).
  change (getitem (DF.mp f) 0%Z) with (getitem (DF.mp f) (Z.of_nat 0)).
  rewrite (getitem_nat 0 (DF.mp f) (i:=0%nat)) by lia. cbn [bind].
  cbv zeta. rewrite length_map, Hy.
  destruct (@plot_loop_seq f n ((k + 1) * py_int (nth 0 (DF.mp f) 0%Q))%Z
              Hy Hmp n 0%nat (map (fun _ => Some 0) (DF.y f))
              ltac:(lia) ltac:(rewrite length_map; exact Hy))
    as [y' [Hy' [Hl' [_ Hval]]]].
  rewrite Hy'. cbn [bind]. exists y'.
  split; [reflexivity|]. split; [exact Hl'|].
  intros i Hi.
  destruct (@window_point_smoothed f n ((k + 1) * py_int (nth 0 (DF.mp f) 0%Q))%Z
              Hy Hmp i Hi) as [v [Hv Hs]].
  rewrite (Hval i ltac:(lia)) in Hv. injection Hv as <-. exact Hs.
Qed.

(** The smoothing scenario: window size 1, target multiplicity 2. *)
Lemma smoothing_window_witness :
  exists y_plot,
    DF.get_plottable_data disc_D 1 = Ok (map (Qmult 1) (DF.x disc_D), y_plot) /\
    length y_plot = 5%nat /\
    forall i, (i < 5)%nat ->
              num_eq (nth i y_plot None) (smoothed (inject_Z 2) disc_D i).
Proof.
  apply (@smoothing_window disc_D 1 5%nat); try reflexivity; lia.
Defined.

(** C5 (as stated) fails when [mp[0]] is not whole: with [mp[0] = 1.5] and
    [k = 1] the code smooths towards 2, not towards 3, and the first output
    is 1.25 where the stated target gives 1.5. *)
Lemma smoothing_window_counterexample :
  ~ (exists y_plot,
        DF.get_plottable_data disc_H 1
        = Ok (map (Qmult 1) (DF.x disc_H), y_plot) /\
        forall i, (i < 3)%nat ->
                  num_eq (nth i y_plot None)
                    (smoothed (inject_Z (1 + 1) * nth 0 (DF.mp disc_H) 0)
                       disc_H i)).
Proof.
  intros [yp [Hp Hv]]. vm_compute in Hp. injection Hp as <-.
  specialize (Hv 0%nat ltac:(lia)). vm_compute in Hv. discriminate.
Qed.

(** ** The store *)

Lemma view_inv (h : store) (s : oref) (p : profile) :
  view h s = Some p ->
  match p with
  | Pwc f => exists x y,
      nth_error (objects h) s = Some (PwcObj x y) /\
      nth_error (arrays h) x = Some (PWC.x f) /\
      nth_error (arrays h) y = Some (PWC.y f)
  | Pwl f => exists x y1 y2,
      nth_error (objects h) s = Some (PwlObj x y1 y2) /\
      nth_error (arrays h) x = Some (PWL.x f) /\
      nth_error (arrays h) y1 = Some (PWL.y1 f) /\
      nth_error (arrays h) y2 = Some (PWL.y2 f)
  | Disc f => exists x y mp,
      nth_error (objects h) s = Some (DiscObj x y mp) /\
      nth_error (arrays h) x = Some (DF.x f) /\
      nth_error (arrays h) y = Some (DF.y f) /\
      nth_error (arrays h) mp = Some (DF.mp f)
  end.
Proof.
  unfold view. intro H.
  destruct (nth_error (objects h) s) as [[x y|x y1 y2|x y mp]|]; [| | |discriminate].
  - destruct (nth_error (arrays h) x) eqn:Ex; [|discriminate].
    destruct (nth_error (arrays h) y) eqn:Ey; [|discriminate].
    injection H as <-. exists x, y. auto.
  - destruct (nth_error (arrays h) x) eqn:Ex; [|discriminate].
    destruct (nth_error (arrays h) y1) eqn:E1; [|discriminate].
    destruct (nth_error (arrays h) y2) eqn:E2; [|discriminate].
    injection H as <-. exists x, y1, y2. auto.
  - destruct (nth_error (arrays h) x) eqn:Ex; [|discriminate].
    destruct (nth_error (arrays h) y) eqn:Ey; [|discriminate].
    destruct (nth_error (arrays h) mp) eqn:Em; [|discriminate].
    injection H as <-. exists x, y, mp. auto.
Qed.

(** A view depends only on the object and on the arrays it refers to. *)
Lemma view_frame (h h' : store) (s : oref) :
  nth_error (objects h') s = nth_error (objects h) s ->
  (forall o r, nth_error (objects h) s = Some o -> In r (object_refs o) ->
               nth_error (arrays h') r = nth_error (arrays h) r) ->
  view h' s = view h s.
Proof.
  intros Ho Ha. unfold view. rewrite Ho.
  destruct (nth_error (objects h) s) as [o|] eqn:E; [|reflexivity].
  specialize (Ha o). destruct o as [x y|x y1 y2|x y mp]; cbn [object_refs] in Ha.
  - rewrite (Ha x), (Ha y) by (simpl; auto). reflexivity.
  - rewrite (Ha x), (Ha y1), (Ha y2) by (simpl; auto). reflexivity.
  - rewrite (Ha x), (Ha y), (Ha mp) by (simpl; auto). reflexivity.
Qed.

Lemma view_refs_valid (h : store) (s : oref) (p : profile) (o : object) (r : aref) :
  view h s = Some p -> nth_error (objects h) s = Some o ->
  In r (object_refs o) -> (r < length (arrays h))%nat.
Proof.
  intros Hv Ho Hr. unfold view in Hv. rewrite Ho in Hv.
  destruct o as [x y|x y1 y2|x y mp]; cbn [object_refs In] in Hr.
  - destruct (nth_error (arrays h) x) eqn:Ex; [|discriminate].
    destruct (nth_error (arrays h) y) eqn:Ey; [|discriminate].
    destruct Hr as [<-|[<-|[]]]; apply nth_error_Some; congruence.
  - destruct (nth_error (arrays h) x) eqn:Ex; [|discriminate].
    destruct (nth_error (arrays h) y1) eqn:E1; [|discriminate].
    destruct (nth_error (arrays h) y2) eqn:E2; [|discriminate].
    destruct Hr as [<-|[<-|[<-|[]]]]; apply nth_error_Some; congruence.
  - destruct (nth_error (arrays h) x) eqn:Ex; [|discriminate].
    destruct (nth_error (arrays h) y) eqn:Ey; [|discriminate].
    destruct (nth_error (arrays h) mp) eqn:Em; [|discriminate].
    destruct Hr as [<-|[<-|[<-|[]]]]; apply nth_error_Some; congruence.
Qed.

Lemma view_extends (h h' : store) (s : oref) (p : profile) :
  extends h h' -> view h s = Some p -> view h' s = Some p.
Proof.
  intros [Ha Ho] Hv. rewrite <- Hv.
  destruct (nth_error (objects h) s) as [o|] eqn:Hob.
  2:{ unfold view in Hv. rewrite Hob in Hv. discriminate. }
  apply view_frame.
  - rewrite Hob. apply Ho. exact Hob.
  - intros o' r Ho' Hr. rewrite Hob in Ho'. injection Ho' as <-.
    assert (r < length (arrays h))%nat as Hlt
      by (eapply view_refs_valid; eassumption).
    destruct (nth_error (arrays h) r) as [a|] eqn:Ea.
    + apply Ha. exact Ea.
    + apply nth_error_None in Ea. lia.
Qed.

Lemma extends_refl (h : store) : extends h h.
Proof. split; auto. Qed.

Lemma extends_app (h h' : store) (ea : list (list Q)) (eo : list object) :
  arrays h' = arrays h ++ ea -> objects h' = objects h ++ eo ->
  extends h h'.
Proof.
  intros Ha Ho. split; intros r a H.
  - rewrite Ha. rewrite nth_error_app1; [exact H|].
    apply nth_error_Some. congruence.
  - rewrite Ho. rewrite nth_error_app1; [exact H|].
    apply nth_error_Some. congruence.
Qed.

Lemma nth_error_setitem_same {A : Type} (l : list A) (i : nat) (v : A) :
  (i < length l)%nat -> nth_error (setitem l i v) i = Some v.
Proof.
  revert i. induction l as [|a l IH]; intros [|i] H; simpl in *;
    try lia; auto. apply IH. lia.
Qed.

Lemma nth_error_setitem_other {A : Type} (l : list A) (i j : nat) (v : A) :
  i <> j -> nth_error (setitem l i v) j = nth_error l j.
Proof.
  revert i j. induction l as [|a l IH]; intros [|i] [|j] H; simpl;
    try congruence; auto.
Qed.

Lemma nth_error_snoc_last {A : Type} (l : list A) (a : A) :
  nth_error (l ++ [a]) (length l) = Some a.
Proof.
  rewrite nth_error_app2 by lia. rewrite Nat.sub_diag. reflexivity.
Qed.

Lemma nth_error_snoc_old {A : Type} (l : list A) (a v : A) (i : nat) :
  nth_error l i = Some v -> nth_error (l ++ [a]) i = Some v.
Proof.
  intro H. rewrite nth_error_app1; [exact H|].
  apply nth_error_Some. congruence.
Qed.

Ltac lookup :=
  repeat first [apply nth_error_snoc_last | apply nth_error_snoc_old];
  try eassumption.

Lemma np_array_ok (h : store) (r : aref) (a : list Q) :
  nth_error (arrays h) r = Some a ->
  Store.np_array r h
  = Ok (length (arrays h), mkStore (arrays h ++ [a]) (objects h)).
Proof.
  intro H. unfold Store.np_array, Store.bindM, Store.load_array.
  rewrite H. reflexivity.
Qed.

Lemma copy_spec (h : store) (self : oref) (p : profile) :
  view h self = Some p ->
  exists h' o,
    Store.copy self h = Ok (length (objects h), h') /\
    objects h' = objects h ++ [o] /\
    (exists ea, arrays h' = arrays h ++ ea) /\
    consecutive o (length (arrays h)) /\
    view h' (length (objects h)) = Some p.
Proof.
  intro Hv. pose proof (view_inv _ _ Hv) as Hi.
  unfold Store.copy, Store.bindM at 1, Store.load_object.
  destruct p as [[vx vy]|[vx v1 v2]|[vx vy vm]];
    cbn [PWC.x PWC.y PWL.x PWL.y1 PWL.y2 DF.x DF.y DF.mp] in Hi.
  - destruct Hi as [x [y [Ho [Hx Hy]]]]. rewrite Ho.
    unfold Store.PieceWiseConstFunc_init, Store.bindM.
    rewrite (np_array_ok _ _ Hx).
    rewrite (np_array_ok (mkStore (arrays h ++ [vx]) (objects h)) y (a:=vy))
      by lookup.
    cbn [arrays objects Store.alloc_object].
    eexists; eexists. split; [reflexivity|]. cbn [arrays objects].
    split; [reflexivity|]. split; [exists [vx; vy]; rewrite <- app_assoc; reflexivity|].
    split; [cbn; rewrite length_app; cbn; split; [reflexivity|lia]|].
    unfold view. cbn [arrays objects]. rewrite nth_error_snoc_last.
    rewrite nth_error_snoc_last.
    match goal with |- context [nth_error ?l ?i] =>
      assert (nth_error l i = Some vx) as -> by lookup end.
    reflexivity.
  - destruct Hi as [x [y1 [y2 [Ho [Hx [H1 H2]]]]]]. rewrite Ho.
    unfold Store.PieceWiseLinFunc_init, Store.bindM.
    rewrite (np_array_ok _ _ Hx).
    rewrite (np_array_ok (mkStore (arrays h ++ [vx]) (objects h)) y1 (a:=v1))
      by lookup.
    cbn [arrays objects].
    rewrite (np_array_ok (mkStore ((arrays h ++ [vx]) ++ [v1]) (objects h))
               y2 (a:=v2))
      by lookup.
    cbn [arrays objects Store.alloc_object].
    eexists; eexists. split; [reflexivity|]. cbn [arrays objects].
    split; [reflexivity|].
    split; [exists [vx; v1; v2]; rewrite <- !app_assoc; reflexivity|].
    split; [cbn; rewrite !length_app; cbn; repeat split; lia|].
    unfold view. cbn [arrays objects]. rewrite nth_error_snoc_last.
    rewrite nth_error_snoc_last.
    match goal with |- context [nth_error ?l ?i] =>
      assert (nth_error l i = Some vx) as -> by lookup end.
    match goal with |- context [nth_error ?l ?i] =>
      first [assert (nth_error l i = Some v1) as -> by lookup
            |assert (nth_error l i = Some vy) as -> by lookup] end.
    reflexivity.
  - destruct Hi as [x [y [mp [Ho [Hx [Hy Hm]]]]]]. rewrite Ho.
    unfold Store.DiscreteFunction_init, Store.bindM.
    rewrite (np_array_ok _ _ Hx).
    rewrite (np_array_ok (mkStore (arrays h ++ [vx]) (objects h)) y (a:=vy))
      by lookup.
    cbn [arrays objects].
    rewrite (np_array_ok (mkStore ((arrays h ++ [vx]) ++ [vy]) (objects h))
               mp (a:=vm))
      by lookup.
    cbn [arrays objects Store.alloc_object].
    eexists; eexists. split; [reflexivity|]. cbn [arrays objects].
    split; [reflexivity|].
    split; [exists [vx; vy; vm]; rewrite <- !app_assoc; reflexivity|].
    split; [cbn; rewrite !length_app; cbn; repeat split; lia|].
    unfold view. cbn [arrays objects]. rewrite nth_error_snoc_last.
    rewrite nth_error_snoc_last.
    match goal with |- context [nth_error ?l ?i] =>
      assert (nth_error l i = Some vx) as -> by lookup end.
    match goal with |- context [nth_error ?l ?i] =>
      first [assert (nth_error l i = Some v1) as -> by lookup
            |assert (nth_error l i = Some vy) as -> by lookup] end.
    reflexivity.
Qed.

Lemma modify_array_ok (h : store) (r : aref) (a : list Q)
  (g : list Q -> list Q) :
  nth_error (arrays h) r = Some a ->
  Store.modify_array r g h
  = Ok (tt, mkStore (setitem (arrays h) r (g a)) (objects h)).
Proof. intro H. unfold Store.modify_array. rewrite H. reflexivity. Qed.

Lemma mul_scalar_spec (h : store) (s : oref) (p : profile) (fac : Q) :
  view h s = Some p ->
  exists h',
    Store.mul_scalar s fac h = Ok (tt, h') /\
    objects h' = objects h /\
    length (arrays h') = length (arrays h) /\
    (forall o r, nth_error (objects h) s = Some o -> ~ In r (value_refs o) ->
                 nth_error (arrays h') r = nth_error (arrays h) r) /\
    (forall o b, nth_error (objects h) s = Some o -> consecutive o b ->
                 view h' s = Some (mul_scalar_profile fac p)).
Proof.
  intro Hv. pose proof (view_inv _ _ Hv) as Hi.
  unfold Store.mul_scalar, Store.bindM at 1, Store.load_object.
  destruct p as [[vx vy]|[vx v1 v2]|[vx vy vm]];
    cbn [PWC.x PWC.y PWL.x PWL.y1 PWL.y2 DF.x DF.y DF.mp] in Hi.
  - destruct Hi as [x [y [Ho [Hx Hy]]]]. rewrite Ho.
    rewrite (modify_array_ok _ _ _ Hy).
    eexists. split; [reflexivity|]. cbn [arrays objects].
    split; [reflexivity|]. split; [apply length_setitem|]. split.
    + intros o r Ho' Hr. injection Ho' as <-.
      cbn [value_refs In] in Hr. apply nth_error_setitem_other. tauto.
    + intros o b Ho' Hc. injection Ho' as <-. destruct Hc as [-> ->].
      unfold view. cbn [arrays objects]. rewrite Ho.
      rewrite nth_error_setitem_other by lia. rewrite Hx.
      rewrite nth_error_setitem_same by (apply nth_error_Some; congruence).
      reflexivity.
  - destruct Hi as [x [y1 [y2 [Ho [Hx [H1 H2]]]]]]. rewrite Ho.
    unfold Store.bindM. rewrite (modify_array_ok _ _ _ H1).
    destruct (nth_error (setitem (arrays h) y1 (map (fun v => v * fac) v1)) y2)
      as [v2'|] eqn:E2.
    2:{ exfalso. apply nth_error_None in E2. rewrite length_setitem in E2.
        assert (y2 < length (arrays h))%nat
          by (apply nth_error_Some; congruence). lia. }
    rewrite (modify_array_ok
               (mkStore (setitem (arrays h) y1 (map (fun v => v * fac) v1))
                  (objects h)) y2 (a:=v2') _ E2).
    eexists. split; [reflexivity|]. cbn [arrays objects].
    split; [reflexivity|]. split; [rewrite !length_setitem; reflexivity|].
    split.
    + intros o r Ho' Hr. injection Ho' as <-.
      cbn [value_refs In] in Hr.
      rewrite !nth_error_setitem_other by tauto. reflexivity.
    + intros o b Ho' Hc. injection Ho' as <-. destruct Hc as [-> [-> ->]].
      rewrite nth_error_setitem_other in E2 by lia.
      rewrite H2 in E2. injection E2 as <-.
      unfold view. cbn [arrays objects]. rewrite Ho.
      rewrite !(nth_error_setitem_other _ (j:=b)) by lia. rewrite Hx.
      rewrite (nth_error_setitem_other _ (i:=S (S b)) (j:=S b)) by lia.
      rewrite nth_error_setitem_same by (apply nth_error_Some; congruence).
      rewrite nth_error_setitem_same
        by (rewrite length_setitem; apply nth_error_Some; congruence).
      reflexivity.
  - destruct Hi as [x [y [mp [Ho [Hx [Hy Hm]]]]]]. rewrite Ho.
    rewrite (modify_array_ok _ _ _ Hy).
    eexists. split; [reflexivity|]. cbn [arrays objects].
    split; [reflexivity|]. split; [apply length_setitem|]. split.
    + intros o r Ho' Hr. injection Ho' as <-.
      cbn [value_refs In] in Hr. apply nth_error_setitem_other. tauto.
    + intros o b Ho' Hc. injection Ho' as <-. destruct Hc as [-> [-> ->]].
      unfold view. cbn [arrays objects]. rewrite Ho.
      rewrite !(nth_error_setitem_other _ (i:=S b) (j:=b)) by lia. rewrite Hx.
      rewrite (nth_error_setitem_other _ (i:=S b) (j:=S (S b))) by lia.
      rewrite Hm.
      rewrite nth_error_setitem_same by (apply nth_error_Some; congruence).
      reflexivity.
Qed.

(** Attributes of an object of the store and of its value. *)
Lemma attrs_view (h : store) (f : oref) (q : profile) (fo : object) :
  view h f = Some q -> nth_error (objects h) f = Some fo ->
  nth_error (arrays h) (Store.attr_x fo) = Some (profile_x q) /\
  match Store.attr_y fo with
  | Ok r => exists v, profile_y q = Ok v /\ nth_error (arrays h) r = Some v
  | Err e => profile_y q = Err e
  end /\
  match Store.attr_y1 fo with
  | Ok r => exists v, profile_y1 q = Ok v /\ nth_error (arrays h) r = Some v
  | Err e => profile_y1 q = Err e
  end /\
  match Store.attr_y2 fo with
  | Ok r => exists v, profile_y2 q = Ok v /\ nth_error (arrays h) r = Some v
  | Err e => profile_y2 q = Err e
  end /\
  match Store.attr_mp fo with
  | Ok r => exists v, profile_mp q = Ok v /\ nth_error (arrays h) r = Some v
  | Err e => profile_mp q = Err e
  end.
Proof.
  intros Hv Ho. pose proof (view_inv _ _ Hv) as Hi.
  destruct q as [[vx vy]|[vx v1 v2]|[vx vy vm]];
    cbn [PWC.x PWC.y PWL.x PWL.y1 PWL.y2 DF.x DF.y DF.mp] in Hi.
  - destruct Hi as [x [y [Ho' [Hx Hy]]]].
    rewrite Ho in Ho'. injection Ho' as ->. cbn.
    repeat split; eauto.
  - destruct Hi as [x [y1 [y2 [Ho' [Hx [H1 H2]]]]]].
    rewrite Ho in Ho'. injection Ho' as ->. cbn.
    repeat split; eauto.
  - destruct Hi as [x [y [mp [Ho' [Hx [Hy Hm]]]]]].
    rewrite Ho in Ho'. injection Ho' as ->. cbn.
    repeat split; eauto.
Qed.

Lemma view_object (h : store) (s : oref) (p : profile) :
  view h s = Some p -> exists o, nth_error (objects h) s = Some o.
Proof.
  unfold view. destruct (nth_error (objects h) s) as [o|]; [eauto|discriminate].
Qed.

Lemma bindM_ok {A C : Type} (m : Store.M A) (k : A -> Store.M C)
  (h h1 : store) (a : A) :
  m h = Ok (a, h1) -> Store.bindM m k h = k a h1.
Proof. intro H. unfold Store.bindM. rewrite H. reflexivity. Qed.

Lemma bindM_err {A C : Type} (m : Store.M A) (k : A -> Store.M C)
  (h : store) (e : error) :
  m h = Err e -> Store.bindM m k h = Err e.
Proof. intro H. unfold Store.bindM. rewrite H. reflexivity. Qed.

Lemma load_array_ok (h : store) (r : aref) (a : list Q) :
  nth_error (arrays h) r = Some a -> Store.load_array r h = Ok (a, h).
Proof. intro H. unfold Store.load_array. rewrite H. reflexivity. Qed.

Lemma load_object_ok (h : store) (r : oref) (o : object) :
  nth_error (objects h) r = Some o -> Store.load_object r h = Ok (o, h).
Proof. intro H. unfold Store.load_object. rewrite H. reflexivity. Qed.

Lemma store_object_ok (h : store) (s : oref) (o o' : object) :
  nth_error (objects h) s = Some o ->
  Store.store_object s o' h
  = Ok (tt, mkStore (arrays h) (setitem (objects h) s o')).
Proof. intro H. unfold Store.store_object. rewrite H. reflexivity. Qed.

(** One step of a computation in the store. *)
Ltac run_load H :=
  first [ erewrite bindM_ok by (apply load_array_ok; exact H)
        | erewrite bindM_ok by (apply load_object_ok; exact H) ];
  cbv beta iota;
  cbn [Store.attr_x Store.attr_y Store.attr_y1 Store.attr_y2 Store.attr_mp].

Ltac run_pure := erewrite bindM_ok by reflexivity; cbv beta iota.

Ltac run_lift :=
  match goal with
  | |- context [Store.bindM (Store.lift ?r) ?k ?h] =>
      let E := fresh "E" in
      destruct r eqn:E;
      [ rewrite (@bindM_ok _ _ (Store.lift (Ok _)) k h h _ eq_refl)
      | rewrite (@bindM_err _ _ (Store.lift (Err _)) k h _ eq_refl) ]
  end.

Section AddRefines.

Variable B : backend.

Lemma add_refines (h : store) (s f : oref) (p q : profile) :
  view h s = Some p -> view h f = Some q ->
  match add_profile B p q with
  | Ok r =>
      exists h' o,
        Store.add B s f h = Ok (tt, h') /\
        (exists ea, arrays h' = arrays h ++ ea) /\
        objects h' = setitem (objects h) s o /\
        consecutive o (length (arrays h)) /\
        view h' s = Some r
  | Err e => Store.add B s f h = Err e
  end.
Proof.
  intros Hs Hf.
  destruct (view_object _ _ Hf) as [fo Hfo].
  destruct (@attrs_view _ _ _ _ Hf Hfo) as [Afx [Afy [Af1 [Af2 Afm]]]].
  pose proof (view_inv _ _ Hs) as Hi.
  assert (s < length (objects h))%nat as Hlt
    by (destruct (view_object _ _ Hs) as [o Ho]; apply nth_error_Some; congruence).
  unfold Store.add, add_profile.
  destruct p as [[vx vy]|[vx v1 v2]|[vx vy vm]];
    cbn [PWC.x PWC.y PWL.x PWL.y1 PWL.y2 DF.x DF.y DF.mp profile_x] in *.
  - destruct Hi as [x [y [Ho [Hx Hy]]]].
    run_load Ho. run_load Hfo. run_load Hx. run_load Afx.
    run_lift; cbn [bind]; [|reflexivity].
    run_load Hy.
    destruct (Store.attr_y fo) as [ry|e].
    2:{ rewrite Afy. reflexivity. }
    destruct Afy as [fy [-> Hfy]]. cbn [bind].
    erewrite bindM_ok by reflexivity.
    run_load Hfy.
    run_lift; cbn [bind]; [|reflexivity].
    match goal with a : (list Q * list Q)%type |- _ => destruct a as [rx ry'] end.
    cbn [fst snd].
    unfold Store.bindM, Store.alloc_array. cbn [arrays objects].
    rewrite (store_object_ok
               (mkStore ((arrays h ++ [rx]) ++ [ry']) (objects h)) s
               (o:=PwcObj x y)) by exact Ho.
    cbn [arrays objects].
    eexists; eexists. split; [reflexivity|]. cbn [arrays objects].
    split; [exists [rx; ry']; rewrite <- app_assoc; reflexivity|].
    split; [reflexivity|].
    split; [cbn; rewrite length_app; cbn; split; [reflexivity|lia]|].
    unfold view. cbn [arrays objects].
    rewrite nth_error_setitem_same by exact Hlt.
    rewrite nth_error_snoc_last.
    match goal with |- context [nth_error ?l ?i] =>
      assert (nth_error l i = Some rx) as -> by lookup end.
    reflexivity.
  - destruct Hi as [x [y1 [y2 [Ho [Hx [H1 H2]]]]]].
    run_load Ho. run_load Hfo. run_load Hx. run_load Afx.
    run_lift; cbn [bind]; [|reflexivity].
    run_load H1. run_load H2.
    destruct (Store.attr_y1 fo) as [r1|e].
    2:{ rewrite Af1. reflexivity. }
    destruct Af1 as [f1 [-> Hf1]]. cbn [bind].
    erewrite bindM_ok by reflexivity.
    run_load Hf1.
    destruct (Store.attr_y2 fo) as [r2|e].
    2:{ rewrite Af2. reflexivity. }
    destruct Af2 as [f2 [-> Hf2]]. cbn [bind].
    erewrite bindM_ok by reflexivity.
    run_load Hf2.
    run_lift; cbn [bind]; [|reflexivity].
    match goal with a : (list Q * list Q * list Q)%type |- _ =>
      destruct a as [[rx ry1] ry2] end.
    cbn [fst snd].
    unfold Store.bindM, Store.alloc_array. cbn [arrays objects].
    rewrite (store_object_ok
               (mkStore (((arrays h ++ [rx]) ++ [ry1]) ++ [ry2]) (objects h)) s
               (o:=PwlObj x y1 y2)) by exact Ho.
    cbn [arrays objects].
    eexists; eexists. split; [reflexivity|]. cbn [arrays objects].
    split; [exists [rx; ry1; ry2]; rewrite <- !app_assoc; reflexivity|].
    split; [reflexivity|].
    split; [cbn; rewrite !length_app; cbn; repeat split; lia|].
    unfold view. cbn [arrays objects].
    rewrite nth_error_setitem_same by exact Hlt.
    rewrite nth_error_snoc_last.
    match goal with |- context [nth_error ?l ?i] =>
      assert (nth_error l i = Some rx) as -> by lookup end.
    match goal with |- context [nth_error ?l ?i] =>
      assert (nth_error l i = Some ry1) as -> by lookup end.
    reflexivity.
  - destruct Hi as [x [y [mp [Ho [Hx [Hy Hm]]]]]].
    run_load Ho. run_load Hfo. run_load Hx. run_load Afx.
    run_lift; cbn [bind]; [|reflexivity].
    run_load Hy. run_load Hm.
    destruct (Store.attr_y fo) as [ry|e].
    2:{ rewrite Afy. reflexivity. }
    destruct Afy as [fy [-> Hfy]]. cbn [bind].
    erewrite bindM_ok by reflexivity.
    run_load Hfy.
    destruct (Store.attr_mp fo) as [rm|e].
    2:{ rewrite Afm. reflexivity. }
    destruct Afm as [fm [-> Hfm]]. cbn [bind].
    erewrite bindM_ok by reflexivity.
    run_load Hfm.
    run_lift; cbn [bind]; [|reflexivity].
    match goal with a : (list Q * list Q * list Q)%type |- _ =>
      destruct a as [[rx ry'] rm'] end.
    cbn [fst snd].
    unfold Store.bindM, Store.alloc_array. cbn [arrays objects].
    rewrite (store_object_ok
               (mkStore (((arrays h ++ [rx]) ++ [ry']) ++ [rm']) (objects h)) s
               (o:=DiscObj x y mp)) by exact Ho.
    cbn [arrays objects].
    eexists; eexists. split; [reflexivity|]. cbn [arrays objects].
    split; [exists [rx; ry'; rm']; rewrite <- !app_assoc; reflexivity|].
    split; [reflexivity|].
    split; [cbn; rewrite !length_app; cbn; repeat split; lia|].
    unfold view. cbn [arrays objects].
    rewrite nth_error_setitem_same by exact Hlt.
    rewrite nth_error_snoc_last.
    match goal with |- context [nth_error ?l ?i] =>
      assert (nth_error l i = Some rx) as -> by lookup end.
    match goal with |- context [nth_error ?l ?i] =>
      assert (nth_error l i = Some ry') as -> by lookup end.
    reflexivity.
Qed.

End AddRefines.

Lemma setitem_snoc {A : Type} (l : list A) (a v : A) :
  setitem (l ++ [a]) (length l) v = l ++ [v].
Proof. induction l as [|h t IH]; simpl; [reflexivity|]. rewrite IH. reflexivity. Qed.

Lemma app_lookup {A : Type} (l ea : list A) (r : nat) (a : A) :
  nth_error l r = Some a -> nth_error (l ++ ea) r = Some a.
Proof.
  intro H. rewrite nth_error_app1; [exact H|]. apply nth_error_Some. congruence.
Qed.

Lemma consecutive_value_refs (o : object) (b r : aref) :
  consecutive o b -> In r (value_refs o) -> (b < r)%nat.
Proof.
  destruct o as [x y|x y1 y2|x y mp]; cbn [consecutive value_refs In]; intros; lia.
Qed.

Lemma getitem_nth_error {A : Type} (l : list A) (i : nat) (v : A) :
  nth_error l i = Some v -> getitem l (Z.of_nat i) = Ok v.
Proof.
  intro H. unfold getitem.
  assert ((Z.of_nat i <? 0)%Z = false) as -> by (apply Z.ltb_ge; lia).
  assert ((Z.of_nat i <? 0)%Z = false) as -> by (apply Z.ltb_ge; lia).
  rewrite Nat2Z.id, H. reflexivity.
Qed.

Lemma owned_extends (h0 h : store) (c : oref) (p : profile) :
  owned h0 h c p -> extends h0 h.
Proof.
  intros [_ [Ha [[o [b [Ho _]]] _]]]. split; [exact Ha|].
  intros r o' H. rewrite Ho. apply app_lookup. exact H.
Qed.

Lemma copy_owned (h : store) (self : oref) (p : profile) :
  view h self = Some p ->
  exists h', Store.copy self h = Ok (length (objects h), h') /\
             owned h h' (length (objects h)) p.
Proof.
  intro Hv. destruct (@copy_spec _ _ _ Hv) as [h' [o [Hc [Ho [[ea Ha] [Hcons Hview]]]]]].
  exists h'. split; [exact Hc|]. split; [reflexivity|]. split.
  - intros r a H. rewrite Ha. apply app_lookup. exact H.
  - split; [|exact Hview]. exists o, (length (arrays h)). auto.
Qed.

Section Averaging.

Variable B : backend.

Lemma add_owned (h0 h : store) (c f : oref) (p q : profile) :
  owned h0 h c p -> view h0 f = Some q ->
  match add_profile B p q with
  | Ok r => exists h', Store.add B c f h = Ok (tt, h') /\ owned h0 h' c r
  | Err e => Store.add B c f h = Err e
  end.
Proof.
  intros Hown Hf.
  pose proof (@view_extends _ _ _ _ (@owned_extends _ _ _ _ Hown) Hf) as Hf'.
  destruct Hown as [Hc [Ha [[o [b [Ho [Hcons Hb]]]] Hview]]].
  pose proof (@add_refines B _ _ _ _ _ Hview Hf') as Hadd.
  destruct (add_profile B p q) as [r|e]; [|exact Hadd].
  destruct Hadd as [h' [o' [Hrun [[ea Ha'] [Ho' [Hcons' Hview']]]]]].
  exists h'. split; [exact Hrun|]. split; [exact Hc|]. split.
  - intros r0 a H. rewrite Ha'. apply app_lookup. apply Ha. exact H.
  - split; [|exact Hview'].
    exists o', (length (arrays h)). split.
    + rewrite Ho', Ho, Hc. apply setitem_snoc.
    + split; [exact Hcons'|].
      destruct (nth_error (arrays h0) (length (arrays h0) - 1)) as [a|] eqn:E.
      * pose proof (Ha _ _ E) as E'.
        assert (length (arrays h0) - 1 < length (arrays h))%nat
          by (apply nth_error_Some; congruence).
        assert (length (arrays h0) - 1 < length (arrays h0))%nat
          by (apply nth_error_Some; congruence).
        lia.
      * apply nth_error_None in E. lia.
Qed.

Lemma mul_scalar_owned (h0 h : store) (c : oref) (p : profile) (fac : Q) :
  owned h0 h c p ->
  exists h', Store.mul_scalar c fac h = Ok (tt, h') /\
             owned h0 h' c (mul_scalar_profile fac p).
Proof.
  intros [Hc [Ha [[o [b [Ho [Hcons Hb]]]] Hview]]].
  destruct (@mul_scalar_spec _ _ _ fac Hview) as [h' [Hrun [Hobj [_ [Hfr Hv']]]]].
  assert (nth_error (objects h) c = Some o) as Hoc
    by (rewrite Ho, Hc; apply nth_error_snoc_last).
  exists h'. split; [exact Hrun|]. split; [exact Hc|]. split.
  - intros r a H. rewrite (Hfr o r Hoc); [apply Ha; exact H|].
    intro Hin. pose proof (@consecutive_value_refs _ _ _ Hcons Hin).
    assert (r < length (arrays h0))%nat by (apply nth_error_Some; congruence).
    lia.
  - split; [|exact (Hv' o b Hoc Hcons)].
    exists o, b. rewrite Hobj. auto.
Qed.

Lemma add_loop_fold (h0 : store) (c : oref) (profiles : list oref)
  (idx : list nat) (qs : list profile) :
  Forall2 (fun i q => exists r, nth_error profiles i = Some r /\
                                view h0 r = Some q) idx qs ->
  forall (h : store) (p : profile),
    owned h0 h c p ->
    match fold_add B p qs with
    | Ok r => exists h', Store.add_loop B c profiles idx h = Ok (tt, h') /\
                         owned h0 h' c r
    | Err e => Store.add_loop B c profiles idx h = Err e
    end.
Proof.
  induction 1 as [|i q idx qs [r [Hr Hq]] _ IH]; intros h p Hown.
  - cbn [fold_add Store.add_loop]. exists h. split; [reflexivity|exact Hown].
  - cbn [fold_add Store.add_loop].
    rewrite (@getitem_nth_error _ _ _ _ Hr).
    erewrite bindM_ok by reflexivity.
    pose proof (@add_owned _ _ _ _ _ _ Hown Hq) as Hadd.
    destruct (add_profile B p q) as [p'|e]; cbn [bind].
    + destruct Hadd as [h1 [Hrun Hown1]].
      erewrite bindM_ok by exact Hrun.
      apply IH. exact Hown1.
    + apply bindM_err. exact Hadd.
Qed.

End Averaging.

Lemma indexed_views (h : store) (rest : list oref) (qs : list profile) :
  Forall2 (fun r q => view h r = Some q) rest qs ->
  forall pre : list oref,
    Forall2 (fun i q => exists r, nth_error (pre ++ rest) i = Some r /\
                                  view h r = Some q)
      (seq (length pre) (length rest)) qs.
Proof.
  induction 1 as [|r q rest qs Hr _ IH]; intro pre.
  - constructor.
  - cbn [length seq]. constructor.
    + exists r. split; [|exact Hr].
      rewrite nth_error_app2 by lia. rewrite Nat.sub_diag. reflexivity.
    + specialize (IH (pre ++ [r])).
      rewrite <- app_assoc, length_app in IH. cbn [app length] in IH.
      replace (length pre + 1)%nat with (S (length pre)) in IH by lia.
      exact IH.
Qed.

(** C8: [average_profile] fails on fewer than two profiles; on a first
    profile and at least one further profile it returns a new object that
    denotes the first profile with every further profile added to it in
    list order, scaled by [1/len(profiles)]; the objects and arrays present
    before the call, the first profile among them, are unchanged.  When an
    [add] fails, its error is the outcome. *)
Theorem average_profile_fold (B : backend) :
  (forall (profiles : list oref) (h : store),
      (length profiles < 2)%nat ->
      Store.average_profile B profiles h
      = Err (AssertionError TooFewProfiles)) /\
  (forall (h : store) (r0 : oref) (rest : list oref)
          (p0 : profile) (qs : list profile),
      rest <> [] ->
      view h r0 = Some p0 ->
      Forall2 (fun r q => view h r = Some q) rest qs ->
      match fold_add B p0 qs with
      | Ok acc =>
          exists h',
            Store.average_profile B (r0 :: rest) h
            = Ok (length (objects h), h') /\
            view h' (length (objects h))
            = Some (mul_scalar_profile
                      (1 / inject_Z (len (r0 :: rest))) acc) /\
            extends h h' /\
            view h' r0 = Some p0
      | Err e => Store.average_profile B (r0 :: rest) h = Err e
      end).
Proof.
  split.
  - intros profiles h Hlen. unfold Store.average_profile.
    assert ((1 <? len profiles)%Z = false) as ->
      by (apply Z.ltb_ge; unfold len; lia).
    reflexivity.
  - intros h r0 rest p0 qs Hne H0 Hrest. unfold Store.average_profile.
    assert ((1 <? len (r0 :: rest))%Z = true) as ->.
    { apply Z.ltb_lt. unfold len. destruct rest; [congruence|].
      cbn [length]. lia. }
    change (getitem (r0 :: rest) 0%Z) with (getitem (r0 :: rest) (Z.of_nat 0)).
    rewrite (@getitem_nth_error _ (r0 :: rest) 0%nat r0 eq_refl).
    erewrite bindM_ok by reflexivity.
    destruct (@copy_owned _ _ _ H0) as [h1 [Hcopy Hown1]].
    erewrite bindM_ok by exact Hcopy.
    replace (length (r0 :: rest) - 1)%nat with (length rest)
      by (cbn [length]; lia).
    pose proof (@indexed_views h rest qs Hrest [r0]) as Hidx.
    cbn [length app] in Hidx.
    pose proof (@add_loop_fold B h (length (objects h)) (r0 :: rest) _ _ Hidx
                  h1 p0 Hown1) as Hloop.
    destruct (fold_add B p0 qs) as [acc|e].
    + destruct Hloop as [h2 [Hrun Hown2]].
      erewrite bindM_ok by exact Hrun.
      destruct (@mul_scalar_owned _ _ _ _ (1 / inject_Z (len (r0 :: rest))) Hown2)
        as [h3 [Hmul Hown3]].
      erewrite bindM_ok by exact Hmul.
      exists h3. split; [reflexivity|].
      pose proof (@owned_extends _ _ _ _ Hown3) as Hext.
      split; [exact (proj2 (proj2 (proj2 Hown3)))|].
      split; [exact Hext|].
      exact (@view_extends _ _ _ _ Hext H0).
    + apply bindM_err. exact Hloop.
Qed.

(** The average of the stored functions A and B with the model backend. *)
Lemma average_profile_fold_witness :
  exists h' acc,
    fold_add MergeModel.impl (Pwc pwc_A) [Pwc pwc_B] = Ok acc /\
    Store.average_profile MergeModel.impl [0%nat; 1%nat] store_AB
    = Ok (2%nat, h') /\
    view h' 2%nat = Some (mul_scalar_profile (1 / inject_Z 2) acc) /\
    view h' 0%nat = Some (Pwc pwc_A).
Proof.
  pose proof (proj2 (average_profile_fold MergeModel.impl)
                store_AB 0%nat [1%nat] (Pwc pwc_A) [Pwc pwc_B]) as H.
  destruct (fold_add MergeModel.impl (Pwc pwc_A) [Pwc pwc_B]) as [acc|e] eqn:E;
    [|vm_compute in E; discriminate].
  destruct H as [h' [Hrun [Hview [_ H0]]]].
  - discriminate.
  - reflexivity.
  - constructor; [reflexivity|constructor].
  - exists h', acc. split; [reflexivity|]. split; [exact Hrun|].
    split; [exact Hview|exact H0].
Defined.

(** The merged scenario: A and B average to [y = [3, 1, 2]]. *)
Lemma average_profile_scenario :
  exists h' y,
    Store.average_profile MergeModel.impl [0%nat; 1%nat] store_AB
    = Ok (2%nat, h') /\
    view h' 2%nat = Some (Pwc (PWC.mk [0; 1; 2; 3] y)) /\
    Forall2 Qeq y [3; 1; 2].
Proof.
  eexists; eexists. split; [vm_compute; reflexivity|].
  split; [vm_compute; reflexivity|].
  repeat constructor.
Qed.

(** ** Copies *)

Lemma allclose_refl (l : list Q) (eps : Q) :
  0 <= eps -> allclose l l eps = Ok true.
Proof.
  intro He. unfold allclose. rewrite broadcast2_same by reflexivity.
  cbn [bind]. f_equal.
  induction l as [|a l IH]; [reflexivity|].
  cbn [map2 forallb]. rewrite IH, andb_true_r.
  apply Qle_bool_iff.
  assert (a - a == 0) as -> by ring. exact He.
Qed.

Lemma eps_nonneg (decimal : Z) : 0 <= Qpower 10 (- decimal).
Proof. apply Qpower_0_le. discriminate. Qed.

Lemma almost_equal_same (h : store) (a b : oref) (p : profile) (decimal : Z) :
  view h a = Some p -> view h b = Some p ->
  Store.almost_equal a b decimal h = Ok (true, h).
Proof.
  intros Ha Hb.
  destruct (view_object _ _ Hb) as [fo Hfo].
  destruct (@attrs_view _ _ _ _ Hb Hfo) as [Afx [Afy [Af1 [Af2 Afm]]]].
  pose proof (view_inv _ _ Ha) as Hi.
  pose proof (view_inv _ _ Hb) as Hj.
  unfold Store.almost_equal. cbv zeta.
  destruct p as [[vx vy]|[vx v1 v2]|[vx vy vm]];
    cbn [PWC.x PWC.y PWL.x PWL.y1 PWL.y2 DF.x DF.y DF.mp profile_x
         profile_y profile_y1 profile_y2 profile_mp] in *.
  - destruct Hi as [x [y [Ho [Hx Hy]]]].
    destruct Hj as [x' [y' [Ho' [Hx' Hy']]]].
    rewrite Hfo in Ho'. injection Ho' as ->.
    cbn [Store.attr_x Store.attr_y] in *.
    run_load Ho. run_load Hfo. run_load Hx. run_load Hx'.
    rewrite (allclose_refl vx (eps_nonneg decimal)).
    run_pure.
    run_load Hy. run_pure. run_load Hy'.
    rewrite (allclose_refl vy (eps_nonneg decimal)). reflexivity.
  - destruct Hi as [x [y1 [y2 [Ho [Hx [H1 H2]]]]]].
    destruct Hj as [x' [y1' [y2' [Ho' [Hx' [H1' H2']]]]]].
    rewrite Hfo in Ho'. injection Ho' as ->.
    cbn [Store.attr_x Store.attr_y1 Store.attr_y2] in *.
    run_load Ho. run_load Hfo. run_load Hx. run_load Hx'.
    rewrite (allclose_refl vx (eps_nonneg decimal)).
    run_pure.
    run_load H1. run_pure. run_load H1'.
    rewrite (allclose_refl v1 (eps_nonneg decimal)).
    run_pure.
    run_load H2. run_pure. run_load H2'.
    rewrite (allclose_refl v2 (eps_nonneg decimal)). reflexivity.
  - destruct Hi as [x [y [mp [Ho [Hx [Hy Hm]]]]]].
    destruct Hj as [x' [y' [mp' [Ho' [Hx' [Hy' Hm']]]]]].
    rewrite Hfo in Ho'. injection Ho' as ->.
    cbn [Store.attr_x Store.attr_y Store.attr_mp] in *.
    run_load Ho. run_load Hfo. run_load Hx. run_load Hx'.
    rewrite (allclose_refl vx (eps_nonneg decimal)).
    run_pure.
    run_load Hy. run_pure. run_load Hy'.
    rewrite (allclose_refl vy (eps_nonneg decimal)).
    run_pure.
    run_load Hm. run_pure. run_load Hm'.
    rewrite (allclose_refl vm (eps_nonneg decimal)). reflexivity.
Qed.

Lemma consecutive_object_refs (o : object) (b r : aref) :
  consecutive o b -> In r (object_refs o) -> (b <= r)%nat.
Proof.
  destruct o as [x y|x y1 y2|x y mp]; cbn [consecutive object_refs In];
    intros; lia.
Qed.

Lemma value_refs_object_refs (o : object) (r : aref) :
  In r (value_refs o) -> In r (object_refs o).
Proof.
  destruct o as [x y|x y1 y2|x y mp]; cbn [value_refs object_refs In]; tauto.
Qed.

(** What [add] does not touch: every object but [s] keeps its view. *)
Lemma rebind_frame (h h' : store) (s t : oref) (o : object)
  (ea : list (list Q)) (p : profile) :
  arrays h' = arrays h ++ ea -> objects h' = setitem (objects h) s o ->
  t <> s -> view h t = Some p -> view h' t = Some p.
Proof.
  intros Ha Ho Hne Hv. rewrite <- Hv. apply view_frame.
  - rewrite Ho. apply nth_error_setitem_other. congruence.
  - intros o' r Ho' Hr. rewrite Ha.
    apply nth_error_app1. eapply view_refs_valid; eassumption.
Qed.

(** C9: [copy()] returns a new object that denotes the same function and
    is [almost_equal] to the original for every precision; none of its
    arrays existed before the call.  [mul_scalar] and [add] on the copy
    leave the original as it was, and [mul_scalar] and [add] on the
    original leave the copy as it was. *)
Theorem copy_independent (B : backend) (h : store) (self : oref)
  (p : profile) :
  view h self = Some p ->
  let c := length (objects h) in
  exists h',
    Store.copy self h = Ok (c, h') /\
    c <> self /\
    view h' c = Some p /\
    view h' self = Some p /\
    (exists o, nth_error (objects h') c = Some o /\
               forall r, In r (object_refs o) ->
                         (length (arrays h) <= r)%nat) /\
    (forall decimal, Store.almost_equal c self decimal h' = Ok (true, h')) /\
    (forall fac, exists h'',
        Store.mul_scalar c fac h' = Ok (tt, h'') /\
        view h'' c = Some (mul_scalar_profile fac p) /\
        view h'' self = Some p) /\
    (forall fac, exists h'',
        Store.mul_scalar self fac h' = Ok (tt, h'') /\
        view h'' self <> None /\
        view h'' c = Some p) /\
    (forall g q, view h' g = Some q ->
        match add_profile B p q with
        | Ok r => exists h'',
            Store.add B c g h' = Ok (tt, h'') /\
            view h'' c = Some r /\ view h'' self = Some p
        | Err e => Store.add B c g h' = Err e
        end) /\
    (forall g q, view h' g = Some q ->
        match add_profile B p q with
        | Ok r => exists h'',
            Store.add B self g h' = Ok (tt, h'') /\
            view h'' self = Some r /\ view h'' c = Some p
        | Err e => Store.add B self g h' = Err e
        end).
Proof.
  intros Hv c.
  destruct (@copy_owned _ _ _ Hv) as [h' [Hcopy Hown]].
  pose proof (@owned_extends _ _ _ _ Hown) as Hext.
  pose proof (@view_extends _ _ _ _ Hext Hv) as Hself.
  destruct Hown as [_ [Ha [[o [b [Ho [Hcons Hb]]]] Hview]]].
  fold c in Hview, Hcopy.
  destruct (@view_object _ _ _ Hv) as [os Hos].
  assert (self < length (objects h))%nat as Hlt
    by (apply nth_error_Some; congruence).
  assert (c <> self) as Hne by (unfold c; lia).
  assert (nth_error (objects h') c = Some o) as Hoc
    by (rewrite Ho; apply nth_error_snoc_last).
  assert (nth_error (objects h') self = Some os) as Hos'
    by (rewrite Ho; apply app_lookup; exact Hos).
  assert (forall r, In r (object_refs os) -> (r < length (arrays h))%nat)
    as Hold by (intros r Hr; eapply view_refs_valid; eassumption).
  assert (forall r, In r (object_refs o) -> (length (arrays h) <= r)%nat)
    as Hnew.
  { intros r Hr. pose proof (@consecutive_object_refs _ _ _ Hcons Hr). lia. }
  exists h'. split; [exact Hcopy|]. split; [exact Hne|].
  split; [exact Hview|]. split; [exact Hself|].
  split; [exists o; split; [exact Hoc|exact Hnew]|].
  split; [intro decimal; apply (@almost_equal_same _ _ _ p); assumption|].
  split; [|split; [|split]].
  - intro fac.
    destruct (@mul_scalar_spec _ _ _ fac Hview) as [h'' [Hrun [Hobj [_ [Hfr Hv']]]]].
    exists h''. split; [exact Hrun|]. split; [exact (Hv' o b Hoc Hcons)|].
    rewrite <- Hself. apply view_frame.
    + rewrite Hobj. reflexivity.
    + intros o' r Ho' Hr. rewrite Hos' in Ho'. injection Ho' as <-.
      apply (Hfr o r Hoc). intro Hin.
      apply value_refs_object_refs in Hin.
      specialize (Hold r Hr). specialize (Hnew r Hin). lia.
  - intro fac.
    destruct (@mul_scalar_spec _ _ _ fac Hself) as [h'' [Hrun [Hobj [Hlen [Hfr _]]]]].
    exists h''. split; [exact Hrun|]. split.
    + unfold view. rewrite Hobj, Hos'.
      assert (forall r, In r (object_refs os) ->
                        nth_error (arrays h'') r <> None) as Hval.
      { intros r Hr. apply nth_error_Some. rewrite Hlen.
        pose proof (@view_refs_valid _ _ _ _ r Hself Hos' Hr). lia. }
      destruct os as [x y|x y1 y2|x y mp]; cbn [object_refs In] in Hval.
      * pose proof (Hval x (or_introl eq_refl)).
        pose proof (Hval y (or_intror (or_introl eq_refl))).
        destruct (nth_error (arrays h'') x); [|congruence].
        destruct (nth_error (arrays h'') y); congruence.
      * pose proof (Hval x (or_introl eq_refl)).
        pose proof (Hval y1 (or_intror (or_introl eq_refl))).
        pose proof (Hval y2 (or_intror (or_intror (or_introl eq_refl)))).
        destruct (nth_error (arrays h'') x); [|congruence].
        destruct (nth_error (arrays h'') y1); [|congruence].
        destruct (nth_error (arrays h'') y2); congruence.
      * pose proof (Hval x (or_introl eq_refl)).
        pose proof (Hval y (or_intror (or_introl eq_refl))).
        pose proof (Hval mp (or_intror (or_intror (or_introl eq_refl)))).
        destruct (nth_error (arrays h'') x); [|congruence].
        destruct (nth_error (arrays h'') y); [|congruence].
        destruct (nth_error (arrays h'') mp); congruence.
    + rewrite <- Hview. apply view_frame.
      * rewrite Hobj. reflexivity.
      * intros o' r Ho' Hr. rewrite Hoc in Ho'. injection Ho' as <-.
        apply (Hfr os r Hos'). intro Hin.
        apply value_refs_object_refs in Hin.
        specialize (Hold r Hin). specialize (Hnew r Hr). lia.
  - intros g q Hg.
    pose proof (@add_refines B _ _ _ _ _ Hview Hg) as Hadd.
    destruct (add_profile B p q) as [r|e]; [|exact Hadd].
    destruct Hadd as [h'' [o' [Hrun [[ea Ha'] [Ho' [_ Hv']]]]]].
    exists h''. split; [exact Hrun|]. split; [exact Hv'|].
    apply (@rebind_frame h' h'' c self o' ea p Ha' Ho'); [congruence|exact Hself].
  - intros g q Hg.
    pose proof (@add_refines B _ _ _ _ _ Hself Hg) as Hadd.
    destruct (add_profile B p q) as [r|e]; [|exact Hadd].
    destruct Hadd as [h'' [o' [Hrun [[ea Ha'] [Ho' [_ Hv']]]]]].
    exists h''. split; [exact Hrun|]. split; [exact Hv'|].
    apply (@rebind_frame h' h'' self c o' ea p Ha' Ho'); [exact Hne|exact Hview].
Qed.

(** A copy of the stored function A, compared and then rescaled. *)
Lemma copy_independent_witness :
  exists h',
    Store.copy 0%nat store_AB = Ok (2%nat, h') /\
    view h' 2%nat = Some (Pwc pwc_A) /\
    Store.almost_equal 2%nat 0%nat 14 h' = Ok (true, h') /\
    (exists h'', Store.mul_scalar 2%nat (1 # 2) h' = Ok (tt, h'') /\
                 view h'' 0%nat = Some (Pwc pwc_A)).
Proof.
  destruct (@copy_independent MergeModel.impl store_AB 0%nat (Pwc pwc_A)
              eq_refl)
    as [h' [Hcopy [_ [Hc [_ [_ [Heq [Hmul _]]]]]]]].
  exists h'. split; [exact Hcopy|]. split; [exact Hc|].
  split; [apply Heq|].
  destruct (Hmul (1 # 2)) as [h'' [Hrun [_ H0]]].
  exists h''. split; [exact Hrun|exact H0].
Defined.

(** ** Further results: integrals over the whole domain *)

Lemma slice_from_one {A : Type} (l : list A) :
  slice l (Some 1%Z) None = firstn (length l - 1) (skipn 1 l).
Proof.
  unfold slice, len. change 1%Z with (Z.of_nat 1). rewrite slice_bound_nat.
  destruct l as [|h t]; [reflexivity|].
  cbn [length]. rewrite Nat.min_r by lia. reflexivity.
Qed.

Lemma slice_to_last {A : Type} (l : list A) :
  slice l None (Some (-1)%Z) = firstn (length l - 1) (skipn 0 l).
Proof.
  unfold slice, len, slice_bound. cbn [Z.ltb Z.compare].
  f_equal. lia.
Qed.

(** The whole-domain integral of a piece-wise constant function, as a
    sum over the intervals. *)
Lemma pwc_integral_none_sum (f : PWC.t) (N : nat) :
  length (PWC.x f) = S N -> length (PWC.y f) = N ->
  exists v,
    PWC.integral f None = Ok v /\
    v == sum_range
           (fun i => (nth (S i) (PWC.x f) 0 - nth i (PWC.x f) 0)
                     * nth i (PWC.y f) 0) 0 N.
Proof.
  intros Hx Hy. destruct f as [x y]; cbn [PWC.x PWC.y] in *.
  unfold PWC.integral; cbn [PWC.x PWC.y].
  rewrite slice_from_one, slice_to_last, Hx.
  replace (S N - 1)%nat with N by lia.
  rewrite broadcast2_same
    by (rewrite !length_firstn_skipn by lia; reflexivity).
  cbn [bind].
  rewrite broadcast2_same
    by (rewrite length_map2, !length_firstn_skipn by lia; lia).
  cbn [bind]. eexists; split; [reflexivity|].
  rewrite np_sum_Qsum.
  pose proof (@Qsum_const_steps x y 0%nat N ltac:(lia) ltac:(lia)) as Hsum.
  replace (firstn N (skipn 0 y)) with y in Hsum
    by (cbn [skipn]; rewrite firstn_all2 by lia; reflexivity).
  rewrite Hsum. reflexivity.
Qed.

(** X1: for a piece-wise constant function with [len(y) = len(x) - 1],
    [integral(None)] is the sum over all intervals of
    [(x[i+1]-x[i])*y[i]]. *)
Theorem pwc_integral_whole_sum (f : PWC.t) (N : nat) :
  length (PWC.x f) = S N -> length (PWC.y f) = N ->
  exists v,
    PWC.integral f None = Ok v /\
    v == sum_range
           (fun i => (nth (S i) (PWC.x f) 0 - nth i (PWC.x f) 0)
                     * nth i (PWC.y f) 0) 0 N.
Proof. intros Hx Hy. exact (@pwc_integral_none_sum f N Hx Hy). Qed.

Lemma pwc_integral_whole_sum_witness :
  exists v, PWC.integral pwc_A None = Ok v /\ v == 6.
Proof.
  destruct (@pwc_integral_whole_sum pwc_A 3%nat eq_refl eq_refl)
    as [v [Hv Heq]].
  exists v. split; [exact Hv|]. rewrite Heq. vm_compute. reflexivity.
Defined.




(** ** Further results: the domain guard *)






(** The guard of the discrete kind. *)
Lemma get_indices_outside (f : DF.t) (a b : Q) (N : nat) :
  strictly_increasing (DF.x f) = true -> length (DF.x f) = S N ->
  a < nth 0 (DF.x f) 0 \/ nth N (DF.x f) 0 < b ->
  DF.get_indices f (a, b) = Err (AssertionError InvalidAveragingInterval).
Proof.
  intros Hs Hl [Ha|Hb]; unfold DF.get_indices; cbn [fst snd].
  - rewrite (@searchsorted_right_zero (DF.x f) a ltac:(lia) Ha). reflexivity.
  - rewrite (searchsorted_left_beyond (DF.x f) Hs Hl Hb).
    unfold len. rewrite Hl, Z.ltb_irrefl, andb_false_r. reflexivity.
Qed.

Lemma get_indices_inside (f : DF.t) (a b : Q) (N : nat) :
  length (DF.x f) = S N ->
  nth 0 (DF.x f) 0 <= a -> b <= nth N (DF.x f) 0 ->
  DF.get_indices f (a, b)
  = Ok (Z.of_nat (searchsorted_right (DF.x f) a),
        Z.of_nat (searchsorted_left (DF.x f) b)).
Proof.
  intros Hl Ha Hb. unfold DF.get_indices; cbn [fst snd].
  pose proof (@searchsorted_right_pos (DF.x f) a ltac:(lia) Ha).
  pose proof (@searchsorted_left_stop (DF.x f) b N ltac:(lia) Hb).
  assert ((0 <? Z.of_nat (searchsorted_right (DF.x f) a))%Z = true) as ->
    by (apply Z.ltb_lt; lia).
  assert ((Z.of_nat (searchsorted_left (DF.x f) b) <? len (DF.x f))%Z = true)
    as -> by (apply Z.ltb_lt; unfold len; lia).
  reflexivity.
Qed.

Lemma integral_loop_outside (f : DF.t) (ivals : list (Q * Q)) (N : nat) :
  strictly_increasing (DF.x f) = true -> length (DF.x f) = S N ->
  Exists (fun iv => fst iv < nth 0 (DF.x f) 0 \/ nth N (DF.x f) 0 < snd iv)
    ivals ->
  forall v m,
    DF.integral_loop f ivals v m
    = Err (AssertionError InvalidAveragingInterval).
Proof.
  intros Hs Hl Hex. induction ivals as [|[a b] ivals IH]; intros v m.
  - inversion Hex.
  - cbn [DF.integral_loop].
    destruct (Qlt_le_dec a (nth 0 (DF.x f) 0)) as [Ha|Ha].
    { rewrite (@get_indices_outside f a b N Hs Hl (or_introl Ha)). reflexivity. }
    destruct (Qlt_le_dec (nth N (DF.x f) 0) b) as [Hb|Hb].
    { rewrite (@get_indices_outside f a b N Hs Hl (or_intror Hb)). reflexivity. }
    rewrite (@get_indices_inside f a b N Hl Ha Hb). cbn [bind].
    apply IH. inversion Hex as [? ? H|? ? H]; subst; [|exact H].
    cbn [fst snd] in H. destruct H as [H|H].
    + exfalso. apply (Qlt_not_le _ _ H Ha).
    + exfalso. apply (Qlt_not_le _ _ H Hb).
Qed.

(** X4: for a discrete function with strictly increasing points,
    [integral] of a pair, or of a sequence of pairs, fails with the
    assertion as soon as one pair has its left bound below [x[0]] or its
    right bound above [x[-1]]. *)
Theorem discrete_integral_outside (f : DF.t) (N : nat) :
  strictly_increasing (DF.x f) = true -> length (DF.x f) = S N ->
  (forall a b,
      a < nth 0 (DF.x f) 0 \/ nth N (DF.x f) 0 < b ->
      DF.integral f (IPair a b)
      = Err (AssertionError InvalidAveragingInterval)) /\
  (forall ivals,
      Exists (fun iv => fst iv < nth 0 (DF.x f) 0 \/
                        nth N (DF.x f) 0 < snd iv) ivals ->
      DF.integral f (ISeq ivals)
      = Err (AssertionError InvalidAveragingInterval)).
Proof.
  intros Hs Hl. split.
  - intros a b H. unfold DF.integral.
    rewrite (@get_indices_outside f a b N Hs Hl H). reflexivity.
  - intros ivals Hex. unfold DF.integral.
    destruct ivals as [|iv ivals]; [inversion Hex|].
    rewrite (@integral_loop_outside f (iv :: ivals) N Hs Hl Hex). reflexivity.
Qed.

Lemma discrete_integral_outside_witness :
  DF.integral disc_D (IPair 1 5)
  = Err (AssertionError InvalidAveragingInterval) /\
  DF.integral disc_D (ISeq [(1, 2); (-1, 3)])
  = Err (AssertionError InvalidAveragingInterval).
Proof.
  destruct (@discrete_integral_outside disc_D 4%nat eq_refl eq_refl)
    as [Hp Hs].
  split.
  - apply Hp. right. reflexivity.
  - apply Hs. right. left. cbn [fst snd]. left. reflexivity.
Defined.

(** ** Further results: the sub-interval integral of a constant function *)

Lemma searchsorted_right_before (x : list Q) (a : Q) (i : nat) :
  (i < searchsorted_right x a)%nat -> nth i x 0 <= a.
Proof.
  revert i. induction x as [|h t IH]; intros i Hi; simpl in Hi; [lia|].
  destruct (Qle_bool h a) eqn:E; [|lia].
  destruct i as [|i]; [apply Qle_bool_iff; exact E|].
  apply IH. lia.
Qed.

Lemma searchsorted_right_at (x : list Q) (a : Q) :
  (searchsorted_right x a < length x)%nat ->
  a < nth (searchsorted_right x a) x 0.
Proof.
  induction x as [|h t IH]; simpl; intro Hl; [lia|].
  destruct (Qle_bool h a) eqn:E.
  - apply IH. lia.
  - simpl. apply Qnot_le_lt. intro H. apply Qle_bool_iff in H. congruence.
Qed.

Lemma searchsorted_left_before (x : list Q) (b : Q) (i : nat) :
  (i < searchsorted_left x b)%nat -> nth i x 0 < b.
Proof.
  revert i. induction x as [|h t IH]; intros i Hi; simpl in Hi; [lia|].
  destruct (Qlt_bool h b) eqn:E; [|lia].
  destruct i as [|i]; [apply Qlt_bool_iff; exact E|].
  apply IH. lia.
Qed.

Lemma searchsorted_left_at (x : list Q) (b : Q) :
  (searchsorted_left x b < length x)%nat ->
  b <= nth (searchsorted_left x b) x 0.
Proof.
  induction x as [|h t IH]; simpl; intro Hl; [lia|].
  destruct (Qlt_bool h b) eqn:E.
  - apply IH. lia.
  - simpl. apply Qlt_bool_false. exact E.
Qed.

Lemma strictly_increasing_le (x : list Q) (i j : nat) :
  strictly_increasing x = true -> (i <= j)%nat -> (j < length x)%nat ->
  nth i x 0 <= nth j x 0.
Proof.
  intros Hs Hij Hj. destruct (Nat.eq_dec i j) as [->|Hne].
  - apply Qle_refl.
  - apply Qlt_le_weak. apply strictly_increasing_lt; [exact Hs|lia|exact Hj].
Qed.

(** On strictly increasing breakpoints the located index is the number of
    breakpoints not above (right) or below (left) the bound. *)
Lemma searchsorted_right_is (x : list Q) (a : Q) (k : nat) :
  strictly_increasing x = true -> (k <= length x)%nat ->
  (forall i, (i < k)%nat -> nth i x 0 <= a) ->
  ((k < length x)%nat -> a < nth k x 0) ->
  searchsorted_right x a = k.
Proof.
  intros Hs Hk Hlow Hhigh.
  pose proof (searchsorted_right_le x a) as Hle.
  destruct (Nat.lt_trichotomy (searchsorted_right x a) k) as [H|[H|H]];
    [|exact H|].
  - exfalso. pose proof (searchsorted_right_at x a ltac:(lia)) as Hat.
    specialize (Hlow _ H). apply (Qlt_not_le _ _ Hat Hlow).
  - exfalso. pose proof (@searchsorted_right_before x a k H) as Hb.
    specialize (Hhigh ltac:(lia)). apply (Qlt_not_le _ _ Hhigh Hb).
Qed.

Lemma searchsorted_left_is (x : list Q) (b : Q) (k : nat) :
  strictly_increasing x = true -> (k <= length x)%nat ->
  (forall i, (i < k)%nat -> nth i x 0 < b) ->
  ((k < length x)%nat -> b <= nth k x 0) ->
  searchsorted_left x b = k.
Proof.
  intros Hs Hk Hlow Hhigh.
  pose proof (searchsorted_left_le x b) as Hle.
  destruct (Nat.lt_trichotomy (searchsorted_left x b) k) as [H|[H|H]];
    [|exact H|].
  - exfalso. pose proof (searchsorted_left_at x b ltac:(lia)) as Hat.
    specialize (Hlow _ H). apply (Qlt_not_le _ _ Hlow Hat).
  - exfalso. pose proof (@searchsorted_left_before x b k H) as Hb.
    specialize (Hhigh ltac:(lia)). apply (Qlt_not_le _ _ Hb Hhigh).
Qed.

(** The value returned once the two indices are located. *)
Lemma pwc_integral_at (f : PWC.t) (a b : Q) (N s e : nat) :
  length (PWC.x f) = S N -> length (PWC.y f) = N ->
  searchsorted_right (PWC.x f) a = s ->
  searchsorted_left (PWC.x f) b = S e ->
  (1 <= s <= N)%nat -> (e < N)%nat ->
  exists v,
    PWC.integral f (Some (a, b)) = Ok v /\
    v == sum_range
           (fun i => (nth (S i) (PWC.x f) 0 - nth i (PWC.x f) 0)
                     * nth i (PWC.y f) 0) s (e - s)
         + (nth s (PWC.x f) 0 - a) * nth (s - 1) (PWC.y f) 0
         + (b - nth e (PWC.x f) 0) * nth e (PWC.y f) 0.
Proof.
  intros Hlx Hly Hs He Hsr Her.
  destruct f as [x y]; cbn [PWC.x PWC.y] in *.
  unfold PWC.integral; cbn [PWC.x PWC.y]. rewrite Hs, He.
  replace (Z.of_nat (S e) - 1)%Z with (Z.of_nat e) by lia.
  assert ((0 <? Z.of_nat s)%Z = true) as -> by (apply Z.ltb_lt; lia).
  assert ((Z.of_nat e <? len x)%Z = true) as ->
    by (apply Z.ltb_lt; unfold len; lia).
  cbn [andb].
  replace (Z.of_nat s + 1)%Z with (Z.of_nat (S s)) by lia.
  replace (Z.of_nat e + 1)%Z with (Z.of_nat (S e)) by lia.
  replace (Z.of_nat s - 1)%Z with (Z.of_nat (s - 1)) by lia.
  rewrite !slice_nat by lia. simpl Nat.sub.
  remember (e - s)%nat as n eqn:Hn.
  rewrite (getitem_nat 0 x (i:=s)) by lia.
  rewrite (getitem_nat 0 y (i:=(s - 1)%nat)) by lia.
  rewrite (getitem_nat 0 x (i:=e)) by lia.
  rewrite (getitem_nat 0 y (i:=e)) by lia.
  destruct (Nat.le_gt_cases s e) as [Hle|Hgt].
  - rewrite broadcast2_same
      by (rewrite !length_firstn_skipn by lia; reflexivity).
    cbn [bind]. rewrite broadcast2_same
      by (rewrite length_map2, !length_firstn_skipn by lia; lia).
    cbn [bind]. eexists; split; [reflexivity|].
    rewrite np_sum_Qsum.
    pose proof (@Qsum_const_steps x y s n ltac:(lia) ltac:(lia)) as Hsum.
    rewrite Hsum. reflexivity.
  - replace n with 0%nat by lia.
    cbn [firstn broadcast2 length Nat.eqb map2 bind].
    eexists; split; [reflexivity|]. reflexivity.
Qed.

(** X5: when both bounds fall within one interval, [x[k] <= a < x[k+1]]
    and [x[k] < b <= x[k+1]], the value returned is
    [(x[k+1]-a)*y[k] + (b-x[k])*y[k]], that is the area [(b-a)*y[k]] plus
    the area of the whole interval [(x[k+1]-x[k])*y[k]]. *)
Theorem pwc_integral_within_interval (f : PWC.t) (a b : Q) (N k : nat) :
  strictly_increasing (PWC.x f) = true ->
  length (PWC.x f) = S N -> length (PWC.y f) = N -> (k < N)%nat ->
  nth k (PWC.x f) 0 <= a -> a < nth (S k) (PWC.x f) 0 ->
  nth k (PWC.x f) 0 < b -> b <= nth (S k) (PWC.x f) 0 ->
  exists v,
    PWC.integral f (Some (a, b)) = Ok v /\
    v == (b - a) * nth k (PWC.y f) 0
         + (nth (S k) (PWC.x f) 0 - nth k (PWC.x f) 0) * nth k (PWC.y f) 0.
Proof.
  intros Hs Hlx Hly Hk Ha1 Ha2 Hb1 Hb2.
  assert (searchsorted_right (PWC.x f) a = S k) as Hsr.
  { apply searchsorted_right_is; [exact Hs|lia| |intros _; exact Ha2].
    intros i Hi. apply Qle_trans with (nth k (PWC.x f) 0); [|exact Ha1].
    apply strictly_increasing_le; [exact Hs|lia|lia]. }
  assert (searchsorted_left (PWC.x f) b = S k) as Hsl.
  { apply searchsorted_left_is; [exact Hs|lia| |intros _; exact Hb2].
    intros i Hi. apply Qle_lt_trans with (nth k (PWC.x f) 0); [|exact Hb1].
    apply strictly_increasing_le; [exact Hs|lia|lia]. }
  destruct (@pwc_integral_at f a b N (S k) k Hlx Hly Hsr Hsl
              ltac:(lia) ltac:(lia)) as [v [Hv Heq]].
  exists v. split; [exact Hv|]. rewrite Heq.
  replace (k - S k)%nat with 0%nat by lia.
  replace (S k - 1)%nat with k by lia.
  cbn [sum_range]. ring.
Qed.

Lemma pwc_integral_within_interval_witness :
  exists v, PWC.integral pwc_A (Some (5 # 4, 7 # 4)) = Ok v /\ v == 3.
Proof.
  destruct (@pwc_integral_within_interval pwc_A (5 # 4) (7 # 4) 3%nat 1%nat)
    as [v [Hv Heq]]; try reflexivity; try (vm_compute; congruence); try lia.
  exists v. split; [exact Hv|]. rewrite Heq. vm_compute. reflexivity.
Defined.

Lemma sum_range_ext (g g' : nat -> Q) (lo n : nat) :
  (forall i, (lo <= i < lo + n)%nat -> g i == g' i) ->
  sum_range g lo n == sum_range g' lo n.
Proof.
  revert lo. induction n as [|n IH]; intros lo H; cbn [sum_range].
  - reflexivity.
  - rewrite (H lo) by lia. rewrite (IH (S lo)); [reflexivity|].
    intros i Hi. apply H. lia.
Qed.

Lemma sum_range_split (g : nat -> Q) (lo n m : nat) :
  sum_range g lo (n + m) == sum_range g lo n + sum_range g (lo + n) m.
Proof.
  revert lo. induction n as [|n IH]; intro lo; cbn [sum_range Nat.add].
  - rewrite Nat.add_0_r. ring.
  - rewrite IH. replace (S lo + n)%nat with (lo + S n)%nat by lia. ring.
Qed.

Lemma sum_range_zero (g : nat -> Q) (lo n : nat) :
  (forall i, (lo <= i < lo + n)%nat -> g i == 0) -> sum_range g lo n == 0.
Proof.
  revert lo. induction n as [|n IH]; intros lo H; cbn [sum_range].
  - reflexivity.
  - rewrite (H lo) by lia. rewrite (IH (S lo)); [ring|].
    intros i Hi. apply H. lia.
Qed.

Lemma Qle_bool_false_lt (u v : Q) : Qle_bool u v = false -> v < u.
Proof.
  intro H. apply Qnot_le_lt. intro Hle. apply Qle_bool_iff in Hle. congruence.
Qed.

(** Case analysis on the comparisons of an overlap. *)
Ltac qle_case u v :=
  let E := fresh "E" in
  destruct (Qle_bool u v) eqn:E;
  [apply Qle_bool_iff in E | apply Qle_bool_false_lt in E].

Ltac overlap_cases xl xr a b :=
  unfold overlap; cbv zeta;
  qle_case xl a; qle_case b xr;
  match goal with
  | |- context [Qle_bool ?u ?v] => qle_case u v
  end; lra.

Lemma overlap_before (xl xr a b : Q) : xr <= a -> overlap xl xr a b == 0.
Proof. intro H. overlap_cases xl xr a b. Qed.

Lemma overlap_after (xl xr a b : Q) : b <= xl -> overlap xl xr a b == 0.
Proof. intro H. overlap_cases xl xr a b. Qed.

Lemma overlap_full (xl xr a b : Q) :
  a <= xl -> xl <= xr -> xr <= b -> overlap xl xr a b == xr - xl.
Proof. intros H1 H2 H3. overlap_cases xl xr a b. Qed.

Lemma overlap_left_edge (xl xr a b : Q) :
  xl <= a -> a <= xr -> xr <= b -> overlap xl xr a b == xr - a.
Proof. intros H1 H2 H3. overlap_cases xl xr a b. Qed.

Lemma overlap_right_edge (xl xr a b : Q) :
  a <= xl -> xl <= b -> b <= xr -> overlap xl xr a b == b - xl.
Proof. intros H1 H2 H3. overlap_cases xl xr a b. Qed.

(** X6: when a breakpoint lies strictly between the two bounds of a query
    inside the domain, [integral([a,b])] is the integral of the step
    function over [[a, b]]. *)
Theorem pwc_integral_exact (f : PWC.t) (a b : Q) (N k : nat) :
  strictly_increasing (PWC.x f) = true ->
  length (PWC.x f) = S N -> length (PWC.y f) = N ->
  nth 0 (PWC.x f) 0 <= a -> b <= nth N (PWC.x f) 0 ->
  (k <= N)%nat -> a < nth k (PWC.x f) 0 -> nth k (PWC.x f) 0 < b ->
  exists v,
    PWC.integral f (Some (a, b)) = Ok v /\ v == step_integral f a b.
Proof.
  intros Hs Hlx Hly Ha Hb Hk Hak Hkb.
  remember (PWC.x f) as x eqn:Ex in *. remember (PWC.y f) as y eqn:Ey in *.
  pose proof (@searchsorted_right_pos x a ltac:(lia) Ha) as Hs1.
  pose proof (@searchsorted_right_stop x a k ltac:(lia) Hak) as Hs2.
  pose proof (@searchsorted_left_stop x b N ltac:(lia) Hb) as He2.
  assert (k < searchsorted_left x b)%nat as He1.
  { destruct (Nat.lt_ge_cases k (searchsorted_left x b)) as [H|H]; [exact H|].
    exfalso. pose proof (searchsorted_left_at x b ltac:(lia)) as Hat.
    pose proof (@strictly_increasing_le x _ k Hs H ltac:(lia)) as Hle.
    apply (Qlt_not_le _ _ Hkb). apply Qle_trans with (1 := Hat). exact Hle. }
  remember (searchsorted_right x a) as s eqn:Es.
  remember (searchsorted_left x b) as E eqn:EE.
  destruct E as [|e]; [lia|].
  rewrite Ex in Es, EE, Hlx. rewrite Ey in Hly.
  destruct (@pwc_integral_at f a b N s e Hlx Hly (eq_sym Es) (eq_sym EE)
              ltac:(lia) ltac:(lia)) as [v [Hv Heq]].
  rewrite <- Ex in Es, EE, Hlx. rewrite <- Ey in Hly.
  exists v. split; [exact Hv|]. rewrite Heq. clear Hv Heq v.
  rewrite <- Ex, <- Ey.
  (* the breakpoints around the two bounds *)
  assert (nth (s - 1) x 0 <= a) as Hsa
    by (apply searchsorted_right_before; lia).
  assert (a < nth s x 0) as Has
    by (rewrite Es; apply searchsorted_right_at; lia).
  assert (nth e x 0 < b) as Heb
    by (apply searchsorted_left_before; lia).
  assert (b <= nth (S e) x 0) as Hbe
    by (rewrite EE; apply searchsorted_left_at; lia).
  assert (forall i j, (i <= j)%nat -> (j <= N)%nat -> nth i x 0 <= nth j x 0)
    as Hmono by (intros; apply strictly_increasing_le; [exact Hs|lia|lia]).
  unfold step_integral. rewrite <- Ex, <- Ey, Hly.
  replace N with ((s - 1) + (1 + ((e - s) + (1 + (N - S e)))))%nat at 1
    by lia.
  rewrite !sum_range_split. cbn [sum_range Nat.add].
  replace (s - 1 + 1)%nat with s by lia.
  replace (s + (e - s))%nat with e by lia.
  replace (e + 1)%nat with (S e) by lia.
  rewrite (@sum_range_zero _ 0 (s - 1)).
  2:{ intros i Hi. rewrite overlap_before; [ring|].
      apply Qle_trans with (nth (s - 1) x 0); [apply Hmono; lia|exact Hsa]. }
  rewrite (@sum_range_zero _ (S e) (N - S e)).
  2:{ intros i Hi. rewrite overlap_after; [ring|].
      apply Qle_trans with (nth (S e) x 0); [exact Hbe|apply Hmono; lia]. }
  rewrite (@sum_range_ext
             (fun i => nth i y 0 * overlap (nth i x 0) (nth (S i) x 0) a b)
             (fun i => (nth (S i) x 0 - nth i x 0) * nth i y 0) s (e - s)).
  2:{ intros i Hi. rewrite overlap_full; [ring| | |].
      - apply Qle_trans with (nth s x 0); [lra|apply Hmono; lia].
      - apply Hmono; lia.
      - apply Qle_trans with (nth e x 0); [apply Hmono; lia|lra]. }
  replace (S (s - 1)) with s by lia.
  rewrite (@overlap_left_edge (nth (s - 1) x 0) (nth s x 0) a b);
    [|exact Hsa|lra|].
  2:{ apply Qle_trans with (nth e x 0); [apply Hmono; lia|lra]. }
  rewrite (@overlap_right_edge (nth e x 0) (nth (S e) x 0) a b);
    [|idtac|lra|exact Hbe].
  2:{ apply Qle_trans with (nth s x 0); [lra|apply Hmono; lia]. }
  ring.
Qed.

Lemma pwc_integral_exact_witness :
  exists v, PWC.integral pwc_A (Some (1 # 2, 5 # 2)) = Ok v
            /\ v == step_integral pwc_A (1 # 2) (5 # 2).
Proof.
  apply (@pwc_integral_exact pwc_A (1 # 2) (5 # 2) 3%nat 1%nat);
    try reflexivity; try (vm_compute; congruence); lia.
Defined.

Lemma sum_range_last (g : nat -> Q) (lo n : nat) :
  sum_range g lo (S n) == sum_range g lo n + g (lo + n)%nat.
Proof.
  replace (S n) with (n + 1)%nat by lia. rewrite sum_range_split.
  cbn [sum_range]. ring.
Qed.

(** X7: with at least two intervals, the integral over the whole domain
    given as the pair [[x[0], x[-1]]] equals [integral(None)]. *)
Theorem pwc_integral_full_domain (f : PWC.t) (N : nat) :
  strictly_increasing (PWC.x f) = true ->
  length (PWC.x f) = S (S (S N)) -> length (PWC.y f) = S (S N) ->
  exists v w,
    PWC.integral f (Some (nth 0 (PWC.x f) 0, nth (S (S N)) (PWC.x f) 0))
    = Ok v /\
    PWC.integral f None = Ok w /\ v == w.
Proof.
  intros Hs Hlx Hly.
  remember (PWC.x f) as x eqn:Ex in *.
  assert (forall i j, (i < j)%nat -> (j <= S (S N))%nat ->
                      nth i x 0 < nth j x 0) as Hlt
    by (intros; apply strictly_increasing_lt; [exact Hs|lia|lia]).
  assert (searchsorted_right x (nth 0 x 0) = 1%nat) as Hsr.
  { apply searchsorted_right_is; [exact Hs|lia| |].
    - intros i Hi. replace i with 0%nat by lia. apply Qle_refl.
    - intros _. apply Hlt; lia. }
  assert (searchsorted_left x (nth (S (S N)) x 0) = S (S N)) as Hsl.
  { apply searchsorted_left_is; [exact Hs|lia| |].
    - intros i Hi. apply Hlt; lia.
    - intros _. apply Qle_refl. }
  rewrite Ex in Hsr, Hsl, Hlx.
  destruct (@pwc_integral_at f _ _ (S (S N))
              1%nat (S N) Hlx Hly Hsr Hsl ltac:(lia) ltac:(lia))
    as [v [Hv Heq]].
  destruct (@pwc_integral_none_sum f (S (S N)) Hlx Hly) as [w [Hw Hweq]].
  exists v, w. split; [rewrite Ex; exact Hv|]. split; [exact Hw|].
  rewrite Heq, Hweq. rewrite <- Ex.
  replace (S N - 1)%nat with N by lia.
  match goal with
  | |- _ == sum_range ?g 0 (S (S N)) =>
      change (sum_range g 0 (S (S N))) with (g 0%nat + sum_range g 1 (S N));
      rewrite (sum_range_last g 1 N)
  end.
  cbv beta. cbn [Nat.add Nat.sub]. ring.
Qed.

Lemma pwc_integral_full_domain_witness :
  exists v w,
    PWC.integral pwc_A (Some (0, 3)) = Ok v /\
    PWC.integral pwc_A None = Ok w /\ v == w.
Proof.
  apply (@pwc_integral_full_domain pwc_A 1%nat); reflexivity.
Defined.


(** ** Further results: averages and weighted means *)





(** ** Further results: discrete integrals over a pair *)

Lemma strictly_increasing_tail (h : Q) (t : list Q) :
  strictly_increasing (h :: t) = true ->
  strictly_increasing t = true /\
  forall i, (i < length t)%nat -> h < nth i t 0.
Proof.
  intro Hs. split.
  - destruct t as [|h' t]; [reflexivity|].
    cbn [strictly_increasing] in Hs. apply andb_true_iff in Hs. tauto.
  - intros i Hi.
    apply (@strictly_increasing_lt (h :: t) 0 (S i) Hs); simpl; lia.
Qed.

Lemma inside_values_cons (h u : Q) (t w : list Q) (a b : Q) :
  inside_values (h :: t) (u :: w) a b
  = if Qlt_bool a h && Qlt_bool h b
    then u :: inside_values t w a b else inside_values t w a b.
Proof.
  unfold inside_values, strictly_inside. cbn [combine filter fst].
  destruct (Qlt_bool a h && Qlt_bool h b); reflexivity.
Qed.

Lemma inside_values_none_after (x v : list Q) (a b : Q) :
  (forall i, (i < length x)%nat -> b <= nth i x 0) ->
  inside_values x v a b = [].
Proof.
  revert v. induction x as [|h t IH]; intros v H; [reflexivity|].
  destruct v as [|u w]; [reflexivity|].
  rewrite inside_values_cons.
  assert (Qlt_bool h b = false) as ->
    by (apply Qlt_bool_false; apply (H 0%nat); simpl; lia).
  rewrite andb_false_r. apply IH. intros i Hi. apply (H (S i)). simpl. lia.
Qed.

Lemma searchsorted_right_none (x : list Q) (a : Q) :
  (forall i, (i < length x)%nat -> a < nth i x 0) ->
  searchsorted_right x a = 0%nat.
Proof.
  destruct x as [|h t]; intro H; [reflexivity|].
  apply searchsorted_right_zero; [simpl; lia|].
  apply (H 0%nat). simpl. lia.
Qed.

(** The slice between the two located indices holds the entries at the
    points strictly between the bounds. *)
Lemma located_slice_inside (x : list Q) (a b : Q) :
  strictly_increasing x = true ->
  forall v : list Q,
    length v = length x ->
    firstn (searchsorted_left x b - searchsorted_right x a)
      (skipn (searchsorted_right x a) v)
    = inside_values x v a b.
Proof.
  induction x as [|h t IH]; intros Hs v Hl.
  - destruct v; [reflexivity|discriminate].
  - destruct v as [|u w]; [discriminate|]. cbn [length] in Hl.
    destruct (@strictly_increasing_tail h t Hs) as [Ht Hall].
    specialize (IH Ht w ltac:(lia)).
    rewrite inside_values_cons.
    cbn [searchsorted_right searchsorted_left].
    destruct (Qle_bool h a) eqn:Ea; destruct (Qlt_bool h b) eqn:Eb.
    + (* h <= a, h < b *)
      assert (Qlt_bool a h = false) as -> by
        (apply Qlt_bool_false; apply Qle_bool_iff; exact Ea).
      cbn [andb skipn Nat.sub]. exact IH.
    + (* h <= a, b <= h *)
      assert (Qlt_bool a h = false) as -> by
        (apply Qlt_bool_false; apply Qle_bool_iff; exact Ea).
      cbn [andb Nat.sub firstn].
      symmetry. apply inside_values_none_after.
      intros i Hi. apply Qlt_bool_false in Eb.
      apply Qle_trans with h; [exact Eb|]. apply Qlt_le_weak, Hall, Hi.
    + (* a < h, h < b *)
      apply Qle_bool_false_lt in Ea.
      assert (Qlt_bool a h = true) as -> by (apply Qlt_bool_iff; exact Ea).
      cbn [andb skipn]. rewrite Nat.sub_0_r. cbn [firstn].
      f_equal. rewrite <- IH.
      rewrite (@searchsorted_right_none t a).
      * rewrite Nat.sub_0_r. reflexivity.
      * intros i Hi. apply Qlt_trans with h; [exact Ea|apply Hall, Hi].
    + (* a < h, b <= h *)
      apply Qle_bool_false_lt in Ea.
      assert (Qlt_bool a h = true) as -> by (apply Qlt_bool_iff; exact Ea).
      cbn [andb Nat.sub firstn].
      symmetry. apply inside_values_none_after.
      intros i Hi. apply Qlt_bool_false in Eb.
      apply Qle_trans with h; [exact Eb|]. apply Qlt_le_weak, Hall, Hi.
Qed.

(** X9: for a discrete function with strictly increasing points and a
    pair [[a, b]] inside the domain, [integral([a,b])] is the sum of [y]
    over the points strictly between [a] and [b] divided by the sum of
    [mp] over the same points; a point at [a] or at [b] is left out. *)
Theorem discrete_integral_pair_inside (f : DF.t) (a b : Q) (N : nat) :
  strictly_increasing (DF.x f) = true ->
  length (DF.x f) = S N ->
  length (DF.y f) = S N -> length (DF.mp f) = S N ->
  nth 0 (DF.x f) 0 <= a -> b <= nth N (DF.x f) 0 ->
  exists r,
    DF.integral f (IPair a b) = Ok r /\
    num_eq r (fdiv (Qsum (inside_values (DF.x f) (DF.y f) a b))
                   (Qsum (inside_values (DF.x f) (DF.mp f) a b))).
Proof.
  intros Hs Hlx Hly Hlm Ha Hb.
  unfold DF.integral. rewrite (@get_indices_inside f a b N Hlx Ha Hb).
  cbn [bind fst snd].
  pose proof (@searchsorted_left_stop (DF.x f) b N ltac:(lia) Hb) as He.
  rewrite !slice_nat by lia.
  rewrite (@located_slice_inside (DF.x f) a b Hs (DF.y f)) by congruence.
  rewrite (@located_slice_inside (DF.x f) a b Hs (DF.mp f)) by congruence.
  eexists. split; [reflexivity|].
  apply fdiv_compat; apply np_sum_Qsum.
Qed.

Lemma discrete_integral_pair_inside_witness :
  exists r,
    DF.integral disc_D (IPair 1 3) = Ok r /\
    num_eq r (Some 1).
Proof.
  destruct (@discrete_integral_pair_inside disc_D 1 3 4%nat)
    as [r [Hr He]]; try reflexivity; try (vm_compute; congruence).
  exists r. split; [exact Hr|].
  eapply num_eq_trans; [exact He|]. vm_compute. reflexivity.
Defined.
(** ** Further results: scaling *)

Lemma Qsum_scale (fac : Q) (l : list Q) :
  Qsum (scale fac l) == Qsum l * fac.
Proof.
  induction l as [|u l IH]; cbn [scale map Qsum]; [ring|].
  fold (scale fac l). rewrite IH. ring.
Qed.

Lemma Qsum_map2_scale (fac : Q) (d y : list Q) :
  Qsum (map2 Qmult d (scale fac y)) == Qsum (map2 Qmult d y) * fac.
Proof.
  revert y. induction d as [|u d IH]; intros [|v y];
    cbn [scale map map2 Qsum]; try ring.
  fold (scale fac y). rewrite IH. ring.
Qed.

Lemma Qsum_map2_scale_sum (fac : Q) (d y1 y2 : list Q) :
  Qsum (map2 Qmult d (map2 Qplus (scale fac y1) (scale fac y2)))
  == Qsum (map2 Qmult d (map2 Qplus y1 y2)) * fac.
Proof.
  revert y1 y2. induction d as [|u d IH]; intros [|v1 y1] [|v2 y2];
    cbn [scale map map2 Qsum]; try ring.
  fold (scale fac y1) (scale fac y2). rewrite IH. ring.
Qed.

Lemma slice_scale (fac : Q) (l : list Q) (s e : option Z) :
  slice (scale fac l) s e = scale fac (slice l s e).
Proof.
  unfold slice, scale, len. rewrite length_map.
  rewrite skipn_map, firstn_map. reflexivity.
Qed.

Lemma fdiv_scale (a a' b fac : Q) :
  a' == a * fac -> num_eq (fdiv a' b) (nmul (fdiv a b) (Some fac)).
Proof.
  intro H. unfold fdiv. destruct (Qeq_bool b 0) eqn:E; [exact I|].
  cbn [nmul num_eq]. apply Qeq_bool_neq in E. rewrite H. field. exact E.
Qed.

(** What [mul_scalar] does to the whole-domain integral, on values. *)
Lemma profile_integral_scale (p : profile) (fac : Q) :
  well_shaped p ->
  exists v v',
    profile_integral p = Ok v /\
    profile_integral (mul_scalar_profile fac p) = Ok v' /\
    num_eq v' (nmul v (Some fac)).
Proof.
  destruct p as [[x y]|[x y1 y2]|[x y m]];
    cbn [well_shaped mul_scalar_profile profile_integral
         PWC.x PWC.y PWL.x PWL.y1 PWL.y2 DF.x DF.y DF.mp].
  - intro Hx. unfold PWC.integral; cbn [PWC.x PWC.y].
    rewrite broadcast2_same
      by (rewrite length_slice_tail, length_slice_init; reflexivity).
    cbn [bind].
    rewrite !broadcast2_same
      by (unfold scale; rewrite ?length_map, length_map2, length_slice_tail,
            length_slice_init; lia).
    cbn [bind]. do 2 eexists. split; [reflexivity|]. split; [reflexivity|].
    cbn [nmul num_eq]. rewrite !np_sum_Qsum. apply Qsum_map2_scale.
  - intros [Hx H2]. unfold PWL.integral; cbn [PWL.x PWL.y1 PWL.y2].
    rewrite broadcast2_same
      by (rewrite length_slice_tail, length_slice_init; reflexivity).
    cbn [bind].
    rewrite !(broadcast2_same Qplus)
      by (unfold scale; rewrite ?length_map; congruence).
    cbn [bind].
    rewrite !broadcast2_same
      by (unfold scale; rewrite ?length_map, !length_map2, ?length_map,
            length_slice_tail, length_slice_init; lia).
    cbn [bind]. do 2 eexists. split; [reflexivity|]. split; [reflexivity|].
    cbn [nmul num_eq]. rewrite !np_sum_Qsum. apply Qsum_map2_scale_sum.
  - intros _. unfold DF.integral; cbn [DF.y DF.mp].
    do 2 eexists. split; [reflexivity|]. split; [reflexivity|].
    apply fdiv_scale. rewrite slice_scale, !np_sum_Qsum, Qsum_scale. ring.
Qed.

(** X10: after [mul_scalar(fac)] on an object as the constructors make
    it, whose arrays have the lengths its kind asks for, [integral()]
    over the whole domain is [fac] times what it was before; for a
    discrete function whose inner multiplicities sum to zero it stays
    non-finite. *)
Theorem mul_scalar_scales_integral (h : store) (s : oref) (o : object)
  (b : aref) (p : profile) (fac : Q) :
  view h s = Some p ->
  nth_error (objects h) s = Some o -> consecutive o b ->
  well_shaped p ->
  exists h' p' v v',
    Store.mul_scalar s fac h = Ok (tt, h') /\
    view h' s = Some p' /\
    profile_integral p = Ok v /\
    profile_integral p' = Ok v' /\
    num_eq v' (nmul v (Some fac)).
Proof.
  intros Hv Ho Hc Hw.
  destruct (@mul_scalar_spec h s p fac Hv) as [h' [Hrun [_ [_ [_ Hview]]]]].
  destruct (@profile_integral_scale p fac Hw) as [v [v' [H1 [H2 H3]]]].
  exists h', (mul_scalar_profile fac p), v, v'.
  split; [exact Hrun|]. split; [exact (Hview o b Ho Hc)|].
  split; [exact H1|]. split; [exact H2|exact H3].
Qed.

Lemma mul_scalar_scales_integral_witness :
  exists h' p' v v',
    Store.mul_scalar 0%nat 2 store_AB = Ok (tt, h') /\
    view h' 0%nat = Some p' /\
    profile_integral (Pwc pwc_A) = Ok v /\
    profile_integral p' = Ok v' /\
    num_eq v' (nmul v (Some 2)).
Proof.
  apply (@mul_scalar_scales_integral store_AB 0%nat (PwcObj 0%nat 1%nat)
           0%nat (Pwc pwc_A) 2).
  - reflexivity.
  - reflexivity.
  - split; reflexivity.
  - reflexivity.
Defined.
(** ** Further results: plottable data *)

Lemma length_interleave {A : Type} (a b : list A) :
  length a = length b -> length (interleave a b) = (length a + length a)%nat.
Proof.
  revert b. induction a as [|u a IH]; intros [|v b] H; try discriminate;
    [reflexivity|].
  cbn [interleave length]. rewrite IH by (simpl in H; lia). lia.
Qed.

Lemma map_interleave {A B : Type} (g : A -> B) (a b : list A) :
  map g (interleave a b) = interleave (map g a) (map g b).
Proof.
  revert b. induction a as [|u a IH]; intros [|v b]; try reflexivity.
  cbn [interleave map]. rewrite IH. reflexivity.
Qed.

Lemma repeat_double {A : Type} (c : A) (k : nat) :
  repeat c (k + k) = interleave (repeat c k) (repeat c k).
Proof.
  induction k as [|k IH]; [reflexivity|].
  rewrite Nat.add_succ_r. cbn [Nat.add repeat interleave].
  rewrite IH. reflexivity.
Qed.

Lemma np_empty_nat (k : nat) :
  np_empty (Z.of_nat k) = Ok (repeat Uninit k).
Proof.
  unfold np_empty.
  assert ((Z.of_nat k <? 0)%Z = false) as -> by (apply Z.ltb_ge; lia).
  rewrite Nat2Z.id. reflexivity.
Qed.

Lemma assign_item_head {A : Type} (c v : A) (t : list A) :
  assign_item (c :: t) 0%Z v = Ok (v :: t).
Proof.
  unfold assign_item, len. cbn [Z.ltb Z.compare orb length].
  assert ((Z.of_nat (S (length t)) <=? 0)%Z = false) as ->
    by (apply Z.leb_gt; lia).
  reflexivity.
Qed.

Lemma stride_count_even {A : Type} (a b : list A) :
  length a = length b -> stride_count (interleave a b) 0 2 = length a.
Proof.
  revert b. induction a as [|u a IH]; intros [|v b] H; try discriminate;
    [reflexivity|].
  cbn [interleave stride_count Nat.sub length].
  rewrite IH by (simpl in H; lia). reflexivity.
Qed.

Lemma stride_count_odd {A : Type} (a b : list A) :
  length a = length b -> stride_count (interleave a b) 1 2 = length a.
Proof.
  revert b. induction a as [|u a IH]; intros [|v b] H; try discriminate;
    [reflexivity|].
  cbn [interleave stride_count Nat.sub length].
  destruct a as [|u' a]; destruct b as [|v' b]; try discriminate;
    [reflexivity|].
  specialize (IH (v' :: b) ltac:(simpl in H; simpl; lia)).
  cbn [interleave stride_count Nat.sub length] in IH |- *.
  rewrite IH. reflexivity.
Qed.

Lemma put_stride_even (a b : list cell) (v : list Q) :
  length v = length a -> length a = length b ->
  put_stride (interleave a b) 0 2 v = interleave (map Val v) b.
Proof.
  revert b v. induction a as [|u a IH]; intros [|w b] [|q v] Hv H;
    try discriminate; [reflexivity|].
  cbn [interleave put_stride Nat.sub map].
  rewrite IH by (simpl in *; lia). reflexivity.
Qed.

Lemma put_stride_odd (a b : list cell) (v : list Q) :
  length v = length a -> length a = length b ->
  put_stride (interleave a b) 1 2 v = interleave a (map Val v).
Proof.
  revert b v. induction a as [|u a IH]; intros [|w b] [|q v] Hv H;
    try discriminate; [reflexivity|].
  cbn [interleave put_stride Nat.sub map].
  destruct a as [|u' a]; destruct b as [|w' b]; destruct v as [|q' v];
    try discriminate; [reflexivity|].
  specialize (IH (w' :: b) (q' :: v) ltac:(simpl in *; lia)
                 ltac:(simpl in *; lia)).
  cbn [interleave put_stride Nat.sub map] in IH |- *.
  rewrite IH. reflexivity.
Qed.

Lemma assign_stride_even (a b : list cell) (v : list Q) :
  length v = length a -> length a = length b ->
  assign_stride (interleave a b) 0 2 v = Ok (interleave (map Val v) b).
Proof.
  intros Hv H. unfold assign_stride.
  rewrite stride_count_even by exact H. rewrite Hv, Nat.eqb_refl.
  rewrite put_stride_even by assumption. reflexivity.
Qed.

Lemma assign_stride_odd (a b : list cell) (v : list Q) :
  length v = length a -> length a = length b ->
  assign_stride (interleave a b) 1 2 v = Ok (interleave a (map Val v)).
Proof.
  intros Hv H. unfold assign_stride.
  rewrite stride_count_odd by exact H. rewrite Hv, Nat.eqb_refl.
  rewrite put_stride_odd by assumption. reflexivity.
Qed.

(** Writing from the third position on leaves the first pair alone. *)
Lemma assign_stride_second (c d : cell) (a b : list cell) (v : list Q) :
  length v = length a -> length a = length b ->
  assign_stride (c :: d :: interleave a b) 2 2 v
  = Ok (c :: d :: interleave (map Val v) b).
Proof.
  intros Hv H. unfold assign_stride. cbn [stride_count put_stride].
  rewrite stride_count_even by exact H. rewrite Hv, Nat.eqb_refl.
  rewrite put_stride_even by assumption. reflexivity.
Qed.

Lemma slice_inner (u w : Q) (t : list Q) :
  slice (u :: w :: t) (Some 1%Z) (Some (-1)%Z) = removelast (w :: t).
Proof.
  rewrite removelast_firstn_len. unfold slice, len, slice_bound.
  cbn [Z.ltb Z.compare length Nat.pred].
  replace (Z.to_nat (Z.max 0 (Z.min (Z.of_nat (S (S (length t)))) 1)))
    with 1%nat by lia.
  replace (Z.to_nat
             (Z.max 0
                (Z.min (Z.of_nat (S (S (length t))))
                   (-1 + Z.of_nat (S (S (length t)))))))
    with (S (length t)) by lia.
  replace (S (length t) - 1)%nat with (length t) by lia.
  reflexivity.
Qed.

Lemma slice_tail_cons (u : Q) (t : list Q) :
  slice (u :: t) (Some 1%Z) None = t.
Proof.
  rewrite slice_from_one. cbn [length skipn].
  apply firstn_all2. lia.
Qed.

Lemma length_removelast_cons {A : Type} (u : A) (t : list A) :
  length (removelast (u :: t)) = length t.
Proof. rewrite removelast_firstn_len, length_firstn. simpl. lia. Qed.

(** The x-coordinates of the plot, shared by the two piece-wise kinds. *)
Lemma x_plot_polyline (u w : Q) (t : list Q) :
  (x_plot <- np_empty (2 * len (u :: w :: t) - 2)%Z ;;
   x0 <- getitem (u :: w :: t) 0%Z ;;
   x_plot <- assign_item x_plot 0%Z (Val x0) ;;
   x_plot <- assign_stride x_plot 1 2 (slice (u :: w :: t) (Some 1%Z) None) ;;
   assign_stride x_plot 2 2 (slice (u :: w :: t) (Some 1%Z) (Some (-1)%Z)))
  = Ok (map Val (interleave (removelast (u :: w :: t)) (w :: t))).
Proof.
  set (n := length t).
  replace (2 * len (u :: w :: t) - 2)%Z with (Z.of_nat (S n + S n))
    by (unfold len; cbn [length]; fold n; lia).
  rewrite np_empty_nat, repeat_double. cbn [bind].
  change (getitem (u :: w :: t) 0%Z) with (Ok u). cbn [bind].
  cbn [repeat interleave]. rewrite assign_item_head. cbn [bind].
  rewrite slice_tail_cons, slice_inner.
  change (Val u :: Uninit :: interleave (repeat Uninit n) (repeat Uninit n))
    with (interleave (Val u :: repeat Uninit n) (Uninit :: repeat Uninit n)).
  rewrite assign_stride_odd
    by (cbn [length]; rewrite ?repeat_length; reflexivity).
  cbn [bind map interleave].
  rewrite assign_stride_second
    by (rewrite ?length_removelast_cons, ?repeat_length, ?length_map;
        reflexivity).
  change (removelast (u :: w :: t)) with (u :: removelast (w :: t)).
  cbn [map interleave]. rewrite map_interleave. reflexivity.
Qed.

(** X11: [PieceWiseConstFunc.get_plottable_data] needs at least two
    breakpoints: with none it raises ValueError, with one IndexError.
    Otherwise it returns the polyline of the steps,
    [x_plot = x0, x1, x1, ..., x(n-1)] and [y_plot = y0, y0, y1, y1, ...],
    every entry assigned, whatever the length of [y]. *)
Theorem pwc_plottable_data (f : PWC.t) :
  PWC.get_plottable_data f
  = match PWC.x f with
    | [] => Err ValueError
    | [_] => Err IndexError
    | _ :: t =>
        Ok (map Val (interleave (removelast (PWC.x f)) t),
            map Val (interleave (PWC.y f) (PWC.y f)))
    end.
Proof.
  destruct f as [x y]. unfold PWC.get_plottable_data. cbn [PWC.x PWC.y].
  destruct x as [|u [|w t]]; [reflexivity|reflexivity|].
  pose proof (x_plot_polyline u w t) as Hx.
  destruct (np_empty (2 * len (u :: w :: t) - 2)) as [e|e]; cbn [bind] in *;
    [|discriminate].
  destruct (getitem (u :: w :: t) 0%Z) as [x0|e0]; cbn [bind] in *;
    [|discriminate].
  destruct (assign_item e 0%Z (Val x0)) as [e1|e1]; cbn [bind] in *;
    [|discriminate].
  destruct (assign_stride e1 1 2 (slice (u :: w :: t) (Some 1%Z) None))
    as [e2|e2]; cbn [bind] in *; [|discriminate].
  rewrite Hx. cbn [bind].
  replace (2 * len y)%Z with (Z.of_nat (length y + length y))
    by (unfold len; lia).
  rewrite np_empty_nat, repeat_double. cbn [bind].
  rewrite assign_stride_even by (rewrite ?repeat_length; reflexivity).
  cbn [bind].
  rewrite assign_stride_odd
    by (rewrite ?length_map, ?repeat_length; reflexivity).
  cbn [bind]. rewrite !map_interleave. reflexivity.
Qed.

(** X12: for a piece-wise linear function with [n >= 2] breakpoints and
    [n - 1] values on each side, [get_plottable_data] returns the polyline
    [x_plot = x0, x1, x1, ..., x(n-1)],
    [y_plot = y1[0], y2[0], y1[1], y2[1], ...], every entry assigned. *)
Theorem pwl_plottable_data (f : PWL.t) (N : nat) :
  length (PWL.x f) = S (S N) ->
  length (PWL.y1 f) = S N -> length (PWL.y2 f) = S N ->
  PWL.get_plottable_data f
  = Ok (map Val (interleave (removelast (PWL.x f)) (tl (PWL.x f))),
        map Val (interleave (PWL.y1 f) (PWL.y2 f))).
Proof.
  destruct f as [x y1 y2]. unfold PWL.get_plottable_data.
  cbn [PWL.x PWL.y1 PWL.y2]. intros Hlx H1 H2.
  destruct x as [|u [|w t]]; try discriminate.
  pose proof (x_plot_polyline u w t) as Hx.
  destruct (np_empty (2 * len (u :: w :: t) - 2)) as [e|e]; cbn [bind] in *;
    [|discriminate].
  destruct (getitem (u :: w :: t) 0%Z) as [x0|e0]; cbn [bind] in *;
    [|discriminate].
  destruct (assign_item e 0%Z (Val x0)) as [e1|e1]; cbn [bind] in *;
    [|discriminate].
  destruct (assign_stride e1 1 2 (slice (u :: w :: t) (Some 1%Z) None))
    as [e2|e2]; cbn [bind] in *; [|discriminate].
  rewrite Hx. cbn [bind tl].
  assert (length t = N) as Ht by (simpl in Hlx; lia).
  rewrite length_map, length_interleave
    by (rewrite length_removelast_cons; simpl; lia).
  rewrite length_removelast_cons. cbn [length]. rewrite Ht.
  rewrite repeat_double.
  rewrite assign_stride_even by (rewrite ?repeat_length; congruence).
  cbn [bind].
  rewrite assign_stride_odd
    by (rewrite ?length_map, ?repeat_length; congruence).
  cbn [bind]. rewrite !map_interleave. reflexivity.
Qed.

Lemma pwl_plottable_data_witness :
  PWL.get_plottable_data pwl_L
  = Ok (map Val (interleave (removelast (PWL.x pwl_L)) (tl (PWL.x pwl_L))),
        map Val (interleave (PWL.y1 pwl_L) (PWL.y2 pwl_L))).
Proof.
  apply (@pwl_plottable_data pwl_L 2%nat); reflexivity.
Defined.
(** ** Further results: smoothing a constant profile *)

(** Neighbours whose values are [c] times their positive multiplicities
    contribute [c] times the multiplicity they add. *)
Lemma expand_constant (E c : Q) (nbrs : list (Q * Q)) :
  Forall (fun p => 0 < snd p /\ fst p == c * snd p) nbrs ->
  forall acc, acc < E ->
    exists v, fst (expand E nbrs acc) = Some v /\
              v == c * (snd (expand E nbrs acc) - acc) /\
              acc <= snd (expand E nbrs acc).
Proof.
  induction 1 as [|[yj mj] rest [Hm Hy] _ IH]; intros acc Hacc;
    cbn [fst snd] in *.
  - exists 0. cbn [expand fst snd]. split; [reflexivity|].
    split; [ring|apply Qle_refl].
  - cbn [expand]. destruct (Qlt_bool (acc + mj) E) eqn:Hlt.
    + apply Qlt_bool_iff in Hlt.
      destruct (IH (acc + mj) Hlt) as [v [Hv [Heq Hle]]].
      cbv zeta. cbn [fst snd]. rewrite Hv. cbn [nadd].
      eexists. split; [reflexivity|]. split.
      * rewrite Heq, Hy. ring.
      * lra.
    + cbn [fst snd]. rewrite fdiv_some by lra.
      eexists. split; [reflexivity|]. split.
      * rewrite Hy. field. lra.
      * lra.
Qed.

Lemma constant_points (f : DF.t) (n : nat) (c : Q) :
  length (DF.y f) = n -> length (DF.mp f) = n ->
  (forall j, (j < n)%nat ->
             0 < nth j (DF.mp f) 0 /\
             nth j (DF.y f) 0 == c * nth j (DF.mp f) 0) ->
  Forall (fun p => 0 < snd p /\ fst p == c * snd p)
         (combine (DF.y f) (DF.mp f)).
Proof.
  intros Hy Hm H. apply Forall_forall. intros p Hp.
  destruct (In_nth _ _ (0, 0) Hp) as [j [Hj Hn]].
  rewrite length_combine in Hj. rewrite combine_nth in Hn by congruence.
  subst p. cbn [fst snd]. apply H. lia.
Qed.

Lemma smoothed_constant (f : DF.t) (n : nat) (E c : Q) (i : nat) :
  length (DF.y f) = n -> length (DF.mp f) = n ->
  (forall j, (j < n)%nat ->
             0 < nth j (DF.mp f) 0 /\
             nth j (DF.y f) 0 == c * nth j (DF.mp f) 0) ->
  (i < n)%nat ->
  num_eq (smoothed E f i) (Some c).
Proof.
  intros Hy Hm H Hi. destruct (H i Hi) as [Hpos Hval].
  pose proof (@constant_points f n c Hy Hm H) as Hall.
  rewrite <- (firstn_skipn (S i) (combine (DF.y f) (DF.mp f))) in Hall.
  apply Forall_app in Hall. destruct Hall as [_ Hright].
  pose proof (@constant_points f n c Hy Hm H) as Hall.
  rewrite <- (firstn_skipn i (combine (DF.y f) (DF.mp f))) in Hall.
  apply Forall_app in Hall. destruct Hall as [Hleft _].
  apply Forall_rev in Hleft.
  unfold smoothed. cbv zeta.
  destruct (Qle_bool E (nth i (DF.mp f) 0)) eqn:Hle.
  - rewrite fdiv_some by lra. cbn [num_eq]. rewrite Hval. field. lra.
  - apply Qle_bool_false_lt in Hle.
    destruct (@expand_constant E c _ Hright _ Hle)
      as [vr [Hr [Hrv Hrl]]].
    destruct (@expand_constant E c _ Hleft _ Hle)
      as [vl [Hl [Hlv Hll]]].
    rewrite Hr, Hl. cbn [nadd ndiv].
    set (sr := snd (expand E (skipn (S i) (combine (DF.y f) (DF.mp f)))
                      (nth i (DF.mp f) 0))) in *.
    set (sl := snd (expand E (rev (firstn i (combine (DF.y f) (DF.mp f))))
                      (nth i (DF.mp f) 0))) in *.
    rewrite fdiv_some by lra. cbn [num_eq].
    rewrite Hrv, Hlv, Hval. field. lra.
Qed.

(** X13: smoothing keeps a constant profile constant.  If every
    multiplicity is positive and every value is [c] times its
    multiplicity, so that the plain plot shows [c] at every point, then
    for every window size [k > 0] [get_plottable_data] returns [c] at
    every point, near the ends of the array as well. *)
Theorem smoothing_preserves_constant (f : DF.t) (k : Z) (n : nat) (c : Q) :
  (0 < k)%Z -> (0 < n)%nat ->
  length (DF.x f) = n -> length (DF.y f) = n -> length (DF.mp f) = n ->
  (forall j, (j < n)%nat ->
             0 < nth j (DF.mp f) 0 /\
             nth j (DF.y f) 0 == c * nth j (DF.mp f) 0) ->
  exists y_plot,
    DF.get_plottable_data f k = Ok (map (Qmult 1) (DF.x f), y_plot) /\
    length y_plot = n /\
    forall i, (i < n)%nat -> num_eq (nth i y_plot None) (Some c).
Proof.
  intros Hk Hn Hx Hy Hmp Hc. unfold DF.get_plottable_data.
  assert ((0 <? k)%Z = true) as -> by (apply Z.ltb_lt; exact Hk).
  change (getitem (DF.mp f) 0%Z) with (getitem (DF.mp f) (Z.of_nat 0)).
  rewrite (getitem_nat 0 (DF.mp f) (i:=0%nat)) by lia. cbn [bind].
  cbv zeta. rewrite length_map, Hy.
  destruct (@plot_loop_seq f n ((k + 1) * py_int (nth 0 (DF.mp f) 0%Q))%Z
              Hy Hmp n 0%nat (map (fun _ => Some 0) (DF.y f))
              ltac:(lia) ltac:(rewrite length_map; exact Hy))
    as [y' [Hy' [Hl' [_ Hval]]]].
  rewrite Hy'. cbn [bind]. exists y'.
  split; [reflexivity|]. split; [exact Hl'|].
  intros i Hi.
  destruct (@window_point_smoothed f n
              ((k + 1) * py_int (nth 0 (DF.mp f) 0%Q))%Z Hy Hmp i Hi)
    as [v [Hv Hs]].
  rewrite (Hval i ltac:(lia)) in Hv. injection Hv as <-.
  eapply num_eq_trans; [exact Hs|].
  eapply smoothed_constant; eassumption.
Qed.

Lemma smoothing_preserves_constant_witness :
  exists y_plot,
    DF.get_plottable_data (DF.mk [0; 1; 2] [2; 4; 2] [1; 2; 1]) 2
    = Ok (map (Qmult 1) [0; 1; 2], y_plot) /\
    length y_plot = 3%nat /\
    forall i, (i < 3)%nat -> num_eq (nth i y_plot None) (Some 2).
Proof.
  apply (@smoothing_preserves_constant
           (DF.mk [0; 1; 2] [2; 4; 2] [1; 2; 1]) 2 3%nat 2);
    try reflexivity; try lia.
  intros [|[|[|j]]] Hj; try lia; split; vm_compute; reflexivity.
Defined.
(** ** Further results: what [add] refuses *)

Lemma same_interval_differs (sx fx : list Q) (N M : nat) :
  length sx = S N -> length fx = S M ->
  ~ (nth 0 sx 0 == nth 0 fx 0 /\ nth N sx 0 == nth M fx 0) ->
  same_interval sx fx = Err (AssertionError DifferentIntervals).
Proof.
  intros Hs Hf Hne. unfold same_interval.
  change 0%Z with (Z.of_nat 0).
  rewrite !(getitem_nat 0 _ (i:=0%nat)) by lia. cbn [bind].
  rewrite (getitem_last sx Hs), (getitem_last fx Hf). cbn [bind].
  destruct (Qeq_bool (nth 0 sx 0) (nth 0 fx 0)) eqn:E0; [|reflexivity].
  destruct (Qeq_bool (nth N sx 0) (nth M fx 0)) eqn:E1; [|reflexivity].
  exfalso. apply Hne. split; apply Qeq_bool_iff; assumption.
Qed.

(** X14: whatever the merge routine, [add] on two functions whose first
    breakpoints differ or whose last breakpoints differ fails with the
    assertion "The functions have different intervals". *)
Theorem add_different_intervals (B : backend) (h : store) (s f : oref)
  (p q : profile) (N M : nat) :
  view h s = Some p -> view h f = Some q ->
  length (profile_x p) = S N -> length (profile_x q) = S M ->
  ~ (nth 0 (profile_x p) 0 == nth 0 (profile_x q) 0 /\
     nth N (profile_x p) 0 == nth M (profile_x q) 0) ->
  Store.add B s f h = Err (AssertionError DifferentIntervals).
Proof.
  intros Hs Hf Hp Hq Hne.
  pose proof (@add_refines B h s f p q Hs Hf) as Hadd.
  unfold add_profile in Hadd.
  rewrite (same_interval_differs _ _ Hp Hq Hne) in Hadd.
  exact Hadd.
Qed.

Lemma add_different_intervals_witness :
  Store.add MergeModel.impl 0%nat 1%nat
    (mkStore [[0; 1; 2]; [1; 2]; [0; 1; 3]; [5; 0]]
             [PwcObj 0%nat 1%nat; PwcObj 2%nat 3%nat])
  = Err (AssertionError DifferentIntervals).
Proof.
  apply (@add_different_intervals MergeModel.impl _ 0%nat 1%nat
           (Pwc (PWC.mk [0; 1; 2] [1; 2])) (Pwc (PWC.mk [0; 1; 3] [5; 0]))
           2%nat 2%nat); try reflexivity.
  intros [_ H]. vm_compute in H. discriminate.
Defined.

(** X15: [add] does not look at the class of its argument, only at its
    attributes.  On two functions with the same end points, whatever the
    merge routine, it fails with AttributeError when the argument lacks a
    value attribute that the receiver's kind reads: a constant function
    refuses a linear one, a linear function refuses the two other kinds,
    and a discrete function refuses the two piece-wise kinds. *)
Theorem add_missing_attribute (B : backend) (h : store) (s f : oref)
  (p q : profile) :
  view h s = Some p -> view h f = Some q ->
  same_interval (profile_x p) (profile_x q) = Ok tt ->
  has_attributes p q = false ->
  Store.add B s f h = Err AttributeError.
Proof.
  intros Hs Hf Hi Hk.
  pose proof (@add_refines B h s f p q Hs Hf) as Hadd.
  unfold add_profile in Hadd. rewrite Hi in Hadd. cbn [bind] in Hadd.
  destruct p as [sp|sp|sp]; destruct q as [fq|fq|fq];
    try discriminate Hk; exact Hadd.
Qed.

Lemma add_missing_attribute_witness :
  Store.add MergeModel.impl 0%nat 1%nat
    (mkStore [[0; 1; 2]; [1; 2]; [0; 1; 2]; [5; 0]; [1; 1]]
             [PwcObj 0%nat 1%nat; PwlObj 2%nat 3%nat 4%nat])
  = Err AttributeError.
Proof.
  apply (@add_missing_attribute MergeModel.impl _ 0%nat 1%nat
           (Pwc (PWC.mk [0; 1; 2] [1; 2]))
           (Pwl (PWL.mk [0; 1; 2] [5; 0] [1; 1]))); reflexivity.
Defined.
(** ** Further results: [almost_equal] *)

Lemma map2_sym {C : Type} (g : Q -> Q -> C) (a b : list Q) :
  (forall u v, g u v = g v u) -> map2 g a b = map2 g b a.
Proof.
  intro Hg. revert b. induction a as [|u a IH]; intros [|v b];
    try reflexivity.
  cbn [map2]. rewrite Hg, IH. reflexivity.
Qed.

Lemma broadcast2_sym {C : Type} (g : Q -> Q -> C) (a b : list Q) :
  (forall u v, g u v = g v u) -> broadcast2 g a b = broadcast2 g b a.
Proof.
  intro Hg. unfold broadcast2. rewrite (Nat.eqb_sym (length b) (length a)).
  destruct (Nat.eqb (length a) (length b)) eqn:E.
  - rewrite (map2_sym g a b Hg). reflexivity.
  - destruct a as [|u [|u' a]]; destruct b as [|v [|v' b]];
      try reflexivity; try discriminate E.
    + f_equal. apply map_ext. intro w. apply Hg.
    + f_equal. apply map_ext. intro w. apply Hg.
Qed.

Lemma close_sym (eps u v : Q) :
  Qle_bool (Qabs (u - v)) eps = Qle_bool (Qabs (v - u)) eps.
Proof.
  assert (Qabs (u - v) == Qabs (v - u)) as H
    by (rewrite <- (Qabs_opp (u - v)); apply Qabs_wd; ring).
  destruct (Qle_bool (Qabs (u - v)) eps) eqn:E1;
    destruct (Qle_bool (Qabs (v - u)) eps) eqn:E2; try reflexivity.
  - apply Qle_bool_iff in E1. rewrite H in E1. apply Qle_bool_iff in E1.
    congruence.
  - apply Qle_bool_iff in E2. rewrite <- H in E2. apply Qle_bool_iff in E2.
    congruence.
Qed.

Lemma allclose_sym (a b : list Q) (eps : Q) :
  allclose a b eps = allclose b a eps.
Proof.
  unfold allclose.
  rewrite (broadcast2_sym (fun u v => Qle_bool (Qabs (u - v)) eps) a b
             (close_sym eps)).
  reflexivity.
Qed.

(** [almost_equal] reads the two objects and leaves the store as it is. *)
Lemma almost_equal_refines (h : store) (a b : oref) (p q : profile)
  (decimal : Z) :
  view h a = Some p -> view h b = Some q ->
  Store.almost_equal a b decimal h
  = match almost_equal_profile p q (Qpower 10 (- decimal)) with
    | Ok c => Ok (c, h)
    | Err e => Err e
    end.
Proof.
  intros Ha Hb.
  destruct (view_object _ _ Hb) as [fo Hfo].
  destruct (@attrs_view _ _ _ _ Hb Hfo) as [Afx [Afy [Af1 [Af2 Afm]]]].
  pose proof (view_inv _ _ Ha) as Hi.
  unfold Store.almost_equal, almost_equal_profile. cbv zeta.
  destruct p as [[vx vy]|[vx v1 v2]|[vx vy vm]];
    cbn [PWC.x PWC.y PWL.x PWL.y1 PWL.y2 DF.x DF.y DF.mp] in *.
  - destruct Hi as [x [y [Ho [Hx Hy]]]].
    run_load Ho. run_load Hfo. run_load Hx. run_load Afx.
    run_lift; cbn [bind]; [|reflexivity].
    match goal with c : bool |- _ => destruct c end; [|reflexivity].
    run_load Hy.
    destruct (Store.attr_y fo) as [ry|e].
    2:{ rewrite Afy. reflexivity. }
    destruct Afy as [fy [-> Hfy]]. cbn [bind]. run_pure. run_load Hfy.
    unfold Store.lift. destruct (allclose vy fy _); reflexivity.
  - destruct Hi as [x [y1 [y2 [Ho [Hx [H1 H2]]]]]].
    run_load Ho. run_load Hfo. run_load Hx. run_load Afx.
    run_lift; cbn [bind]; [|reflexivity].
    match goal with c : bool |- _ => destruct c end; [|reflexivity].
    run_load H1.
    destruct (Store.attr_y1 fo) as [r1|e].
    2:{ rewrite Af1. reflexivity. }
    destruct Af1 as [f1 [-> Hf1]]. cbn [bind]. run_pure. run_load Hf1.
    run_lift; cbn [bind]; [|reflexivity].
    match goal with c : bool |- _ => destruct c end; [|reflexivity].
    run_load H2.
    destruct (Store.attr_y2 fo) as [r2|e].
    2:{ rewrite Af2. reflexivity. }
    destruct Af2 as [f2 [-> Hf2]]. cbn [bind]. run_pure. run_load Hf2.
    unfold Store.lift. destruct (allclose v2 f2 _); reflexivity.
  - destruct Hi as [x [y [mp [Ho [Hx [Hy Hm]]]]]].
    run_load Ho. run_load Hfo. run_load Hx. run_load Afx.
    run_lift; cbn [bind]; [|reflexivity].
    match goal with c : bool |- _ => destruct c end; [|reflexivity].
    run_load Hy.
    destruct (Store.attr_y fo) as [ry|e].
    2:{ rewrite Afy. reflexivity. }
    destruct Afy as [fy [-> Hfy]]. cbn [bind]. run_pure. run_load Hfy.
    run_lift; cbn [bind]; [|reflexivity].
    match goal with c : bool |- _ => destruct c end; [|reflexivity].
    run_load Hm.
    destruct (Store.attr_mp fo) as [rm|e].
    2:{ rewrite Afm. reflexivity. }
    destruct Afm as [fm [-> Hfm]]. cbn [bind]. run_pure. run_load Hfm.
    unfold Store.lift. destruct (allclose vm fm _); reflexivity.
Qed.

Lemma almost_equal_profile_sym (p q : profile) (eps : Q) :
  same_kind p q = true ->
  almost_equal_profile p q eps = almost_equal_profile q p eps.
Proof.
  destruct p as [[vx vy]|[vx v1 v2]|[vx vy vm]];
    destruct q as [[wx wy]|[wx w1 w2]|[wx wy wm]];
    try discriminate; intros _;
    cbn [almost_equal_profile profile_x profile_y profile_y1 profile_y2
         profile_mp PWC.x PWC.y PWL.x PWL.y1 PWL.y2 DF.x DF.y DF.mp bind].
  - rewrite (allclose_sym vx wx), (allclose_sym vy wy). reflexivity.
  - rewrite (allclose_sym vx wx), (allclose_sym v1 w1),
      (allclose_sym v2 w2). reflexivity.
  - rewrite (allclose_sym vx wx), (allclose_sym vy wy),
      (allclose_sym vm wm). reflexivity.
Qed.

(** X16: between two objects of the same class [almost_equal] is
    symmetric: [a.almost_equal(b)] and [b.almost_equal(a)] give the same
    answer for every precision, or fail in the same way when the arrays
    cannot be compared, and neither changes anything. *)
Theorem almost_equal_symmetric (h : store) (a b : oref) (p q : profile)
  (decimal : Z) :
  view h a = Some p -> view h b = Some q -> same_kind p q = true ->
  Store.almost_equal a b decimal h = Store.almost_equal b a decimal h /\
  (forall c h', Store.almost_equal a b decimal h = Ok (c, h') -> h' = h).
Proof.
  intros Ha Hb Hk.
  rewrite (@almost_equal_refines h a b p q decimal Ha Hb).
  rewrite (@almost_equal_refines h b a q p decimal Hb Ha).
  rewrite (@almost_equal_profile_sym p q _ Hk). split; [reflexivity|].
  intros c h' H.
  destruct (almost_equal_profile q p (Qpower 10 (- decimal)));
    [injection H as _ <-; reflexivity|discriminate].
Qed.

Lemma almost_equal_symmetric_witness :
  Store.almost_equal 0%nat 1%nat 10 store_AB
  = Store.almost_equal 1%nat 0%nat 10 store_AB /\
  (forall c h', Store.almost_equal 0%nat 1%nat 10 store_AB = Ok (c, h') ->
                h' = store_AB).
Proof.
  apply (@almost_equal_symmetric store_AB 0%nat 1%nat (Pwc pwc_A)
           (Pwc pwc_B) 10); reflexivity.
Defined.
(** ** Further results: discrete integrals over several intervals *)

Lemma Qsum_app (a b : list Q) : Qsum (a ++ b) == Qsum a + Qsum b.
Proof.
  induction a as [|u a IH]; cbn [app Qsum]; [ring|]. rewrite IH. ring.
Qed.

Lemma integral_loop_inside (f : DF.t) (N : nat) (ivals : list (Q * Q)) :
  strictly_increasing (DF.x f) = true ->
  length (DF.x f) = S N ->
  length (DF.y f) = S N -> length (DF.mp f) = S N ->
  Forall (fun iv => nth 0 (DF.x f) 0 <= fst iv /\
                    snd iv <= nth N (DF.x f) 0) ivals ->
  forall v m, exists r,
    DF.integral_loop f ivals v m = Ok r /\
    fst r == v + Qsum (flat_map
                         (fun iv => inside_values (DF.x f) (DF.y f)
                                      (fst iv) (snd iv)) ivals) /\
    snd r == m + Qsum (flat_map
                         (fun iv => inside_values (DF.x f) (DF.mp f)
                                      (fst iv) (snd iv)) ivals).
Proof.
  intros Hs Hlx Hly Hlm. induction 1 as [|[a b] ivals [Ha Hb] _ IH];
    intros v m; cbn [fst snd] in *.
  - exists (v, m). cbn [DF.integral_loop flat_map Qsum fst snd].
    split; [reflexivity|]. split; ring.
  - cbn [DF.integral_loop flat_map].
    rewrite (@get_indices_inside f a b N Hlx Ha Hb). cbn [bind fst snd].
    pose proof (@searchsorted_left_stop (DF.x f) b N ltac:(lia) Hb) as He.
    rewrite !slice_nat by lia.
    rewrite (@located_slice_inside (DF.x f) a b Hs (DF.y f)) by congruence.
    rewrite (@located_slice_inside (DF.x f) a b Hs (DF.mp f)) by congruence.
    destruct (IH (v + np_sum (inside_values (DF.x f) (DF.y f) a b))
                 (m + np_sum (inside_values (DF.x f) (DF.mp f) a b)))
      as [r [Hr [Hv Hm]]].
    exists r. split; [exact Hr|].
    rewrite Hv, Hm, !Qsum_app, !np_sum_Qsum. split; ring.
Qed.

(** X17: for a discrete function with strictly increasing points and a
    non-empty sequence of pairs inside the domain, [integral(sequence)]
    is the sum of [y] over the points strictly inside the pairs divided
    once by the sum of [mp] over the same points; a point inside two of
    the pairs is counted twice. *)
Theorem discrete_integral_sequence (f : DF.t) (N : nat)
  (iv : Q * Q) (ivals : list (Q * Q)) :
  strictly_increasing (DF.x f) = true ->
  length (DF.x f) = S N ->
  length (DF.y f) = S N -> length (DF.mp f) = S N ->
  Forall (fun iv => nth 0 (DF.x f) 0 <= fst iv /\
                    snd iv <= nth N (DF.x f) 0) (iv :: ivals) ->
  exists r,
    DF.integral f (ISeq (iv :: ivals)) = Ok r /\
    num_eq r
      (fdiv (Qsum (flat_map
                     (fun iv => inside_values (DF.x f) (DF.y f)
                                  (fst iv) (snd iv)) (iv :: ivals)))
            (Qsum (flat_map
                     (fun iv => inside_values (DF.x f) (DF.mp f)
                                  (fst iv) (snd iv)) (iv :: ivals)))).
Proof.
  intros Hs Hlx Hly Hlm Hin.
  destruct (@integral_loop_inside f N (iv :: ivals) Hs Hlx Hly Hlm Hin 0 0)
    as [r [Hr [Hv Hm]]].
  unfold DF.integral. rewrite Hr. cbn [bind].
  eexists. split; [reflexivity|].
  apply fdiv_compat; [rewrite Hv|rewrite Hm]; ring.
Qed.

Lemma discrete_integral_sequence_witness :
  exists r,
    DF.integral disc_D (ISeq [(0, 2); (1 # 2, 4)]) = Ok r /\
    num_eq r (Some 1).
Proof.
  destruct (@discrete_integral_sequence disc_D 4%nat (0, 2) [(1 # 2, 4)])
    as [r [Hr He]]; try reflexivity.
  - repeat constructor; vm_compute; congruence.
  - exists r. split; [exact Hr|].
    eapply num_eq_trans; [exact He|]. vm_compute. reflexivity.
Defined.
(** ** Further results: the average of a linear function *)


(** ** Further results: the sub-interval integral of a linear function *)












(** X20: for a piece-wise linear function, when both bounds fall within
    one interval, [x[k] <= a < x[k+1]] and [x[k] < b <= x[k+1]] with
    [a <= b], the value returned is the area under the line between [a]
    and [b] plus the area of the whole interval
    [(x[k+1]-x[k])*0.5*(y1[k]+y2[k])]: the two edge corrections
    overlap. *)
Theorem pwl_integral_within_interval (f : PWL.t) (a b : Q) (N k : nat) :
  strictly_increasing (PWL.x f) = true ->
  length (PWL.x f) = S N ->
  length (PWL.y1 f) = N -> length (PWL.y2 f) = N -> (k < N)%nat ->
  nth k (PWL.x f) 0 <= a -> a < nth (S k) (PWL.x f) 0 ->
  nth k (PWL.x f) 0 < b -> b <= nth (S k) (PWL.x f) 0 ->
  a <= b ->
  let line := interpolate (nth k (PWL.x f) 0) (nth (S k) (PWL.x f) 0)
                (nth k (PWL.y1 f) 0) (nth k (PWL.y2 f) 0) in
  exists v,
    PWL.integral f (Some (a, b)) = Ok (Some v) /\
    v == (b - a) * (1 # 2) * (line a + line b)
         + (nth (S k) (PWL.x f) 0 - nth k (PWL.x f) 0) * (1 # 2)
           * (nth k (PWL.y1 f) 0 + nth k (PWL.y2 f) 0).
Proof.
  intros Hs Hlx Hl1 Hl2 Hk Ha1 Ha2 Hb1 Hb2 Hab line. subst line.
  assert (forall i j, (i <= j)%nat -> (j <= N)%nat ->
                      nth i (PWL.x f) 0 <= nth j (PWL.x f) 0)
    as Hmono by (intros; apply strictly_increasing_le; [exact Hs|lia|lia]).
  assert (searchsorted_right (PWL.x f) a = S k) as Hsr.
  { apply searchsorted_right_is; [exact Hs|lia| |intros _; exact Ha2].
    intros i Hi. apply Qle_trans with (nth k (PWL.x f) 0); [|exact Ha1].
    apply Hmono; lia. }
  assert (searchsorted_left (PWL.x f) b = S k) as Hsl.
  { apply searchsorted_left_is; [exact Hs|lia| |intros _; exact Hb2].
    intros i Hi. apply Qle_lt_trans with (nth k (PWL.x f) 0); [|exact Hb1].
    apply Hmono; lia. }
  assert (nth 0 (PWL.x f) 0 <= a) as Ha0
    by (apply Qle_trans with (nth k (PWL.x f) 0);
        [apply Hmono; lia|exact Ha1]).
  assert (b <= nth N (PWL.x f) 0) as HbN
    by (apply Qle_trans with (nth (S k) (PWL.x f) 0);
        [exact Hb2|apply Hmono; lia]).
  assert (a < nth N (PWL.x f) 0) as HaN
    by (apply Qlt_le_trans with (nth (S k) (PWL.x f) 0);
        [exact Ha2|apply Hmono; lia]).
  assert (nth 0 (PWL.x f) 0 < b) as Hb0
    by (apply Qle_lt_trans with (nth k (PWL.x f) 0);
        [apply Hmono; lia|exact Hb1]).
  destruct (@pwl_integral_interval f a b N Hs Hlx Hl1 Hl2 Ha0 HaN Hb0 HbN Hab)
    as [v [Hv Heq]].
  exists v. split; [exact Hv|]. rewrite Heq. clear Hv Heq v.
  rewrite Hsr, Hsl.
  replace (S k - 1)%nat with k by lia.
  replace (k - S k)%nat with 0%nat by lia.
  cbn [sum_range].
  pose proof (@strictly_increasing_step (PWL.x f) k Hs ltac:(lia)) as Hstep.
  unfold interpolate. field. lra.
Qed.

Lemma pwl_integral_within_interval_witness :
  exists v, PWL.integral pwl_L (Some (5 # 4, 7 # 4)) = Ok (Some v)
            /\ v == 9 # 4.
Proof.
  destruct (@pwl_integral_within_interval pwl_L (5 # 4) (7 # 4) 3%nat 1%nat)
    as [v [Hv Heq]];
    try reflexivity; try (vm_compute; congruence); try lia.
  exists v. split; [exact Hv|]. rewrite Heq. vm_compute. reflexivity.
Defined.
